(** * P2PLoader: the per-fragment request adapter of hlsjs-p2p-wrapper

    A shallow embedding of [src/lib/integration/p2p-loader-generator.js].
    The class mutates its own fields, arms and clears timers, issues
    transfers to the peer agent and calls back into the host player.  All of
    this is threaded explicitly through a [World]: the instance fields
    ([this]), the closure variable [hlsjsWrapper], the pending timers of the
    event loop, the transfers the peer agent still owes a terminal callback,
    the [performance.now()] clock and the log of every observable effect.
    Methods are computations in a state-and-exception monad so that a JS
    [throw] keeps the mutations made before it.

    Conventions.
    - Time stamps and durations are finite binary64 numbers, kept as the
      rationals they are: a sum, difference or quotient is the exact result
      rounded to the nearest such number.  Delays, counters and byte counts
      are integers.
    - A property that may be [undefined] is an [option]; [stats.tfirst],
      which is compared with [null], has its own three-valued type.
    - A host callback is an identifier; calling it appends to the log.  What
      the host does in answer (for instance [abort()] from its timeout
      handler) is a later event of the run.
    - The [stats] object handed to the host is the instance's own record;
      the log keeps the value it has when the call is made.
    - The bound callbacks given to the peer agent do not tell transfers
      apart; the transfer a callback belongs to appears only in the event
      that delivers it. *)

From Stdlib Require Import ZArith QArith Qminmax Qround Qabs Lia.
From stdpp Require Import base strings pretty gmap list.

Open Scope Z_scope.

(** ** Data crossing the loader's interface *)

Definition callback := nat.
Definition timer_id := nat.
Definition handle := nat.

(** The fragment fields the loader reads.  A byte-range offset is [None]
    when the property is [undefined] (or [NaN]); when present it is an
    integer, as the playlist parser produces it. *)
Record Frag := {
  byteRangeStartOffset : option Z;
  byteRangeEndOffset : option Z;
  level : nat;
  sn : Z;
  start : Q }.

Record Level := { urlId : Z }.

(** Modelled from the spec: [TrackView] and [SegmentView]
    (./mapping/track-view, ./mapping/segment-view) are opaque locator
    objects; they are kept as the constructor arguments they are built
    from. *)
Record TrackView := { tv_level : nat; tv_urlId : Z }.
Record SegmentView := { sv_sn : Z; sv_trackView : TrackView; sv_time : Q }.

Record XhrInfo := { headers : gmap string string; withCredentials : bool }.

Record ReqInfo := {
  req_url : string;
  req_headers : gmap string string;
  req_withCredentials : bool }.

(** The [stats] argument of the peer agent's success callback. *)
Record BackendStats := { p2pDuration : Q; cdnDuration : Q; p2pDownloaded : Z }.

(** A progress event; a byte count is [None] when the property is absent. *)
Record ProgressEvent := { cdnDownloaded : option Z; ev_p2pDownloaded : option Z }.

Record HttpError := { status : Z }.

(** [stats.tfirst] is [undefined] in a fresh record, [null] once an attempt
    started, and a number afterwards; [loadProgress] tests [=== null]. *)
Inductive TFirst := TfUndefined | TfNull | TfNum (t : Q).

Record Stats := {
  trequest : Q;
  tfirst : TFirst;
  tload : option Q;
  loaded : option Z;
  retry : Z;
  aborted : bool }.

Definition set_trequest (v : Q) (s : Stats) : Stats :=
  {| trequest := v; tfirst := tfirst s; tload := tload s; loaded := loaded s;
     retry := retry s; aborted := aborted s |}.
Definition set_tfirst (v : TFirst) (s : Stats) : Stats :=
  {| trequest := trequest s; tfirst := v; tload := tload s; loaded := loaded s;
     retry := retry s; aborted := aborted s |}.
Definition set_tload (v : option Q) (s : Stats) : Stats :=
  {| trequest := trequest s; tfirst := tfirst s; tload := v; loaded := loaded s;
     retry := retry s; aborted := aborted s |}.
Definition set_loaded (v : option Z) (s : Stats) : Stats :=
  {| trequest := trequest s; tfirst := tfirst s; tload := tload s; loaded := v;
     retry := retry s; aborted := aborted s |}.
Definition set_retry (v : Z) (s : Stats) : Stats :=
  {| trequest := trequest s; tfirst := tfirst s; tload := tload s; loaded := loaded s;
     retry := v; aborted := aborted s |}.
Definition set_aborted (v : bool) (s : Stats) : Stats :=
  {| trequest := trequest s; tfirst := tfirst s; tload := tload s; loaded := loaded s;
     retry := retry s; aborted := v |}.

(** ** The instance *)

Record P2PLoader := {
  xhrSetup : option (string → XhrInfo);
  requestTimeout : option timer_id;
  retryTimeout : option timer_id;
  peerAgentLoader : option handle;
  byteRange : option string;
  frag : option Frag;
  url : string;
  responseType : string;
  onSuccess : option callback;
  onProgress : option callback;
  onTimeout : option callback;
  onError : option callback;
  stats : option Stats;
  timeout : Z;
  maxRetry : Z;
  retryDelay : Z }.

Definition set_requestTimeout (v : option timer_id) (o : P2PLoader) : P2PLoader :=
  {| xhrSetup := xhrSetup o; requestTimeout := v; retryTimeout := retryTimeout o;
     peerAgentLoader := peerAgentLoader o; byteRange := byteRange o; frag := frag o;
     url := url o; responseType := responseType o; onSuccess := onSuccess o;
     onProgress := onProgress o; onTimeout := onTimeout o; onError := onError o;
     stats := stats o; timeout := timeout o; maxRetry := maxRetry o;
     retryDelay := retryDelay o |}.
Definition set_retryTimeout (v : option timer_id) (o : P2PLoader) : P2PLoader :=
  {| xhrSetup := xhrSetup o; requestTimeout := requestTimeout o; retryTimeout := v;
     peerAgentLoader := peerAgentLoader o; byteRange := byteRange o; frag := frag o;
     url := url o; responseType := responseType o; onSuccess := onSuccess o;
     onProgress := onProgress o; onTimeout := onTimeout o; onError := onError o;
     stats := stats o; timeout := timeout o; maxRetry := maxRetry o;
     retryDelay := retryDelay o |}.
Definition set_peerAgentLoader (v : option handle) (o : P2PLoader) : P2PLoader :=
  {| xhrSetup := xhrSetup o; requestTimeout := requestTimeout o;
     retryTimeout := retryTimeout o; peerAgentLoader := v; byteRange := byteRange o;
     frag := frag o; url := url o; responseType := responseType o;
     onSuccess := onSuccess o; onProgress := onProgress o; onTimeout := onTimeout o;
     onError := onError o; stats := stats o; timeout := timeout o;
     maxRetry := maxRetry o; retryDelay := retryDelay o |}.
Definition set_byteRange (v : option string) (o : P2PLoader) : P2PLoader :=
  {| xhrSetup := xhrSetup o; requestTimeout := requestTimeout o;
     retryTimeout := retryTimeout o; peerAgentLoader := peerAgentLoader o;
     byteRange := v; frag := frag o; url := url o; responseType := responseType o;
     onSuccess := onSuccess o; onProgress := onProgress o; onTimeout := onTimeout o;
     onError := onError o; stats := stats o; timeout := timeout o;
     maxRetry := maxRetry o; retryDelay := retryDelay o |}.
Definition set_stats (v : option Stats) (o : P2PLoader) : P2PLoader :=
  {| xhrSetup := xhrSetup o; requestTimeout := requestTimeout o;
     retryTimeout := retryTimeout o; peerAgentLoader := peerAgentLoader o;
     byteRange := byteRange o; frag := frag o; url := url o;
     responseType := responseType o; onSuccess := onSuccess o;
     onProgress := onProgress o; onTimeout := onTimeout o; onError := onError o;
     stats := v; timeout := timeout o; maxRetry := maxRetry o;
     retryDelay := retryDelay o |}.
Definition set_retryDelay (v : Z) (o : P2PLoader) : P2PLoader :=
  {| xhrSetup := xhrSetup o; requestTimeout := requestTimeout o;
     retryTimeout := retryTimeout o; peerAgentLoader := peerAgentLoader o;
     byteRange := byteRange o; frag := frag o; url := url o;
     responseType := responseType o; onSuccess := onSuccess o;
     onProgress := onProgress o; onTimeout := onTimeout o; onError := onError o;
     stats := stats o; timeout := timeout o; maxRetry := maxRetry o;
     retryDelay := v |}.
Definition set_xhrSetup (v : option (string → XhrInfo)) (o : P2PLoader) : P2PLoader :=
  {| xhrSetup := v; requestTimeout := requestTimeout o;
     retryTimeout := retryTimeout o; peerAgentLoader := peerAgentLoader o;
     byteRange := byteRange o; frag := frag o; url := url o;
     responseType := responseType o; onSuccess := onSuccess o;
     onProgress := onProgress o; onTimeout := onTimeout o; onError := onError o;
     stats := stats o; timeout := timeout o; maxRetry := maxRetry o;
     retryDelay := retryDelay o |}.

(** The arguments of [load], in the order of the source's parameter list. *)
Record LoadArgs := {
  a_url : string;
  a_responseType : string;
  a_onSuccess : option callback;
  a_onError : option callback;
  a_onTimeout : option callback;
  a_timeout : Z;
  a_maxRetry : Z;
  a_retryDelay : Z;
  a_onProgress : option callback;
  a_frag : option Frag }.

(** Lines 70-80 of the source: every per-request field is overwritten
    ([byteRange], the timer fields and [peerAgentLoader] are not). *)
Definition store_request (a : LoadArgs) (fresh : Stats) (o : P2PLoader) : P2PLoader :=
  {| xhrSetup := xhrSetup o; requestTimeout := requestTimeout o;
     retryTimeout := retryTimeout o; peerAgentLoader := peerAgentLoader o;
     byteRange := byteRange o; frag := a_frag a; url := a_url a;
     responseType := a_responseType a; onSuccess := a_onSuccess a;
     onProgress := a_onProgress a; onTimeout := a_onTimeout a;
     onError := a_onError a; stats := Some fresh; timeout := a_timeout a;
     maxRetry := a_maxRetry a; retryDelay := a_retryDelay a |}.

(** ** The environment *)

(** [hlsjsWrapper], the closure variable of the generated class. *)
Record HlsjsWrapper := { peerAgentModule : bool; levels : list Level }.

Inductive TimerTask := RunLoadTimeout | RunLoadInternal.

Record Timer := { tm_id : timer_id; tm_task : TimerTask; tm_delay : Z }.

(** Everything the loader does to the outside, in order of occurrence. *)
Inductive Effect :=
| HostSuccess (f : callback) (response : string) (st : Stats)
| HostError (f : callback) (target_status : Z)
| HostTimeout (f : callback) (st : option Stats)
| HostProgress (f : callback) (ev : ProgressEvent) (st : Stats)
| SetTimeout (t : Timer)
| GetSegment (h : handle) (req : ReqInfo) (sv : SegmentView)
| HandleAbort (h : handle)
| ConsoleWarn (st : Z) (u : string) (delay : Z)
| ConsoleError (st : Z) (u : string).

Record World := {
  this : P2PLoader;
  hlsjsWrapper : HlsjsWrapper;
  clock : nat → Q;
  reads : nat;
  timers : list Timer;
  next_timer : timer_id;
  inflight : list handle;
  cancelled : list handle;
  next_handle : handle;
  log : list Effect }.

Definition with_this (f : P2PLoader → P2PLoader) (w : World) : World :=
  {| this := f (this w); hlsjsWrapper := hlsjsWrapper w; clock := clock w;
     reads := reads w; timers := timers w; next_timer := next_timer w;
     inflight := inflight w; cancelled := cancelled w;
     next_handle := next_handle w; log := log w |}.
Definition with_reads (n : nat) (w : World) : World :=
  {| this := this w; hlsjsWrapper := hlsjsWrapper w; clock := clock w;
     reads := n; timers := timers w; next_timer := next_timer w;
     inflight := inflight w; cancelled := cancelled w;
     next_handle := next_handle w; log := log w |}.
Definition with_timers (ts : list Timer) (n : timer_id) (w : World) : World :=
  {| this := this w; hlsjsWrapper := hlsjsWrapper w; clock := clock w;
     reads := reads w; timers := ts; next_timer := n;
     inflight := inflight w; cancelled := cancelled w;
     next_handle := next_handle w; log := log w |}.
Definition with_transfers (fl cl : list handle) (n : handle) (w : World) : World :=
  {| this := this w; hlsjsWrapper := hlsjsWrapper w; clock := clock w;
     reads := reads w; timers := timers w; next_timer := next_timer w;
     inflight := fl; cancelled := cl; next_handle := n; log := log w |}.
Definition with_log (l : list Effect) (w : World) : World :=
  {| this := this w; hlsjsWrapper := hlsjsWrapper w; clock := clock w;
     reads := reads w; timers := timers w; next_timer := next_timer w;
     inflight := inflight w; cancelled := cancelled w;
     next_handle := next_handle w; log := l |}.

(** ** Computations: state plus exceptions *)

Inductive jserror := Error (msg : string) | TypeError (msg : string).

Inductive result (A : Type) :=
| Ok (a : A) (w : World)
| Throw (e : jserror) (w : World).
Arguments Ok {A} a w.
Arguments Throw {A} e w.

Definition comp (A : Type) : Type := World → result A.

Definition world_of {A} (r : result A) : World :=
  match r with Ok _ w => w | Throw _ w => w end.

Definition returned {A} (r : result A) : bool :=
  match r with Ok _ _ => true | Throw _ _ => false end.

#[export] Instance comp_ret : MRet comp := λ A a w, Ok a w.
#[export] Instance comp_bind : MBind comp := λ A B f c w,
  match c w with
  | Ok a w' => f a w'
  | Throw e w' => Throw e w'
  end.

Definition throw {A} (e : jserror) : comp A := λ w, Throw e w.
Definition get_this : comp P2PLoader := λ w, Ok (this w) w.
Definition set_this (f : P2PLoader → P2PLoader) : comp unit :=
  λ w, Ok tt (with_this f w).
Definition get_wrapper : comp HlsjsWrapper := λ w, Ok (hlsjsWrapper w) w.
Definition emit (e : Effect) : comp unit :=
  λ w, Ok tt (with_log (log w ++ [e]) w).

(** [this.stats.<field>]: a TypeError when [this.stats] is [undefined]. *)
Definition get_stats : comp Stats := λ w,
  match stats (this w) with
  | Some st => Ok st w
  | None => Throw (TypeError "Cannot read properties of undefined") w
  end.
Definition update_stats (f : Stats → Stats) : comp unit := λ w,
  match stats (this w) with
  | Some st => Ok tt (with_this (set_stats (Some (f st))) w)
  | None => Throw (TypeError "Cannot set properties of undefined") w
  end.

(** [performance.now()]: the next reading of the clock. *)
Definition performance_now : comp Q :=
  λ w, Ok (clock w (reads w)) (with_reads (S (reads w)) w).

(** [setTimeout(task, delay)] returns a fresh identifier. *)
Definition setTimeout (task : TimerTask) (delay : Z) : comp timer_id := λ w,
  let t := {| tm_id := next_timer w; tm_task := task; tm_delay := delay |} in
  Ok (next_timer w)
     (with_log (log w ++ [SetTimeout t])
        (with_timers (timers w ++ [t]) (S (next_timer w)) w)).

Definition drop_timer (t : timer_id) (ts : list Timer) : list Timer :=
  filter (λ tm, tm_id tm ≠ t) ts.

(** [clearTimeout(id)]: nothing happens for [null]/[undefined] or for an
    identifier that is not pending. *)
Definition clear_timer (t : option timer_id) (ts : list Timer) : list Timer :=
  match t with
  | Some i => drop_timer i ts
  | None => ts
  end.

Definition clearTimeout (t : option timer_id) : comp unit :=
  λ w, Ok tt (with_timers (clear_timer t (timers w)) (next_timer w) w).

(** [hlsjsWrapper.peerAgentModule.getSegment(reqInfo, callbacks, segmentView)]:
    the three callbacks handed over are always this instance's bound
    [loadSuccess], [loadError] and [loadProgress]. *)
Definition getSegment (req : ReqInfo) (sv : SegmentView) : comp handle := λ w,
  if peerAgentModule (hlsjsWrapper w) then
    Ok (next_handle w)
       (with_log (log w ++ [GetSegment (next_handle w) req sv])
          (with_transfers (inflight w ++ [next_handle w]) (cancelled w)
             (S (next_handle w)) w))
  else Throw (TypeError "Cannot read properties of null (reading 'getSegment')") w.

(** [handle.abort()]: the peer agent is told to cancel the transfer. *)
Definition handle_abort (h : handle) : comp unit := λ w,
  Ok tt (with_log (log w ++ [HandleAbort h])
           (with_transfers (inflight w) (cancelled w ++ [h]) (next_handle w) w)).

(** Calling a stored host callback; a missing one is not a function. *)
Definition call_host (cb : option callback) (eff : callback → Effect) : comp unit :=
  match cb with
  | Some f => emit (eff f)
  | None => throw (TypeError "callback is not a function")
  end.

(** Modelled from the spec: [extractInfoFromXhrSetup] (../utils) returns the
    headers and the credential mode the request-customization hook asks for;
    the hook is kept as the function from the url to that answer, and no
    hook gives no headers and no credentials. *)
Definition extractInfoFromXhrSetup (setup : option (string → XhrInfo)) (u : string) : XhrInfo :=
  match setup with
  | Some f => f u
  | None => {| headers := ∅; withCredentials := false |}
  end.

(** ** Numbers *)

(** JavaScript numbers are IEEE-754 binary64 values.  The finite ones are
    rationals and are kept in [Q]; [+], [-] and [/] give the exact result
    rounded to the nearest binary64 value, ties to even, with gradual
    underflow.  [Math.min], [Math.max] and the comparisons are exact.
    [NaN] and the infinities are not numbers of the model: [round64] rounds
    as if the exponent had no upper bound, and [finite64] tells the results
    that are finite numbers in JavaScript too. *)

(** The nearest integer, ties to even. *)
Definition round_half_even (q : Q) : Z :=
  let f := Qfloor q in
  match (q - inject_Z f ?= 1 # 2)%Q with
  | Lt => f
  | Gt => f + 1
  | Eq => if Z.even f then f else f + 1
  end.

(** The [e] with [2^e <= |q| < 2^(e+1)], for [q] other than zero. *)
Definition binade (q : Q) : Z :=
  let e := Z.log2 (Z.abs (Qnum q)) - Z.log2 (Zpos (Qden q)) in
  if Qle_bool (2 ^ e) (Qabs q) then e else e - 1.

(** 53 significant bits, and no bit below [2^-1074]. *)
Definition round64 (q : Q) : Q :=
  if Qeq_bool q 0 then 0%Q
  else
    let e := Z.max (binade q - 52) (-1074) in
    Qred (inject_Z (round_half_even (q / 2 ^ e)) * 2 ^ e).

Definition num_add (a b : Q) : Q := round64 (a + b).
Definition num_sub (a b : Q) : Q := round64 (a - b).
Definition num_div (a b : Q) : Q := round64 (a / b).

(** The exact result [q] rounds to a finite number. *)
Definition finite64 (q : Q) : Prop := (Qabs (round64 q) < 2 ^ 1024)%Q.

(** ** The methods of [P2PLoader] *)

(** [reset(cancelRetry = true)], lines 39-50. *)
Definition reset (cancelRetry : bool) : comp unit :=
  self ← get_this;
  clearTimeout (requestTimeout self);;
  set_this (set_requestTimeout None);;
  (if cancelRetry then
     self ← get_this;
     clearTimeout (retryTimeout self);;
     set_this (set_retryTimeout None)
   else mret tt);;
  set_this (set_peerAgentLoader None).

(** [abort()], lines 31-37. *)
Definition abort : comp unit :=
  self ← get_this;
  (match peerAgentLoader self with
   | Some h => update_stats (set_aborted true);; handle_abort h
   | None => mret tt
   end);;
  reset true.

(** [destroy()], lines 27-29. *)
Definition destroy : comp unit := abort.

(** [constructor(config)], lines 20-25; [config] is [None] when falsy and
    otherwise carries its [xhrSetup] property. *)
Definition constructor (config : option (option (string → XhrInfo))) : comp unit :=
  (match config with
   | Some setup => set_this (set_xhrSetup setup)
   | None => mret tt
   end);;
  reset true.

(** A non-empty string is truthy. *)
Definition truthy_string (s : option string) : bool :=
  match s with
  | Some EmptyString | None => false
  | Some _ => true
  end.

(** A number is truthy unless it is zero (or absent). *)
Definition truthy_num (n : option Z) : bool :=
  match n with
  | Some z => negb (z =? 0)
  | None => false
  end.

(** String conversion of a possibly undefined number, and of the result of
    arithmetic on it ([undefined - 1] is [NaN]). *)
Definition show_offset (o : option Z) : string :=
  match o with Some z => pretty z | None => "undefined" end.
Definition show_number (o : option Z) : string :=
  match o with Some z => pretty z | None => "NaN" end.

(** The template literal of line 154. *)
Definition range_header (fr : Frag) : string :=
  "bytes=" +:+ show_offset (byteRangeStartOffset fr) +:+ "-"
  +:+ show_number ((λ e, e - 1) <$> byteRangeEndOffset fr).

Definition the_frag : comp Frag := λ w,
  match frag (this w) with
  | Some fr => Ok fr w
  | None => Throw (TypeError "Cannot read properties of undefined") w
  end.

(** [loadInternal()], lines 144-176. *)
Definition loadInternal : comp unit :=
  self ← get_this;
  if peerAgentLoader self is Some _ then
    throw (Error "P2P loader was not reset correctly, internal state indicates unfinalized request")
  else
    let info := extractInfoFromXhrSetup (xhrSetup self) (url self) in
    hdrs ← (if truthy_string (byteRange self) then
              fr ← the_frag;
              mret (<["Range" := range_header fr]> (headers info))
            else mret (headers info));
    fr ← the_frag;
    wr ← get_wrapper;
    lvl ← (match levels wr !! level fr with
           | Some l => mret l
           | None => throw (TypeError "Cannot read properties of undefined (reading 'urlId')")
           end);
    let trackView := {| tv_level := level fr; tv_urlId := urlId lvl |} in
    let segmentView :=
      {| sv_sn := sn fr; sv_trackView := trackView; sv_time := start fr |} in
    let reqInfo :=
      {| req_url := url self; req_headers := hdrs;
         req_withCredentials := withCredentials info |} in
    update_stats (set_tfirst TfNull);;
    update_stats (set_loaded (Some 0));;
    t ← setTimeout RunLoadTimeout (timeout self);
    set_this (set_requestTimeout (Some t));;
    h ← getSegment reqInfo segmentView;
    set_this (set_peerAgentLoader (Some h)).

(** [load(url, responseType, onSuccess, onError, onTimeout, timeout, maxRetry,
    retryDelay, onProgress, frag)], lines 52-83. *)
Definition load (a : LoadArgs) : comp unit :=
  match a_onProgress a with
  | None =>
      throw (Error "P2P loader expects progress-callback to be passed for ABR stats (use only as `fLoader` in config)")
  | Some _ =>
  match a_frag a with
  | None =>
      throw (Error "P2P loader can only be used for media fragments (use only as `fLoader` in config)")
  | Some fr =>
      wr ← get_wrapper;
      if negb (peerAgentModule wr) then
        throw (Error "Peer agent is not existing yet")
      else
        (match byteRangeStartOffset fr, byteRangeEndOffset fr with
         | Some s, Some e =>
             set_this (set_byteRange (Some (pretty s +:+ "-" +:+ pretty e)))
         | _, _ => mret tt
         end);;
        now ← performance_now;
        set_this (store_request a
                    {| trequest := now; tfirst := TfUndefined; tload := None;
                       loaded := None; retry := 0; aborted := false |});;
        loadInternal
  end
  end.

(** [x > 0] on the clock's number type. *)
Definition Qpositive (x : Q) : bool := negb (Qle_bool x 0).

(** [loadSuccess(segmentData, stats)], lines 85-112. *)
Definition loadSuccess (segmentData : string) (bs : BackendStats) : comp unit :=
  st ← get_stats;
  if aborted st then mret tt
  else
    (if Qpositive (num_add (p2pDuration bs) (cdnDuration bs))
        && (0 <? p2pDownloaded bs) then
       now ← performance_now;
       let srTime := num_add (p2pDuration bs) (cdnDuration bs) in
       let latency := Qmin (num_div srTime 2) 10 in
       update_stats (set_trequest (num_sub now srTime));;
       st1 ← get_stats;
       update_stats (set_tfirst (TfNum (num_add (trequest st1) latency)))
     else mret tt);;
    now ← performance_now;
    update_stats (set_tload (Some now));;
    self ← get_this;
    st2 ← get_stats;
    call_host (onSuccess self) (λ f, HostSuccess f segmentData st2);;
    reset true.

(** [loadError(httpError)], lines 116-142. *)
Definition loadError (httpError : HttpError) : comp unit :=
  st ← get_stats;
  if aborted st then mret tt
  else
    self ← get_this;
    if retry st <? maxRetry self then
      emit (ConsoleWarn (status httpError) (url self) (retryDelay self));;
      t ← setTimeout RunLoadInternal (retryDelay self);
      set_this (set_retryTimeout (Some t));;
      set_this (set_retryDelay (Z.min (2 * retryDelay self) 64000));;
      update_stats (λ s, set_retry (retry s + 1) s);;
      reset false
    else
      emit (ConsoleError (status httpError) (url self));;
      call_host (onError self) (λ f, HostError f (status httpError));;
      reset true.

(** The local [loaded] of [loadProgress], lines 180-188. *)
Definition progress_bytes (ev : ProgressEvent) : Z :=
  let loaded := 0 in
  let loaded :=
    if truthy_num (cdnDownloaded ev) then loaded + default 0 (cdnDownloaded ev)
    else loaded in
  let loaded :=
    if truthy_num (ev_p2pDownloaded ev) then loaded + default 0 (ev_p2pDownloaded ev)
    else loaded in
  loaded.

(** [loadProgress(event)], lines 178-199. *)
Definition loadProgress (ev : ProgressEvent) : comp unit :=
  update_stats (set_loaded (Some (progress_bytes ev)));;
  st ← get_stats;
  (if tfirst st is TfNull then
     now ← performance_now;
     update_stats (set_tfirst (TfNum (Qmax now (trequest st))))
   else mret tt);;
  self ← get_this;
  st1 ← get_stats;
  call_host (onProgress self) (λ f, HostProgress f ev st1).

(** [loadTimeout()], lines 201-203. *)
Definition loadTimeout : comp unit :=
  self ← get_this;
  call_host (onTimeout self) (λ f, HostTimeout f (stats self)).

(** ** The loader in its environment *)

(** What can happen to an instance: the host calls a public method, the peer
    agent calls one of the three bound callbacks on behalf of transfer [h],
    or the event loop runs a pending timer.  The methods do not see [h]. *)
Inductive Event :=
| CallLoad (a : LoadArgs)
| CallAbort
| CallDestroy
| BackendSuccess (h : handle) (segmentData : string) (bs : BackendStats)
| BackendError (h : handle) (e : HttpError)
| BackendProgress (h : handle) (ev : ProgressEvent)
| TimerFire (t : timer_id).

(** A terminal callback ends the transfer it belongs to. *)
Definition settle (h : handle) : comp unit := λ w,
  Ok tt (with_transfers (filter (λ x, x ≠ h) (inflight w)) (cancelled w)
           (next_handle w) w).

Definition run_task (k : TimerTask) : comp unit :=
  match k with
  | RunLoadTimeout => loadTimeout
  | RunLoadInternal => loadInternal
  end.

Definition find_timer (t : timer_id) (ts : list Timer) : option Timer :=
  head (filter (λ tm, tm_id tm = t) ts).

(** A timer that is not pending cannot fire; one that fires is no longer
    pending when its task runs. *)
Definition fire (t : timer_id) : comp unit := λ w,
  match find_timer t (timers w) with
  | Some tm =>
      run_task (tm_task tm)
        (with_timers (drop_timer t (timers w)) (next_timer w) w)
  | None => Ok tt w
  end.

Definition step (e : Event) : comp unit :=
  match e with
  | CallLoad a => load a
  | CallAbort => abort
  | CallDestroy => destroy
  | BackendSuccess h d bs => settle h;; loadSuccess d bs
  | BackendError h err => settle h;; loadError err
  | BackendProgress _ ev => loadProgress ev
  | TimerFire t => fire t
  end.

(** An exception reaches the caller (host, peer agent or event loop); the
    instance lives on with the mutations made so far. *)
Fixpoint run (evs : list Event) (w : World) : World :=
  match evs with
  | [] => w
  | e :: evs' => run evs' (world_of (step e w))
  end.

(** A blank object in an idle environment, and the instance [new P2PLoader(config)]
    makes of it. *)
Definition blank : P2PLoader :=
  {| xhrSetup := None; requestTimeout := None; retryTimeout := None;
     peerAgentLoader := None; byteRange := None; frag := None; url := "";
     responseType := ""; onSuccess := None; onProgress := None;
     onTimeout := None; onError := None; stats := None; timeout := 0;
     maxRetry := 0; retryDelay := 0 |}.

Definition idle_world (wr : HlsjsWrapper) (clk : nat → Q) : World :=
  {| this := blank; hlsjsWrapper := wr; clock := clk; reads := 0%nat;
     timers := []; next_timer := 1%nat; inflight := []; cancelled := [];
     next_handle := 1%nat;
     log := [] |}.

Definition new_P2PLoader (wr : HlsjsWrapper) (clk : nat → Q)
    (config : option (option (string → XhrInfo))) : World :=
  world_of (constructor config (idle_world wr clk)).

(** ** Reading the log *)

Definition is_host_terminal (e : Effect) : bool :=
  match e with
  | HostSuccess _ _ _ | HostError _ _ => true
  | _ => false
  end.

Fixpoint host_terminals (l : list Effect) : list Effect :=
  match l with
  | [] => []
  | e :: l' =>
      if is_host_terminal e then e :: host_terminals l' else host_terminals l'
  end.

Definition retry_delay_of (e : Effect) : option Z :=
  match e with
  | SetTimeout {| tm_task := RunLoadInternal; tm_delay := d |} => Some d
  | _ => None
  end.

(** The delays the retry timers were armed with, oldest first. *)
Definition retry_delays (l : list Effect) : list Z := omap retry_delay_of l.

Definition request_of (e : Effect) : option ReqInfo :=
  match e with
  | GetSegment _ req _ => Some req
  | _ => None
  end.

(** The descriptors of the transfers issued, oldest first. *)
Definition requests (l : list Effect) : list ReqInfo := omap request_of l.

#[export] Instance TimerTask_eq_dec : EqDecision TimerTask.
Proof. solve_decision. Defined.

Definition armed (k : TimerTask) (w : World) : Prop :=
  k ∈ tm_task <$> timers w.

#[export] Instance armed_dec k w : Decision (armed k w).
Proof. unfold armed. apply _. Defined.

(** * The vocabulary of the properties *)

(** ** The methods in closed form *)

(** [reset] never throws; its effect in closed form. *)
Definition reset_world (b : bool) (w : World) : World :=
  with_this
    (λ o, set_peerAgentLoader None
            ((if b then set_retryTimeout None else id) (set_requestTimeout None o)))
    (with_timers
       (clear_timer (if b then retryTimeout (this w) else None)
          (clear_timer (requestTimeout (this w)) (timers w)))
       (next_timer w) w).

(** The world [load] has built when it reaches [this.loadInternal()]. *)
Definition fresh_stats (w : World) : Stats :=
  {| trequest := clock w (reads w); tfirst := TfUndefined; tload := None;
     loaded := None; retry := 0; aborted := false |}.

Definition new_byteRange (fr : Frag) (old : option string) : option string :=
  match byteRangeStartOffset fr, byteRangeEndOffset fr with
  | Some s, Some e => Some (pretty s +:+ "-" +:+ pretty e)
  | _, _ => old
  end.

Definition stored (a : LoadArgs) (fr : Frag) (w : World) : World :=
  with_this
    (λ o, store_request a (fresh_stats w)
            (set_byteRange (new_byteRange fr (byteRange o)) o))
    (with_reads (S (reads w)) w).

Definition unfinalized : jserror :=
  Error "P2P loader was not reset correctly, internal state indicates unfinalized request".

(** The condition of line 98, and the results of lines 100-106 being
    finite numbers for the clock reading [now]. *)
Definition backdate (bs : BackendStats) : bool :=
  Qpositive (num_add (p2pDuration bs) (cdnDuration bs)) && (0 <? p2pDownloaded bs).

Definition timing_finite (now : Q) (bs : BackendStats) : Prop :=
  let dur := num_add (p2pDuration bs) (cdnDuration bs) in
  finite64 (p2pDuration bs + cdnDuration bs)
  ∧ finite64 (now - dur)
  ∧ finite64 (num_sub now dur + Qmin (num_div dur 2) 10).

Definition retry_timer (w : World) : Timer :=
  {| tm_id := next_timer w; tm_task := RunLoadInternal;
     tm_delay := retryDelay (this w) |}.

Definition attempt_headers (o : P2PLoader) (fr : Frag) : gmap string string :=
  if truthy_string (byteRange o) then
    <["Range" := range_header fr]>
      (headers (extractInfoFromXhrSetup (xhrSetup o) (url o)))
  else headers (extractInfoFromXhrSetup (xhrSetup o) (url o)).

Definition attempt_request (o : P2PLoader) (fr : Frag) : ReqInfo :=
  {| req_url := url o; req_headers := attempt_headers o fr;
     req_withCredentials :=
       withCredentials (extractInfoFromXhrSetup (xhrSetup o) (url o)) |}.

Definition attempt_segment (fr : Frag) (lvl : Level) : SegmentView :=
  {| sv_sn := sn fr;
     sv_trackView := {| tv_level := level fr; tv_urlId := urlId lvl |};
     sv_time := start fr |}.

Definition deadline_timer (w : World) : Timer :=
  {| tm_id := next_timer w; tm_task := RunLoadTimeout;
     tm_delay := timeout (this w) |}.

(** The world a successful [loadInternal] leaves. *)
Definition started (w : World) (st : Stats) (fr : Frag) (lvl : Level) : World :=
  with_this
    (λ o, set_peerAgentLoader (Some (next_handle w))
            (set_requestTimeout (Some (next_timer w))
               (set_stats (Some (set_loaded (Some 0) (set_tfirst TfNull st))) o)))
    (with_log
       (log w ++ [SetTimeout (deadline_timer w);
                  GetSegment (next_handle w) (attempt_request (this w) fr)
                    (attempt_segment fr lvl)])
       (with_transfers (inflight w ++ [next_handle w]) (cancelled w)
          (S (next_handle w))
          (with_timers (timers w ++ [deadline_timer w]) (S (next_timer w)) w))).

Definition settled (h : handle) (w : World) : World :=
  with_transfers (filter (λ x, x ≠ h) (inflight w)) (cancelled w)
    (next_handle w) w.

(** ** Preconditions and kinds of events *)

Definition precondition_violated (a : LoadArgs) (w : World) : Prop :=
  a_onProgress a = None ∨ a_frag a = None
  ∨ peerAgentModule (hlsjsWrapper w) = false.

Definition preconditions_met (a : LoadArgs) (w : World) : Prop :=
  is_Some (a_onProgress a) ∧ is_Some (a_frag a)
  ∧ peerAgentModule (hlsjsWrapper w) = true.

(** Events that come from the peer agent or the event loop, not from the
    host. *)
Definition from_backend_or_timer (e : Event) : Prop :=
  match e with
  | CallLoad _ | CallAbort | CallDestroy => False
  | _ => True
  end.

Definition not_load (e : Event) : Prop :=
  match e with
  | CallLoad _ => False
  | _ => True
  end.

(** The number of failures the peer agent reports in a run. *)
Fixpoint failures (evs : list Event) : nat :=
  match evs with
  | [] => 0
  | BackendError _ _ :: evs' => S (failures evs')
  | _ :: evs' => failures evs'
  end.

(** ** Progress samples *)

(** The bytes one sample reports: peer-sourced plus origin-sourced, an
    absent count being none. *)
Definition sample_total (ev : ProgressEvent) : Z :=
  default 0 (cdnDownloaded ev) + default 0 (ev_p2pDownloaded ev).

(** The reading of the specification: everything reported so far, over all
    the samples of the attempt. *)
Definition reported_so_far (samples : list ProgressEvent) : Z :=
  foldr (λ ev acc, sample_total ev + acc) 0 samples.

Definition progress_loaded (e : Effect) : option (option Z) :=
  match e with
  | HostProgress _ _ st => Some (loaded st)
  | _ => None
  end.

(** ** Frames: what a computation leaves alone *)

(** [keeps I c]: running [c] from a world in [I] ends, normally or by an
    exception, in a world in [I]. *)
Definition keeps {A} (I : World → Prop) (c : comp A) : Prop :=
  ∀ w, I w → I (world_of (c w)).

Definition same_request_fields (o o' : P2PLoader) : Prop :=
  xhrSetup o' = xhrSetup o ∧ byteRange o' = byteRange o ∧ frag o' = frag o
  ∧ url o' = url o ∧ responseType o' = responseType o
  ∧ onSuccess o' = onSuccess o ∧ onProgress o' = onProgress o
  ∧ onTimeout o' = onTimeout o ∧ onError o' = onError o
  ∧ stats o' = stats o ∧ timeout o' = timeout o ∧ maxRetry o' = maxRetry o
  ∧ retryDelay o' = retryDelay o.

Definition same_surroundings (w w' : World) : Prop :=
  hlsjsWrapper w' = hlsjsWrapper w ∧ reads w' = reads w
  ∧ next_timer w' = next_timer w ∧ inflight w' = inflight w
  ∧ cancelled w' = cancelled w ∧ next_handle w' = next_handle w
  ∧ log w' = log w.

(** What the retry policy reads and writes: the stored delay, the budget,
    the [retry] counter and [aborted] flag, and the delays of the retry
    timers armed so far. *)
Definition retry_view (w : World) : Z * Z * option (Z * bool) * list Z :=
  (retryDelay (this w), maxRetry (this w),
   (λ s, (retry s, aborted s)) <$> stats (this w),
   retry_delays (log w)).

(** What the timer and transfer discipline reads and writes. *)
Definition control (w : World) :=
  (requestTimeout (this w), retryTimeout (this w), peerAgentLoader (this w),
   timers w, next_timer w, inflight w, cancelled w, next_handle w,
   hlsjsWrapper w).

(** What a request keeps from [load] to its end. *)
Definition session (w : World) :=
  (frag (this w), onSuccess (this w), onError (this w), maxRetry (this w),
   aborted <$> stats (this w), hlsjsWrapper w).

(** Host terminal callbacks logged so far. *)
Definition terminals (w : World) : list Effect := host_terminals (log w).

(** ** The retry policy *)

(** The expression of line 129. *)
Definition backoff (d : Z) : Z := Z.min (2 * d) 64000.

(** The delay the [k]-th retry timer of a [load] with initial delay [d] is
    armed with. *)
Definition nth_retry_delay (d : Z) (k : nat) : Z :=
  match k with
  | 0%nat | 1%nat => d
  | S k' => Z.min (2 ^ Z.of_nat k' * d) 64000
  end.

(** ** Timers and transfers *)

(** Timer identifiers handed out so far are below [next_timer]. *)
Definition fresh_timer_ids (w : World) : Prop :=
  (∀ tm, tm ∈ timers w → (tm_id tm < next_timer w)%nat)
  ∧ (∀ t, requestTimeout (this w) = Some t → (t < next_timer w)%nat).

(** A transfer is live when the peer agent still owes its terminal callback
    and was not told to cancel it. *)
Definition live (h : handle) (w : World) : Prop :=
  h ∈ inflight w ∧ h ∉ cancelled w.

#[export] Instance live_dec h w : Decision (live h w).
Proof. unfold live. apply _. Defined.

(** No timer is pending, or exactly one: the deadline timer, stored in
    [requestTimeout], while a handle is stored; or the retry timer, stored in
    [retryTimeout], while none is. *)
Definition timers_shape (w : World) : Prop :=
  timers w = []
  ∨ (∃ tm, timers w = [tm] ∧ tm_task tm = RunLoadTimeout
           ∧ requestTimeout (this w) = Some (tm_id tm)
           ∧ is_Some (peerAgentLoader (this w)))
  ∨ (∃ tm, timers w = [tm] ∧ tm_task tm = RunLoadInternal
           ∧ retryTimeout (this w) = Some (tm_id tm)
           ∧ peerAgentLoader (this w) = None).

Record consistent (w : World) : Prop := {
  c_timers : timers_shape w;
  c_fresh_timer : ∀ t, requestTimeout (this w) = Some t → (t < next_timer w)%nat;
  c_live : ∀ h, live h w → peerAgentLoader (this w) = Some h;
  c_fresh_cancelled : ∀ h, h ∈ cancelled w → (h < next_handle w)%nat;
  c_fresh_handle : ∀ h, peerAgentLoader (this w) = Some h → (h < next_handle w)%nat;
  c_module : timers w ≠ [] ∨ is_Some (peerAgentLoader (this w)) →
             peerAgentModule (hlsjsWrapper w) = true }.

(** An instance at rest: nothing pending, nothing stored, nothing live. *)
Definition at_rest (w : World) : Prop :=
  timers w = [] ∧ peerAgentLoader (this w) = None ∧ (∀ h, ¬ live h w).

(** [this.stats] has been assigned. *)
Definition has_stats (w : World) : Prop := is_Some (stats (this w)).

(** A stored handle comes with a [stats] record. *)
Definition handle_has_stats (w : World) : Prop :=
  is_Some (peerAgentLoader (this w)) → has_stats w.

(** The [aborted] flag of the current [stats] record is set. *)
Definition flagged (w : World) : Prop :=
  aborted <$> stats (this w) = Some true.

(** [load] is not called during the pause before a retry, and the peer agent
    delivers a terminal callback only for a live transfer. *)
Definition allowed (w : World) (e : Event) : Prop :=
  match e with
  | CallLoad _ => ¬ armed RunLoadInternal w
  | BackendSuccess h _ _ | BackendError h _ => live h w
  | _ => True
  end.

Fixpoint allowed_run (w : World) (evs : list Event) : Prop :=
  match evs with
  | [] => True
  | e :: evs' => allowed w e ∧ allowed_run (world_of (step e w)) evs'
  end.

#[export] Instance allowed_dec w e : Decision (allowed w e).
Proof. destruct e; simpl; apply _. Defined.

#[export] Instance allowed_run_dec w evs : Decision (allowed_run w evs).
Proof. revert w. induction evs as [|e evs IH]; simpl; intros w; apply _. Defined.

(** Work is outstanding: a live transfer whose handle is stored, or a retry
    timer. *)
Definition in_progress (w : World) : Prop :=
  (∃ h, peerAgentLoader (this w) = Some h ∧ live h w)
  ∨ armed RunLoadInternal w.

(** A request under way: [base] are the host terminal callbacks logged
    before it, [r] the failures retried so far. *)
Record going (base : list Effect) (fr : Frag) (lvl : Level) (g f : callback)
    (m r : Z) (w : World) : Prop := {
  g_consistent : consistent w;
  g_terminals : terminals w = base;
  g_session : ∃ wr, session w = (Some fr, Some g, Some f, m, Some false, wr)
                    ∧ levels wr !! level fr = Some lvl;
  g_retry : ∃ d ds, retry_view w = (d, m, Some (r, false), ds);
  g_progress : in_progress w }.

(** [y] is a call of the success callback [g] or of the error callback
    [f]. *)
Definition delivered_to (g f : callback) (y : Effect) : Prop :=
  match y with
  | HostSuccess g' _ _ => g' = g
  | HostError f' _ => f' = f
  | _ => False
  end.

(** A request that has ended: one host terminal callback more than [base],
    and the instance at rest. *)
Definition finished (base : list Effect) (g f : callback) (w : World) : Prop :=
  consistent w ∧ at_rest w
  ∧ ∃ y, terminals w = base ++ [y] ∧ delivered_to g f y.

(** ** Sample data *)

Definition wrapper1 : HlsjsWrapper :=
  {| peerAgentModule := true; levels := [ {| urlId := 0 |}; {| urlId := 7 |} ] |}.

Definition clock1 : nat → Q := λ n, inject_Z (1000 + 5 * Z.of_nat n).

Definition frag_plain : Frag :=
  {| byteRangeStartOffset := None; byteRangeEndOffset := None; level := 1%nat;
     sn := 42; start := 12 |}.

Definition frag_range : Frag :=
  {| byteRangeStartOffset := Some 100; byteRangeEndOffset := Some 200;
     level := 0%nat; sn := 43; start := 24 |}.

Definition args1 (fr : Frag) (maxR delay : Z) : LoadArgs :=
  {| a_url := "http://cdn/seg.ts"; a_responseType := "arraybuffer";
     a_onSuccess := Some 1%nat; a_onError := Some 2%nat;
     a_onTimeout := Some 3%nat; a_timeout := 20000; a_maxRetry := maxR;
     a_retryDelay := delay; a_onProgress := Some 4%nat; a_frag := Some fr |}.

Definition fresh1 : World := new_P2PLoader wrapper1 clock1 None.

Definition e500 : HttpError := {| status := 500 |}.

Definition bs0 : BackendStats :=
  {| p2pDuration := 0; cdnDuration := 0; p2pDownloaded := 0 |}.

Definition retried_world : World :=
  run [CallLoad (args1 frag_plain 2 1000); BackendError 1%nat e500;
       TimerFire 2%nat] fresh1.

Definition attempt_world : World :=
  run [CallLoad (args1 frag_plain 1 1000)] fresh1.

Definition bs_p2p : BackendStats :=
  {| p2pDuration := 30; cdnDuration := 10; p2pDownloaded := 5000 |}.

(** The doubles nearest to 0.1 and 0.2 as durations, with a clock that
    stands at the double nearest to 1000.1. *)
Definition bs_tenths : BackendStats :=
  {| p2pDuration := round64 (1 # 10); cdnDuration := round64 (2 # 10);
     p2pDownloaded := 5000 |}.

Definition clock_tenths : nat → Q := λ _, round64 (10001 # 10).

Definition tenths_world : World :=
  run [CallLoad (args1 frag_plain 1 1000)] (new_P2PLoader wrapper1 clock_tenths None).

(** Figures that are not zero, with a negative sum of durations. *)
Definition bs_negative : BackendStats :=
  {| p2pDuration := -30; cdnDuration := 10; p2pDownloaded := 5000 |}.

Definition attempt_stats : Stats :=
  {| trequest := clock1 0; tfirst := TfNull; tload := None; loaded := Some 0;
     retry := 0; aborted := false |}.

Definition sample100 : ProgressEvent :=
  {| cdnDownloaded := Some 100; ev_p2pDownloaded := None |}.

Definition sample350 : ProgressEvent :=
  {| cdnDownloaded := Some 150; ev_p2pDownloaded := Some 200 |}.

Definition serviced : list Event :=
  [CallLoad (args1 frag_plain 1 1000); BackendError 1%nat e500;
   TimerFire 2%nat; BackendSuccess 2%nat "seg" bs_p2p;
   CallLoad (args1 frag_range 1 1000); CallAbort].

Definition retried_then_served : list Event :=
  [BackendProgress 1%nat sample100; BackendError 1%nat e500; TimerFire 2%nat;
   TimerFire 3%nat; BackendSuccess 2%nat "seg" bs_p2p].

(** ** Further vocabulary *)

(** The deadline timer [load] arms for the arguments [a]. *)
Definition load_deadline (a : LoadArgs) (w : World) : Timer :=
  {| tm_id := next_timer w; tm_task := RunLoadTimeout; tm_delay := a_timeout a |}.

(** A fragment of a level the player does not have. *)
Definition frag_lost : Frag :=
  {| byteRangeStartOffset := None; byteRangeEndOffset := None; level := 5%nat;
     sn := 44; start := 36 |}.

(** A request-customization hook asking for one header and credentials. *)
Definition hook1 : string → XhrInfo :=
  λ _, {| headers := {[ "X-Token" := "t" ]}; withCredentials := true |}.

(** The [tfirst] handed to a progress callback. *)
Definition progress_tfirst (e : Effect) : option TFirst :=
  match e with
  | HostProgress _ _ st => Some (tfirst st)
  | _ => None
  end.

(** What [loadProgress] makes of [tfirst], reading the clock at [now]. *)
Definition first_byte (now : Q) (st : Stats) : TFirst :=
  match tfirst st with
  | TfNull => TfNum (Qmax now (trequest st))
  | t => t
  end.

(** The arguments of [args1] without the success and error callbacks. *)
Definition args_bare (fr : Frag) : LoadArgs :=
  {| a_url := "http://cdn/seg.ts"; a_responseType := "arraybuffer";
     a_onSuccess := None; a_onError := None;
     a_onTimeout := Some 3%nat; a_timeout := 20000; a_maxRetry := 0;
     a_retryDelay := 1000; a_onProgress := Some 4%nat; a_frag := Some fr |}.

(** An instance pausing before its first retry. *)
Definition pausing_world : World :=
  run [CallLoad (args1 frag_plain 2 1000); BackendError 1%nat e500] fresh1.

(** Events of the peer agent or the event loop other than a success. *)
Definition no_success (e : Event) : Prop :=
  match e with
  | BackendError _ _ | BackendProgress _ _ | TimerFire _ => True
  | _ => False
  end.

(** The [trequest] of the current [stats] record. *)
Definition request_time (w : World) : option Q := trequest <$> stats (this w).

(** What a transfer is issued with, and from. *)
Definition issue_of (e : Effect) : option (ReqInfo * SegmentView) :=
  match e with
  | GetSegment _ req sv => Some (req, sv)
  | _ => None
  end.

Definition issued (l : list Effect) : list (ReqInfo * SegmentView) := omap issue_of l.

Definition request_view (w : World) :=
  (xhrSetup (this w), byteRange (this w), frag (this w), url (this w),
   hlsjsWrapper w).

(** The number of timer firings in a run. *)
Fixpoint fires (evs : list Event) : nat :=
  match evs with
  | [] => 0
  | TimerFire _ :: evs' => S (fires evs')
  | _ :: evs' => fires evs'
  end.

(** * Properties *)

(** ** Unfolding computations *)

Ltac comp_unfold :=
  unfold mbind, mret, comp_bind, comp_ret, throw, get_this, set_this,
    get_wrapper, emit, get_stats, update_stats, performance_now, setTimeout,
    clearTimeout, getSegment, handle_abort, call_host, the_frag, settle in *.

(** Symbolic execution: a scrutinee whose value a hypothesis gives is
    replaced by it. *)
Ltac comp_go :=
  comp_unfold; simpl;
  repeat (match goal with
          | H : ?x = _ |- context [match ?x with _ => _ end] => rewrite H
          end; simpl).

Lemma reset_eq b w : reset b w = Ok tt (reset_world b w).
Proof. destruct b; reflexivity. Qed.

(** ** Preconditions of [load] *)

Lemma load_eq a w fr :
  preconditions_met a w → a_frag a = Some fr →
  load a w = loadInternal (stored a fr w).
Proof.
  intros ([p Hp] & _ & Hm) Hf. unfold load. rewrite Hp, Hf.
  comp_unfold. rewrite Hm. simpl.
  unfold stored, new_byteRange.
  destruct (byteRangeStartOffset fr), (byteRangeEndOffset fr); reflexivity.
Qed.

Lemma load_violated a w :
  precondition_violated a w → ∃ msg, load a w = Throw (Error msg) w.
Proof.
  intros Hv. unfold load.
  destruct (a_onProgress a) as [p|] eqn:Hp; [|eauto].
  destruct (a_frag a) as [fr|] eqn:Hf; [|eauto].
  destruct Hv as [Hv|[Hv|Hv]]; try congruence.
  comp_unfold. rewrite Hv. simpl. eauto.
Qed.

(** C9. A [load] call without a progress callback, without a fragment, or
    made while the peer agent module does not exist yet throws an [Error]
    at once and leaves the whole world as it was: no timer is armed, no
    transfer is issued, nothing is logged. *)
Theorem load_precondition_error (a : LoadArgs) (w : World) :
  precondition_violated a w →
  ∃ msg, load a w = Throw (Error msg) w
         ∧ timers (world_of (load a w)) = timers w
         ∧ inflight (world_of (load a w)) = inflight w
         ∧ log (world_of (load a w)) = log w.
Proof.
  intros Hv. unfold load.
  destruct (a_onProgress a) as [p|] eqn:Hp; [|eauto].
  destruct (a_frag a) as [fr|] eqn:Hf; [|eauto].
  destruct Hv as [Hv|[Hv|Hv]]; try congruence.
  comp_unfold. rewrite Hv. simpl. eauto.
Qed.

Lemma load_precondition_error_witness :
  precondition_violated (args1 frag_plain 1 1000)
    (idle_world {| peerAgentModule := false; levels := [] |} clock1)
  ∧ ∃ msg, load (args1 frag_plain 1 1000)
             (idle_world {| peerAgentModule := false; levels := [] |} clock1)
           = Throw (Error msg)
               (idle_world {| peerAgentModule := false; levels := [] |} clock1).
Proof.
  assert (H : precondition_violated (args1 frag_plain 1 1000)
                (idle_world {| peerAgentModule := false; levels := [] |} clock1))
    by (right; right; reflexivity).
  split; [exact H|].
  destruct (load_precondition_error _ _ H) as (msg & Heq & _).
  exists msg. exact Heq.
Defined.

(** ** A re-entrant [load] *)

Lemma loadInternal_live w h :
  peerAgentLoader (this w) = Some h → loadInternal w = Throw unfinalized w.
Proof. intros H. unfold loadInternal. comp_unfold. rewrite H. reflexivity. Qed.

(** C10. When [load] is called with its preconditions met while the handle
    of a previous attempt is still stored, it throws from the consistency
    check of [loadInternal]; no timer is armed and no transfer is issued,
    the old handle and timers stay, but the request fields already hold the
    new arguments and [stats] is a fresh record with [retry = 0] and no
    [aborted] flag, so an instance that had retried or been aborted is not
    what it was before the call. *)
Theorem load_reentrant_throws (a : LoadArgs) (w : World) (h : handle) :
  preconditions_met a w →
  peerAgentLoader (this w) = Some h →
  ∃ w', load a w = Throw unfinalized w'
    ∧ timers w' = timers w ∧ next_timer w' = next_timer w
    ∧ inflight w' = inflight w ∧ next_handle w' = next_handle w
    ∧ log w' = log w
    ∧ peerAgentLoader (this w') = Some h
    ∧ requestTimeout (this w') = requestTimeout (this w)
    ∧ retryTimeout (this w') = retryTimeout (this w)
    ∧ url (this w') = a_url a
    ∧ responseType (this w') = a_responseType a
    ∧ onSuccess (this w') = a_onSuccess a
    ∧ onError (this w') = a_onError a
    ∧ onTimeout (this w') = a_onTimeout a
    ∧ onProgress (this w') = a_onProgress a
    ∧ frag (this w') = a_frag a
    ∧ timeout (this w') = a_timeout a
    ∧ maxRetry (this w') = a_maxRetry a
    ∧ retryDelay (this w') = a_retryDelay a
    ∧ stats (this w') = Some (fresh_stats w)
    ∧ (∀ st, stats (this w) = Some st →
             retry st ≠ 0 ∨ aborted st = true → this w' ≠ this w).
Proof.
  intros Hpre Hh.
  destruct Hpre as (Hp & [fr Hf] & Hm).
  exists (stored a fr w).
  rewrite (load_eq a w fr) by (repeat split; eauto).
  rewrite (loadInternal_live _ h) by exact Hh.
  repeat split; try reflexivity; try exact Hh.
  intros st Hst Hdiff Heq.
  apply (f_equal stats) in Heq. simpl in Heq. rewrite Hst in Heq.
  injection Heq as Heq. rewrite <- Heq in Hdiff. simpl in Hdiff.
  destruct Hdiff; [lia|discriminate].
Qed.

Lemma load_reentrant_throws_witness :
  ∃ w', load (args1 frag_range 0 500) retried_world = Throw unfinalized w'
        ∧ log w' = log retried_world
        ∧ retryDelay (this retried_world) = 2000
        ∧ retryDelay (this w') = 500
        ∧ this w' ≠ this retried_world.
Proof.
  assert (Hpre : preconditions_met (args1 frag_range 0 500) retried_world)
    by (repeat split; simpl; eauto).
  assert (Hh : peerAgentLoader (this retried_world) = Some 2%nat) by reflexivity.
  destruct (load_reentrant_throws _ _ _ Hpre Hh)
    as (w' & Heq & _ & _ & _ & _ & Hlog & _ & _ & _ & _ & _ & _ & _ & _ & _ & _
        & _ & _ & Hdelay & _ & Hne).
  exists w'. repeat split; try assumption; try reflexivity.
  eapply Hne; [reflexivity|]. left. simpl. lia.
Defined.

(** ** Timing of a successful transfer *)

Lemma Qpositive_spec x : Qpositive x = true ↔ (0 < x)%Q.
Proof.
  unfold Qpositive. rewrite negb_true_iff.
  split.
  - intros H. apply Qnot_le_lt. intros Hle.
    apply Qle_bool_iff in Hle. congruence.
  - intros H. destruct (Qle_bool x 0) eqn:E; [|reflexivity].
    apply Qle_bool_iff in E. exfalso. exact (Qlt_not_le _ _ H E).
Qed.

(** C4 (as amended). A success callback that is not suppressed hands the
    host a [stats] record whose [tload] is the last clock reading the
    callback takes.  The times are back-dated exactly when the combined
    duration, the sum [p2pDuration + cdnDuration] as the code computes it,
    and [p2pDownloaded] are both greater than 0.  Then, the results being
    finite, [trequest] is the number nearest to [now - duration], where
    [now] is the clock reading taken on entry, one reading before [tload],
    and [tfirst] is the number nearest to [trequest + min(duration/2, 10)]:
    [tfirst - trequest] is [min(duration/2, 10)] when the halving and that
    addition do not round, and [trequest] is [tload - duration], rounded,
    when the clock has not moved between the two readings.  Otherwise
    [trequest] and [tfirst] are what the attempt left. *)
Theorem loadSuccess_timing (w : World) (st : Stats) (f : callback)
    (data : string) (bs : BackendStats) :
  stats (this w) = Some st → aborted st = false →
  onSuccess (this w) = Some f →
  timing_finite (clock w (reads w)) bs →
  let dur := num_add (p2pDuration bs) (cdnDuration bs) in
  let now := clock w (reads w) in
  ∃ st',
    log (world_of (loadSuccess data bs w)) = log w ++ [HostSuccess f data st']
    ∧ returned (loadSuccess data bs w) = true
    ∧ (backdate bs = true ↔ (0 < dur)%Q ∧ 0 < p2pDownloaded bs)
    ∧ (backdate bs = true →
         trequest st' = num_sub now dur
         ∧ tfirst st' = TfNum (num_add (trequest st') (Qmin (num_div dur 2) 10))
         ∧ tload st' = Some (clock w (S (reads w)))
         ∧ ((num_div dur 2 == dur / 2)%Q →
            (num_add (trequest st') (Qmin (num_div dur 2) 10)
             == trequest st' + Qmin (num_div dur 2) 10)%Q →
            ∃ t1, tfirst st' = TfNum t1
                  ∧ (t1 - trequest st' == Qmin (dur / 2) 10)%Q)
         ∧ (clock w (S (reads w)) = now →
            ∃ t2, tload st' = Some t2 ∧ trequest st' = num_sub t2 dur))
    ∧ (backdate bs = false →
         trequest st' = trequest st ∧ tfirst st' = tfirst st
         ∧ tload st' = Some now)
    ∧ loaded st' = loaded st ∧ retry st' = retry st.
Proof.
  intros Hst Hab Hf _ dur now.
  assert (Hbd : backdate bs = true ↔ (0 < dur)%Q ∧ 0 < p2pDownloaded bs).
  { unfold backdate. fold dur. rewrite andb_true_iff, Qpositive_spec, Z.ltb_lt.
    reflexivity. }
  unfold loadSuccess. comp_unfold. rewrite Hst. simpl. rewrite Hab.
  fold (backdate bs). destruct (backdate bs) eqn:E; comp_go.
  - eexists. split; [reflexivity|]. split; [reflexivity|].
    split; [exact Hbd|]. split; [|split].
    + intros _. simpl. fold dur now.
      split; [reflexivity|]. split; [reflexivity|]. split; [reflexivity|]. split.
      * intros Hhalf Hexact. eexists. split; [reflexivity|].
        rewrite Hexact, Hhalf. ring.
      * intros Hclk. eexists. split; [reflexivity|]. rewrite Hclk. reflexivity.
    + intros Hn. discriminate Hn.
    + split; reflexivity.
  - eexists. split; [reflexivity|]. split; [reflexivity|].
    split; [exact Hbd|]. split; [|split].
    + intros Hn. discriminate Hn.
    + intros _. repeat split; reflexivity.
    + split; reflexivity.
Qed.

Lemma loadSuccess_timing_witness :
  ∃ st', log (world_of (loadSuccess "seg" bs_p2p attempt_world))
         = log attempt_world ++ [HostSuccess 1%nat "seg" st']
         ∧ trequest st' = 965%Q
         ∧ tfirst st' = TfNum 975%Q
         ∧ tload st' = Some (clock1 2).
Proof.
  assert (Hst : stats (this attempt_world) = Some attempt_stats)
    by (vm_compute; reflexivity).
  assert (Hf : onSuccess (this attempt_world) = Some 1%nat)
    by (vm_compute; reflexivity).
  assert (Hfin : timing_finite (clock attempt_world (reads attempt_world)) bs_p2p)
    by (repeat split; vm_compute; reflexivity).
  destruct (loadSuccess_timing attempt_world _ 1%nat "seg" bs_p2p Hst
              eq_refl Hf Hfin) as (st' & Hlog & _ & _ & Hadj & _).
  exists st'. split; [exact Hlog|].
  destruct (Hadj ltac:(vm_compute; reflexivity)) as (Ht & Hf1 & Hl & _).
  split; [rewrite Ht; vm_compute; reflexivity|].
  split; [rewrite Hf1, Ht; vm_compute; reflexivity|exact Hl].
Defined.

(** C4 as stated does not hold.  With the clock at 1000.1 and durations 0.1
    and 0.2, [tfirst - trequest] is 0.14999999999997726 and not
    [min(duration/2, 10)], whether the duration is the exact sum or the
    sum the code computes: the subtraction and the addition round.  The
    success time that [trequest] is computed from is not the one delivered
    as [tload]: with readings 1005 and 1010 and a duration of 40, [trequest]
    is 965 and [tload - duration] is 970.  And figures that are not zero do
    not back-date when the sum of the durations is negative. *)
Lemma loadSuccess_timing_not_as_stated :
  (∃ st' t1,
     log (world_of (loadSuccess "seg" bs_tenths tenths_world))
     = log tenths_world ++ [HostSuccess 1%nat "seg" st']
     ∧ tfirst st' = TfNum t1
     ∧ ¬ (t1 - trequest st'
          == Qmin ((p2pDuration bs_tenths + cdnDuration bs_tenths) / 2) 10)%Q
     ∧ ¬ (t1 - trequest st'
          == Qmin (num_div (num_add (p2pDuration bs_tenths) (cdnDuration bs_tenths)) 2)
               10)%Q)
  ∧ (∃ st' t2,
       log (world_of (loadSuccess "seg" bs_p2p attempt_world))
       = log attempt_world ++ [HostSuccess 1%nat "seg" st']
       ∧ tload st' = Some t2
       ∧ ¬ (trequest st' == t2 - (p2pDuration bs_p2p + cdnDuration bs_p2p))%Q)
  ∧ (∃ st',
       log (world_of (loadSuccess "seg" bs_negative attempt_world))
       = log attempt_world ++ [HostSuccess 1%nat "seg" st']
       ∧ ¬ (p2pDuration bs_negative + cdnDuration bs_negative == 0)%Q
       ∧ p2pDownloaded bs_negative ≠ 0
       ∧ ¬ (trequest st'
            == clock attempt_world (reads attempt_world)
               - (p2pDuration bs_negative + cdnDuration bs_negative))%Q).
Proof.
  split; [|split].
  - do 2 eexists. split; [vm_compute; reflexivity|]. split; [reflexivity|].
    split; vm_compute; intros H; discriminate H.
  - do 2 eexists. split; [vm_compute; reflexivity|]. split; [reflexivity|].
    vm_compute. intros H. discriminate H.
  - eexists. split; [vm_compute; reflexivity|].
    split; [vm_compute; intros H; discriminate H|].
    split; [vm_compute; intros H; discriminate H|].
    vm_compute. intros H. discriminate H.
Qed.

(** ** Byte counts of progress samples *)

Lemma progress_bytes_total ev : progress_bytes ev = sample_total ev.
Proof.
  unfold progress_bytes, sample_total, truthy_num.
  destruct (cdnDownloaded ev) as [c|], (ev_p2pDownloaded ev) as [p|]; simpl;
    repeat match goal with |- context [?x =? 0] => destruct (Z.eqb_spec x 0) end;
    simpl; lia.
Qed.

Lemma run_cons e evs w : run (e :: evs) w = run evs (world_of (step e w)).
Proof. reflexivity. Qed.

Lemma loadProgress_ok w st f ev :
  stats (this w) = Some st → onProgress (this w) = Some f →
  ∃ w' st', loadProgress ev w = Ok tt w'
    ∧ stats (this w') = Some st'
    ∧ loaded st' = Some (sample_total ev)
    ∧ aborted st' = aborted st
    ∧ retry st' = retry st
    ∧ onProgress (this w') = Some f
    ∧ onSuccess (this w') = onSuccess (this w)
    ∧ log w' = log w ++ [HostProgress f ev st'].
Proof.
  intros Hst Hf. unfold loadProgress. rewrite progress_bytes_total.
  destruct (tfirst st) eqn:Et; comp_go;
    do 2 eexists; (split; [reflexivity|]); simpl; repeat split; auto.
Qed.

Lemma loadSuccess_ok w st g data bs :
  stats (this w) = Some st → aborted st = false →
  onSuccess (this w) = Some g →
  ∃ st', log (world_of (loadSuccess data bs w)) = log w ++ [HostSuccess g data st']
    ∧ returned (loadSuccess data bs w) = true
    ∧ loaded st' = loaded st ∧ retry st' = retry st.
Proof.
  intros Hst Hab Hg. unfold loadSuccess. comp_go.
  destruct (Qpositive _ && _); comp_go;
    eexists; repeat split; reflexivity.
Qed.

Lemma progress_run w st l0 f g h samples :
  stats (this w) = Some st → loaded st = Some l0 → aborted st = false →
  onProgress (this w) = Some f → onSuccess (this w) = Some g →
  ∃ st1, stats (this (run (BackendProgress h <$> samples) w)) = Some st1
    ∧ loaded st1 = Some (from_option sample_total l0 (last samples))
    ∧ aborted st1 = false
    ∧ onSuccess (this (run (BackendProgress h <$> samples) w)) = Some g
    ∧ omap progress_loaded (log (run (BackendProgress h <$> samples) w))
      = omap progress_loaded (log w) ++ ((λ ev, Some (sample_total ev)) <$> samples).
Proof.
  revert w st l0. induction samples as [|ev samples IH]; intros w st l0 Hst Hl Hab Hf Hg.
  - simpl. exists st. rewrite app_nil_r. auto.
  - destruct (loadProgress_ok w st f ev Hst Hf)
      as (w' & st' & Heq & Hst' & Hl' & Hab' & _ & Hf' & Hg' & Hlog).
    rewrite fmap_cons, run_cons.
    change (step (BackendProgress h ev) w) with (loadProgress ev w).
    rewrite Heq. change (world_of (Ok () w')) with w'.
    destruct (IH w' st' (sample_total ev) Hst' Hl') as (st1 & H1 & H2 & H3 & H4 & H5);
      [congruence|assumption|congruence|].
    exists st1. split; [exact H1|]. split.
    { rewrite H2. rewrite last_cons. destruct (last samples); reflexivity. }
    split; [exact H3|]. split; [exact H4|].
    rewrite H5, Hlog, omap_app. simpl. rewrite Hl', <- app_assoc. reflexivity.
Qed.

(** C5 (as amended). From the start of an attempt, where [loaded] is 0,
    every progress callback hands the host a [stats] whose [loaded] is the
    peer-sourced plus the origin-sourced byte count of the sample being
    delivered (an absent or zero count adds nothing), and a success callback
    that follows hands over the [loaded] of the latest sample, or 0 when the
    attempt had no sample. *)
Theorem loaded_is_latest_sample (w : World) (st : Stats) (f g : callback)
    (h : handle) (samples : list ProgressEvent) (data : string)
    (bs : BackendStats) :
  stats (this w) = Some st → loaded st = Some 0 → aborted st = false →
  onProgress (this w) = Some f → onSuccess (this w) = Some g →
  let w1 := run (BackendProgress h <$> samples) w in
  omap progress_loaded (log w1)
  = omap progress_loaded (log w) ++ ((λ ev, Some (sample_total ev)) <$> samples)
  ∧ ∃ st', log (run [BackendSuccess h data bs] w1)
           = log w1 ++ [HostSuccess g data st']
           ∧ loaded st' = Some (from_option sample_total 0 (last samples)).
Proof.
  intros Hst Hl Hab Hf Hg w1.
  destruct (progress_run w st 0 f g h samples Hst Hl Hab Hf Hg)
    as (st1 & H1 & H2 & H3 & H4 & H5).
  fold w1 in H1, H4, H5. split; [exact H5|].
  destruct (loadSuccess_ok (world_of (settle h w1)) st1 g data bs H1 H3 H4)
    as (st' & Hlog & _ & Hld & _).
  exists st'. split.
  - simpl. unfold step. comp_unfold. simpl. exact Hlog.
  - rewrite Hld. exact H2.
Qed.

Lemma loaded_is_latest_sample_witness :
  ∃ st', log (run [BackendSuccess 1%nat "seg" bs0]
                (run (BackendProgress 1%nat <$> [sample100; sample350])
                   attempt_world))
         = log (run (BackendProgress 1%nat <$> [sample100; sample350])
                  attempt_world)
           ++ [HostSuccess 1%nat "seg" st']
         ∧ loaded st' = Some 350.
Proof.
  assert (Hst : stats (this attempt_world) = Some attempt_stats)
    by (vm_compute; reflexivity).
  assert (Hl : loaded attempt_stats = Some 0) by reflexivity.
  assert (Hab : aborted attempt_stats = false) by reflexivity.
  assert (Hf : onProgress (this attempt_world) = Some 4%nat)
    by (vm_compute; reflexivity).
  assert (Hg : onSuccess (this attempt_world) = Some 1%nat)
    by (vm_compute; reflexivity).
  destruct (loaded_is_latest_sample attempt_world attempt_stats 4%nat 1%nat
              1%nat [sample100; sample350] "seg" bs0 Hst Hl Hab Hf Hg)
    as (_ & st' & Hlog & Hld).
  exists st'. split; [exact Hlog|exact Hld].
Defined.

(** C5 as stated does not hold: two samples of 100 origin bytes each have
    reported 200 bytes so far, yet the second progress callback is handed
    [loaded = 100]. *)
Lemma loaded_not_cumulative :
  ∃ st, last (log (run (BackendProgress 1%nat <$> [sample100; sample100])
                     attempt_world))
        = Some (HostProgress 4%nat sample100 st)
        ∧ loaded st = Some 100
        ∧ loaded st ≠ Some (reported_so_far [sample100; sample100]).
Proof.
  vm_compute. eexists. split; [reflexivity|]. split; [reflexivity|].
  intros H. discriminate H.
Qed.

(** ** Timers *)

Lemma elem_of_drop_timer t ts tm :
  tm ∈ drop_timer t ts ↔ tm ∈ ts ∧ tm_id tm ≠ t.
Proof. unfold drop_timer. rewrite list_elem_of_filter. tauto. Qed.

Lemma elem_of_clear_timer o ts tm :
  tm ∈ clear_timer o ts ↔ tm ∈ ts ∧ o ≠ Some (tm_id tm).
Proof.
  destruct o as [i|]; simpl.
  - rewrite elem_of_drop_timer. split; intros [H1 H2]; split; auto; congruence.
  - split; [intros H; split; [exact H|discriminate]|tauto].
Qed.

Lemma clear_timer_app o ts1 ts2 :
  clear_timer o (ts1 ++ ts2) = clear_timer o ts1 ++ clear_timer o ts2.
Proof. destruct o; simpl; [apply filter_app|reflexivity]. Qed.

Lemma filter_none {A} (P : A → Prop) `{∀ x, Decision (P x)} (l : list A) :
  (∀ x, x ∈ l → ¬ P x) → filter P l = [].
Proof.
  induction l as [|x l IH]; intros Hn; [reflexivity|].
  rewrite filter_cons_False by (apply Hn; left).
  apply IH. intros y Hy. apply Hn. right. exact Hy.
Qed.

Lemma find_timer_fresh ts tm :
  (∀ x, x ∈ ts → (tm_id x < tm_id tm)%nat) →
  find_timer (tm_id tm) (ts ++ [tm]) = Some tm.
Proof.
  intros Hf. unfold find_timer. rewrite filter_app.
  rewrite (filter_none _ ts).
  - simpl. rewrite filter_cons_True by reflexivity. reflexivity.
  - intros x Hx Heq. specialize (Hf x Hx). lia.
Qed.

(** ** What [reset] touches *)

Lemma loadError_retry_eq w st e :
  stats (this w) = Some st → aborted st = false →
  retry st < maxRetry (this w) →
  loadError e w
  = Ok tt
      (reset_world false
         (with_this
            (λ o, set_stats (Some (set_retry (retry st + 1) st))
                    (set_retryDelay (Z.min (2 * retryDelay o) 64000)
                       (set_retryTimeout (Some (next_timer w)) o)))
            (with_log
               (log w ++ [ConsoleWarn (status e) (url (this w)) (retryDelay (this w));
                          SetTimeout (retry_timer w)])
               (with_timers (timers w ++ [retry_timer w]) (S (next_timer w)) w)))).
Proof.
  intros Hst Hab Hlt. apply Z.ltb_lt in Hlt.
  unfold loadError. comp_go. rewrite reset_eq.
  unfold reset_world, retry_timer. simpl. rewrite <- app_assoc. reflexivity.
Qed.

(** C7. [reset(cancelRetry)] never throws.  Afterwards [requestTimeout] and
    [peerAgentLoader] are [null] and the deadline timer is no longer
    pending; [retryTimeout] is [null] and its timer no longer pending when
    [cancelRetry] is true, and is untouched when it is false; a pending
    timer survives exactly when it is not one of those cleared; every other
    field of the instance and everything around it is unchanged.
    Consequently a failure that is retried leaves the retry timer it has
    just armed pending, with the delay stored before the failure, and when
    that timer fires it runs [loadInternal]. *)
Theorem reset_frame :
  (∀ (cancelRetry : bool) (w : World),
     ∃ w', reset cancelRetry w = Ok tt w'
       ∧ requestTimeout (this w') = None
       ∧ peerAgentLoader (this w') = None
       ∧ retryTimeout (this w')
         = (if cancelRetry then None else retryTimeout (this w))
       ∧ (∀ tm, tm ∈ timers w' ↔
                tm ∈ timers w
                ∧ requestTimeout (this w) ≠ Some (tm_id tm)
                ∧ (cancelRetry = true → retryTimeout (this w) ≠ Some (tm_id tm)))
       ∧ same_request_fields (this w) (this w')
       ∧ same_surroundings w w')
  ∧ (∀ (w : World) (st : Stats) (e : HttpError),
       stats (this w) = Some st → aborted st = false →
       retry st < maxRetry (this w) →
       fresh_timer_ids w →
       ∃ w', loadError e w = Ok tt w'
         ∧ retryTimeout (this w') = Some (next_timer w)
         ∧ retry_timer w ∈ timers w'
         ∧ fire (next_timer w) w'
           = loadInternal
               (with_timers (drop_timer (next_timer w) (timers w'))
                  (next_timer w') w')).
Proof.
  split.
  - intros b w. exists (reset_world b w). split; [apply reset_eq|].
    split; [destruct b; reflexivity|]. split; [destruct b; reflexivity|].
    split; [destruct b; reflexivity|].
    split; [|split; [destruct b; repeat split|repeat split]].
    intros tm. unfold reset_world. simpl.
    rewrite !elem_of_clear_timer. destruct b; simpl.
    + split; [intros [[H1 H2] H3]; auto|intros (H1 & H2 & H3); auto].
    + split; [intros [[H1 H2] H3]; repeat split; auto; discriminate
             |intros (H1 & H2 & H3); repeat split; auto; discriminate].
  - intros w st e Hst Hab Hlt [Hfr Hrq].
    eexists. split; [apply (loadError_retry_eq w st e Hst Hab Hlt)|].
    simpl. rewrite clear_timer_app.
    assert (Hkeep : clear_timer (requestTimeout (this w)) [retry_timer w]
                    = [retry_timer w]).
    { destruct (requestTimeout (this w)) as [i|] eqn:Ei; [|reflexivity].
      simpl. unfold drop_timer. rewrite filter_cons_True; [reflexivity|].
      simpl. specialize (Hrq i eq_refl). lia. }
    rewrite Hkeep.
    split; [reflexivity|]. split; [apply elem_of_app; right; left|].
    unfold fire. simpl. rewrite clear_timer_app, Hkeep.
    change (next_timer w) with (tm_id (retry_timer w)) at 1.
    rewrite find_timer_fresh; [reflexivity|].
    intros x Hx. apply elem_of_clear_timer in Hx as [Hx _].
    simpl. exact (Hfr x Hx).
Qed.

Lemma attempt_world_fresh : fresh_timer_ids attempt_world.
Proof.
  assert (Ht : timers attempt_world
               = [{| tm_id := 1%nat; tm_task := RunLoadTimeout; tm_delay := 20000 |}])
    by (vm_compute; reflexivity).
  split.
  - intros tm Hin. rewrite Ht in Hin.
    apply list_elem_of_singleton in Hin. subst tm. vm_compute. lia.
  - intros t Hrq. vm_compute in Hrq. injection Hrq as <-. vm_compute. lia.
Defined.

Lemma reset_frame_witness :
  ∃ w', loadError e500 attempt_world = Ok tt w'
        ∧ retryTimeout (this w') = Some 2%nat
        ∧ retry_timer attempt_world ∈ timers w'.
Proof.
  assert (Hst : stats (this attempt_world) = Some attempt_stats)
    by (vm_compute; reflexivity).
  assert (Hlt : retry attempt_stats < maxRetry (this attempt_world))
    by (vm_compute; reflexivity).
  destruct (proj2 reset_frame attempt_world attempt_stats e500 Hst eq_refl Hlt
              attempt_world_fresh) as (w' & Heq & Hrt & Hin & _).
  exists w'. split; [exact Heq|]. split; [exact Hrt|exact Hin].
Defined.

(** ** Retry bookkeeping *)

Lemma retry_delays_app l1 l2 :
  retry_delays (l1 ++ l2) = retry_delays l1 ++ retry_delays l2.
Proof. apply omap_app. Qed.

Lemma keeps_bind {A B} (I : World → Prop) (c : comp A) (k : A → comp B) :
  keeps I c → (∀ a, keeps I (k a)) → keeps I (c ≫= k).
Proof.
  intros Hc Hk w Hw. unfold mbind, comp_bind.
  specialize (Hc w Hw). destruct (c w) as [a w'|e w']; simpl in *.
  - apply Hk. exact Hc.
  - exact Hc.
Qed.

Lemma keeps_ret {A} (I : World → Prop) (a : A) : keeps I (mret a).
Proof. intros w Hw. exact Hw. Qed.

Lemma keeps_throw {A} (I : World → Prop) e : keeps I (throw e : comp A).
Proof. intros w Hw. exact Hw. Qed.

(** Walks through a method: binds are split, branches are taken apart, and
    each primitive is left to [tac]. *)
Ltac keeps_walk tac :=
  repeat first
    [ apply keeps_ret
    | apply keeps_throw
    | apply keeps_bind; [|intros ?; cbv beta]
    | match goal with
      | |- keeps _ (if ?b then _ else _) => destruct b
      | |- keeps _ (match ?x with _ => _ end) => destruct x
      end
    | progress tac ].

Ltac view_solve :=
  unfold retry_view; simpl; rewrite ?retry_delays_app; simpl;
  rewrite ?app_nil_r;
  repeat match goal with
         | H : stats (this _) = _ |- _ => rewrite H
         end;
  simpl; try reflexivity.

Ltac view_prim :=
  idtac;
  match goal with
  | |- keeps (λ w, retry_view w = ?x) ?c =>
      let w := fresh "w" in
      let Hw := fresh "Hw" in
      intros w Hw; rewrite <- Hw; clear Hw;
      comp_unfold; simpl; repeat case_match; simpl; view_solve
  end.

Lemma retry_view_reset x b : keeps (λ w, retry_view w = x) (reset b).
Proof. intros w Hw. rewrite reset_eq. destruct b; exact Hw. Qed.

Lemma retry_view_loadProgress x ev :
  keeps (λ w, retry_view w = x) (loadProgress ev).
Proof. unfold loadProgress. keeps_walk view_prim. Qed.

Lemma retry_view_loadSuccess x data bs :
  keeps (λ w, retry_view w = x) (loadSuccess data bs).
Proof.
  unfold loadSuccess. keeps_walk ltac:(idtac; first [apply retry_view_reset|view_prim]).
Qed.

Lemma retry_view_loadTimeout x : keeps (λ w, retry_view w = x) loadTimeout.
Proof. unfold loadTimeout. keeps_walk view_prim. Qed.

Lemma retry_view_loadInternal x : keeps (λ w, retry_view w = x) loadInternal.
Proof. unfold loadInternal. keeps_walk view_prim. Qed.

Lemma retry_view_fire x t : keeps (λ w, retry_view w = x) (fire t).
Proof.
  intros w Hw. unfold fire.
  destruct (find_timer t (timers w)) as [tm|]; [|exact Hw].
  destruct (tm_task tm); simpl.
  - apply retry_view_loadTimeout. exact Hw.
  - apply retry_view_loadInternal. exact Hw.
Qed.

Lemma retry_view_loadError_retry w st e :
  stats (this w) = Some st → aborted st = false →
  retry st < maxRetry (this w) →
  retry_view (world_of (loadError e w))
  = (backoff (retryDelay (this w)), maxRetry (this w),
     Some (retry st + 1, false), retry_delays (log w) ++ [retryDelay (this w)]).
Proof.
  intros Hst Hab Hlt. rewrite (loadError_retry_eq w st e Hst Hab Hlt).
  unfold retry_view. simpl.
  rewrite retry_delays_app. simpl. rewrite Hab. reflexivity.
Qed.

Lemma backoff_iter (n : nat) (d : Z) :
  (0 < n)%nat → Nat.iter n backoff d = Z.min (2 ^ Z.of_nat n * d) 64000.
Proof.
  induction n as [|n IH]; [lia|]. intros _.
  destruct n as [|n].
  - simpl. unfold backoff. f_equal.
  - rewrite Nat.iter_succ, IH by lia.
    replace (Z.of_nat (S (S n))) with (Z.of_nat (S n) + 1) by lia.
    rewrite Z.pow_add_r by lia.
    unfold backoff. set (p := 2 ^ Z.of_nat (S n)). lia.
Qed.

Lemma step_keeps_retry_view x e :
  from_backend_or_timer e → failures [e] = 0%nat →
  keeps (λ w, retry_view w = x) (step e).
Proof.
  intros Hb Hf. destruct e; simpl in *; try contradiction; try discriminate.
  - apply keeps_bind; [intros w Hw; exact Hw|intros _].
    apply retry_view_loadSuccess.
  - apply retry_view_loadProgress.
  - apply retry_view_fire.
Qed.

Lemma retry_run evs : ∀ w d m r ds,
  Forall from_backend_or_timer evs →
  retry_view w = (d, m, Some (r, false), ds) →
  r + Z.of_nat (failures evs) ≤ m →
  retry_view (run evs w)
  = (Nat.iter (failures evs) backoff d, m,
     Some (r + Z.of_nat (failures evs), false),
     ds ++ ((λ k, Nat.iter k backoff d) <$> seq 0 (failures evs))).
Proof.
  induction evs as [|e evs IH]; intros w d m r ds Hall Hv Hle.
  - simpl. rewrite Hv, app_nil_r, Z.add_0_r. reflexivity.
  - apply Forall_cons in Hall as [He Hall]. rewrite run_cons.
    destruct (decide (failures [e] = 0%nat)) as [Hz|Hnz].
    + assert (Hsame : failures (e :: evs) = failures evs)
        by (destruct e; simpl in *; congruence).
      rewrite Hsame in *. apply IH; [exact Hall| |exact Hle].
      apply (step_keeps_retry_view _ e He Hz). exact Hv.
    + destruct e as [| | | |h err| |]; simpl in Hnz; try congruence.
      change (failures (BackendError h err :: evs)) with (S (failures evs)) in *.
      unfold retry_view in Hv.
      destruct (stats (this w)) as [st|] eqn:Hst; simpl in Hv; [|congruence].
      assert (retryDelay (this w) = d ∧ maxRetry (this w) = m ∧ retry st = r
              ∧ aborted st = false ∧ retry_delays (log w) = ds)
        as (Hd & Hm & Hr & Hab & Hds) by (repeat split; congruence).
      assert (Hview : retry_view (world_of (step (BackendError h err) w))
                      = (backoff d, m, Some (r + 1, false), ds ++ [d])).
      { unfold step. comp_unfold. simpl.
        rewrite (retry_view_loadError_retry _ st); simpl;
          [subst; reflexivity|exact Hst|exact Hab|lia]. }
      rewrite (IH _ _ _ _ _ Hall Hview) by lia.
      rewrite Nat.iter_succ_r.
      replace (r + Z.of_nat (S (failures evs)))
        with (r + 1 + Z.of_nat (failures evs)) by lia.
      f_equal. rewrite <- app_assoc. f_equal. simpl. f_equal.
      rewrite <- fmap_S_seq, <- list_fmap_compose. apply list_fmap_ext.
      intros _ k _. symmetry. apply (Nat.iter_succ_r k backoff d).
Qed.

Lemma nth_retry_delay_iter d k : nth_retry_delay d (S k) = Nat.iter k backoff d.
Proof.
  destruct k as [|k]; [reflexivity|].
  rewrite backoff_iter by lia. reflexivity.
Qed.

Lemma retry_view_load a w :
  preconditions_met a w →
  retry_view (world_of (load a w))
  = (a_retryDelay a, a_maxRetry a, Some (0, false), retry_delays (log w)).
Proof.
  intros Hpre. destruct (Hpre) as (_ & [fr Hf] & _).
  rewrite (load_eq a w fr Hpre Hf).
  apply (retry_view_loadInternal _ (stored a fr w)). reflexivity.
Qed.

(** C3 (as amended). After a [load] with initial retry delay [d], any run
    of peer-agent callbacks and timer firings that contains [n] failures,
    [1 <= n <= maxRetry], ends with the stored delay [min(2^n * d, 64000)]
    and [stats.retry = n]; the retry timers armed in it carry, in order, the
    delay stored before each failure: [d] itself for the first and
    [min(2^(k-1) * d, 64000)] for the [k]-th, [k >= 2].  When [d <= 64000]
    the first is [min(2^0 * d, 64000)] as well. *)
Theorem backoff_after_failures (a : LoadArgs) (w : World) (evs : list Event) :
  preconditions_met a w →
  Forall from_backend_or_timer evs →
  (1 ≤ failures evs)%nat →
  Z.of_nat (failures evs) ≤ a_maxRetry a →
  let n := failures evs in
  let d := a_retryDelay a in
  let w1 := world_of (load a w) in
  let w2 := run evs w1 in
  retryDelay (this w2) = Z.min (2 ^ Z.of_nat n * d) 64000
  ∧ retry <$> stats (this w2) = Some (Z.of_nat n)
  ∧ retry_delays (log w2)
    = retry_delays (log w1) ++ (nth_retry_delay d <$> seq 1 n)
  ∧ (d ≤ 64000 →
     nth_retry_delay d <$> seq 1 n
     = (λ k, Z.min (2 ^ (Z.of_nat k - 1) * d) 64000) <$> seq 1 n).
Proof.
  intros Hpre Hall Hn Hle n d w1 w2.
  pose proof (retry_view_load a w Hpre) as Hv1. fold w1 in Hv1.
  assert (Hlog1 : retry_delays (log w1) = retry_delays (log w)).
  { unfold retry_view in Hv1. congruence. }
  pose proof (retry_run evs w1 _ _ _ _ Hall Hv1) as Hv2.
  fold n w2 in Hv2. specialize (Hv2 ltac:(lia)).
  unfold retry_view in Hv2.
  destruct (stats (this w2)) as [st2|]; simpl in Hv2; [|congruence].
  assert (retryDelay (this w2) = Nat.iter n backoff d
          ∧ retry st2 = 0 + Z.of_nat n
          ∧ retry_delays (log w2)
            = retry_delays (log w) ++ ((λ k, Nat.iter k backoff d) <$> seq 0 n))
    as (Hd & Hr & Hds) by (injection Hv2; intros; repeat split; assumption).
  split; [rewrite Hd; apply backoff_iter; lia|].
  split; [simpl; f_equal; lia|].
  split.
  - rewrite Hds, Hlog1. f_equal.
    rewrite <- fmap_S_seq, <- list_fmap_compose. apply list_fmap_ext.
    intros _ k _. simpl. symmetry. apply nth_retry_delay_iter.
  - intros Hcap. apply list_fmap_ext. intros i k Hk.
    apply lookup_seq in Hk as [-> _].
    destruct i as [|i].
    + change (nth_retry_delay d (1 + 0)) with d.
      replace (Z.of_nat (1 + 0) - 1) with 0 by lia. lia.
    + change (nth_retry_delay d (1 + S i))
        with (Z.min (2 ^ Z.of_nat (S i) * d) 64000).
      do 3 f_equal. lia.
Qed.

Lemma backoff_after_failures_witness :
  retryDelay
    (this (run [BackendError 1%nat e500; TimerFire 2%nat; BackendError 2%nat e500]
             (world_of (load (args1 frag_plain 3 1000) fresh1))))
  = 4000
  ∧ retry_delays
      (log (run [BackendError 1%nat e500; TimerFire 2%nat; BackendError 2%nat e500]
              (world_of (load (args1 frag_plain 3 1000) fresh1))))
    = [1000; 2000].
Proof.
  assert (Hpre : preconditions_met (args1 frag_plain 3 1000) fresh1)
    by (repeat split; simpl; eauto).
  assert (Hall : Forall from_backend_or_timer
                   [BackendError 1%nat e500; TimerFire 2%nat; BackendError 2%nat e500])
    by (repeat constructor).
  assert (H1 : (1 ≤ failures [BackendError 1%nat e500; TimerFire 2%nat;
                              BackendError 2%nat e500])%nat) by (simpl; lia).
  assert (H2 : Z.of_nat (failures [BackendError 1%nat e500; TimerFire 2%nat;
                                   BackendError 2%nat e500])
               ≤ a_maxRetry (args1 frag_plain 3 1000)) by (simpl; lia).
  destruct (backoff_after_failures _ _ _ Hpre Hall H1 H2) as (Hd & _ & Hl & _).
  split; [exact Hd|exact Hl].
Defined.

(** C3 as stated does not hold for an initial delay above the cap: with
    [retryDelay = 100000] the delay stored before any failure is 100000,
    and the timer of the first retry is armed with it, not with
    [min(2^0 * 100000, 64000) = 64000]. *)
Lemma first_retry_delay_uncapped :
  retryDelay (this (world_of (load (args1 frag_plain 1 100000) fresh1)))
  ≠ Z.min (2 ^ 0 * 100000) 64000
  ∧ retry_delays
      (log (run [BackendError 1%nat e500]
              (world_of (load (args1 frag_plain 1 100000) fresh1))))
    ≠ [Z.min (2 ^ (1 - 1) * 100000) 64000].
Proof. vm_compute. split; intros H; discriminate H. Qed.

(** ** Starting an attempt *)

Lemma loadInternal_ok w st fr lvl :
  peerAgentLoader (this w) = None → frag (this w) = Some fr →
  levels (hlsjsWrapper w) !! level fr = Some lvl →
  stats (this w) = Some st →
  peerAgentModule (hlsjsWrapper w) = true →
  loadInternal w = Ok tt (started w st fr lvl).
Proof.
  intros Hh Hfr Hl Hst Hm. unfold loadInternal, started, attempt_request,
    attempt_headers.
  destruct (truthy_string (byteRange (this w))) eqn:Hb; comp_go;
    rewrite <- app_assoc; reflexivity.
Qed.

(** ** The byte-range header *)

Lemma append_nonempty (s1 s2 : string) : s2 ≠ "" → s1 +:+ s2 ≠ "".
Proof. destruct s1; simpl; [auto|discriminate]. Qed.

Lemma truthy_new_byteRange (s e : Z) :
  truthy_string (Some (pretty s +:+ "-" +:+ pretty e)) = true.
Proof.
  simpl. destruct (pretty s +:+ "-" +:+ pretty e) eqn:E; [|reflexivity].
  exfalso. revert E. apply append_nonempty. discriminate.
Qed.

(** On an instance whose [byteRange] has never been set, the request a
    [load] issues carries a [Range] header exactly when both offsets of the
    fragment are numbers, and the header is [bytes=start-(end-1)]. *)
Lemma range_header_first_load a w fr lvl :
  preconditions_met a w → a_frag a = Some fr →
  byteRange (this w) = None → peerAgentLoader (this w) = None →
  levels (hlsjsWrapper w) !! level fr = Some lvl →
  ∃ t req sv,
    log (world_of (load a w))
    = log w ++ [SetTimeout t; GetSegment (next_handle w) req sv]
    ∧ req_headers req
      = match byteRangeStartOffset fr, byteRangeEndOffset fr with
        | Some s, Some e =>
            <["Range" := "bytes=" +:+ pretty s +:+ "-" +:+ pretty (e - 1)]>
              (headers (extractInfoFromXhrSetup (xhrSetup (this w)) (a_url a)))
        | _, _ => headers (extractInfoFromXhrSetup (xhrSetup (this w)) (a_url a))
        end.
Proof.
  intros Hpre Hf Hb Hh Hl. rewrite (load_eq a w fr Hpre Hf).
  destruct Hpre as (_ & _ & Hm).
  rewrite (loadInternal_ok _ (fresh_stats w) fr lvl) by (simpl; auto).
  do 3 eexists. split; [reflexivity|].
  simpl. unfold attempt_headers, new_byteRange. simpl. rewrite Hb.
  destruct (byteRangeStartOffset fr) as [s|] eqn:Es;
    destruct (byteRangeEndOffset fr) as [e|] eqn:Ee;
    rewrite ?truthy_new_byteRange; try reflexivity.
  unfold range_header. rewrite Es, Ee. reflexivity.
Qed.

Example range_100_200 :
  ∃ req, last (requests (log (run [CallLoad (args1 frag_range 1 1000)] fresh1)))
         = Some req
         ∧ req_headers req !! "Range" = Some "bytes=100-199".
Proof. vm_compute. eexists. split; reflexivity. Qed.

(** C8 fails on an instance that is used again.  [byteRange] is assigned
    when both offsets are numbers and never cleared, so after a fragment
    with a byte range has been loaded, a [load] for a fragment without
    offsets still attaches a [Range] header, built from the missing
    offsets. *)
Lemma range_header_stale_on_reuse :
  byteRangeStartOffset frag_plain = None
  ∧ byteRangeEndOffset frag_plain = None
  ∧ ∃ req,
      last (requests
              (log (run [CallLoad (args1 frag_range 1 1000);
                         BackendSuccess 1%nat "seg" bs0;
                         CallLoad (args1 frag_plain 1 1000)] fresh1)))
      = Some req
      ∧ req_headers req !! "Range" = Some "bytes=undefined-NaN".
Proof. vm_compute. split; [reflexivity|]. split; [reflexivity|].
  eexists. split; reflexivity. Qed.

(** ** Timers and transfers in step *)

Lemma control_eq w w' :
  control w' = control w →
  requestTimeout (this w') = requestTimeout (this w)
  ∧ retryTimeout (this w') = retryTimeout (this w)
  ∧ peerAgentLoader (this w') = peerAgentLoader (this w)
  ∧ timers w' = timers w ∧ next_timer w' = next_timer w
  ∧ inflight w' = inflight w ∧ cancelled w' = cancelled w
  ∧ next_handle w' = next_handle w ∧ hlsjsWrapper w' = hlsjsWrapper w.
Proof. unfold control. intros H. injection H. intros. repeat split; assumption. Qed.

Lemma consistent_control w w' :
  control w' = control w → consistent w → consistent w'.
Proof.
  intros Hc [H1 H2 H3 H4 H5 H6].
  apply control_eq in Hc as (E1 & E2 & E3 & E4 & E5 & E6 & E7 & E8 & E9).
  split; unfold timers_shape, live in *;
    rewrite ?E1, ?E2, ?E3, ?E4, ?E5, ?E6, ?E7, ?E8, ?E9; assumption.
Qed.

Lemma consistent_at_rest w :
  at_rest w →
  (∀ t, requestTimeout (this w) = Some t → (t < next_timer w)%nat) →
  (∀ h, h ∈ cancelled w → (h < next_handle w)%nat) →
  consistent w.
Proof.
  intros (Ht & Hh & Hl) Hf Hc. split; auto.
  - left. exact Ht.
  - intros h Hlive. destruct (Hl h Hlive).
  - rewrite Hh. discriminate.
  - rewrite Ht, Hh. intros [H|[x H]]; congruence.
Qed.

(** A full reset of a consistent world leaves no timer. *)
Lemma reset_clears_timers w :
  timers_shape w → timers (reset_world true w) = [].
Proof.
  intros [Ht|[(tm & Ht & _ & Hid & _)|(tm & Ht & _ & Hid & _)]];
    simpl; rewrite Ht; [destruct (retryTimeout _), (requestTimeout _); reflexivity| |].
  - rewrite Hid. simpl. unfold drop_timer.
    rewrite filter_cons_False by (simpl; auto). destruct (retryTimeout _); reflexivity.
  - rewrite Hid.
    assert (Hsub : ∀ tm', tm' ∈ clear_timer (requestTimeout (this w)) [tm] → tm' = tm).
    { intros tm' Hin. apply elem_of_clear_timer in Hin as [Hin _].
      apply list_elem_of_singleton in Hin. exact Hin. }
    destruct (clear_timer (requestTimeout (this w)) [tm]) as [|x l] eqn:E;
      [reflexivity|].
    assert (x = tm) by (apply Hsub; left). subst x.
    assert (l = []) as ->.
    { destruct l as [|y l]; [reflexivity|]. exfalso.
      assert (Hlen : (length (clear_timer (requestTimeout (this w)) [tm]) ≤ 1)%nat).
      { destruct (requestTimeout (this w)); simpl; [apply length_filter|lia]. }
      rewrite E in Hlen. simpl in Hlen. lia. }
    simpl. unfold drop_timer. rewrite filter_cons_False by (simpl; auto).
    reflexivity.
Qed.

Ltac frame_prim unfold_view :=
  idtac;
  match goal with
  | |- keeps _ _ =>
      let w := fresh "w" in
      let Hw := fresh "Hw" in
      intros w Hw; rewrite <- Hw; clear Hw;
      comp_unfold; simpl; repeat case_match; simpl;
      unfold_view; simpl;
      repeat match goal with
             | H : stats (this _) = _ |- _ => rewrite H
             end;
      simpl; try reflexivity
  end.

Ltac control_prim := frame_prim ltac:(idtac; unfold control).
Ltac session_prim := frame_prim ltac:(idtac; unfold session).

Lemma session_reset x b : keeps (λ w, session w = x) (reset b).
Proof. intros w Hw. rewrite reset_eq. destruct b; exact Hw. Qed.

Lemma session_loadProgress x ev : keeps (λ w, session w = x) (loadProgress ev).
Proof. unfold loadProgress. keeps_walk session_prim. Qed.

Lemma session_loadSuccess x d bs : keeps (λ w, session w = x) (loadSuccess d bs).
Proof.
  unfold loadSuccess.
  keeps_walk ltac:(idtac; first [apply session_reset|session_prim]).
Qed.

Lemma session_loadError x e : keeps (λ w, session w = x) (loadError e).
Proof.
  unfold loadError.
  keeps_walk ltac:(idtac; first [apply session_reset|session_prim]).
Qed.

Lemma session_loadTimeout x : keeps (λ w, session w = x) loadTimeout.
Proof. unfold loadTimeout. keeps_walk session_prim. Qed.

Lemma session_loadInternal x : keeps (λ w, session w = x) loadInternal.
Proof. unfold loadInternal. keeps_walk session_prim. Qed.

Lemma session_fire x t : keeps (λ w, session w = x) (fire t).
Proof.
  intros w Hw. unfold fire.
  destruct (find_timer t (timers w)) as [tm|]; [|exact Hw].
  destruct (tm_task tm); simpl.
  - apply session_loadTimeout. exact Hw.
  - apply session_loadInternal. exact Hw.
Qed.

Lemma session_step x e :
  from_backend_or_timer e → keeps (λ w, session w = x) (step e).
Proof.
  intros Hb. destruct e; simpl in *; try contradiction.
  - apply keeps_bind; [intros w Hw; exact Hw|intros _].
    apply session_loadSuccess.
  - apply keeps_bind; [intros w Hw; exact Hw|intros _].
    apply session_loadError.
  - apply session_loadProgress.
  - apply session_fire.
Qed.

Lemma control_loadProgress x ev : keeps (λ w, control w = x) (loadProgress ev).
Proof. unfold loadProgress. keeps_walk control_prim. Qed.

Lemma control_loadTimeout x : keeps (λ w, control w = x) loadTimeout.
Proof. unfold loadTimeout. keeps_walk control_prim. Qed.

Lemma host_terminals_app l1 l2 :
  host_terminals (l1 ++ l2) = host_terminals l1 ++ host_terminals l2.
Proof.
  induction l1 as [|e l1 IH]; simpl; [reflexivity|].
  destruct (is_host_terminal e); simpl; rewrite IH; reflexivity.
Qed.

Ltac terminals_prim :=
  frame_prim ltac:(idtac; unfold terminals; simpl;
                   rewrite ?host_terminals_app; simpl; rewrite ?app_nil_r).

Lemma terminals_reset x b : keeps (λ w, terminals w = x) (reset b).
Proof. intros w Hw. rewrite reset_eq. destruct b; exact Hw. Qed.

Lemma terminals_loadProgress x ev :
  keeps (λ w, terminals w = x) (loadProgress ev).
Proof. unfold loadProgress. keeps_walk terminals_prim. Qed.

Lemma terminals_loadTimeout x : keeps (λ w, terminals w = x) loadTimeout.
Proof. unfold loadTimeout. keeps_walk terminals_prim. Qed.

Lemma terminals_loadInternal x : keeps (λ w, terminals w = x) loadInternal.
Proof. unfold loadInternal. keeps_walk terminals_prim. Qed.

Lemma terminals_fire x t : keeps (λ w, terminals w = x) (fire t).
Proof.
  intros w Hw. unfold fire.
  destruct (find_timer t (timers w)) as [tm|]; [|exact Hw].
  destruct (tm_task tm); simpl.
  - apply terminals_loadTimeout. exact Hw.
  - apply terminals_loadInternal. exact Hw.
Qed.

Lemma terminals_abort x : keeps (λ w, terminals w = x) abort.
Proof.
  unfold abort.
  keeps_walk ltac:(idtac; first [apply terminals_reset|terminals_prim]).
Qed.

(** ** Callbacks after [abort] *)

Lemma flagged_stats w : flagged w → ∃ st, stats (this w) = Some st ∧ aborted st = true.
Proof.
  unfold flagged. destruct (stats (this w)) as [st|]; simpl; [|discriminate].
  intros H. exists st. split; [reflexivity|congruence].
Qed.

Lemma loadSuccess_flagged d bs w : flagged w → loadSuccess d bs w = Ok tt w.
Proof.
  intros (st & Hst & Hab)%flagged_stats. unfold loadSuccess. comp_go. reflexivity.
Qed.

Lemma loadError_flagged e w : flagged w → loadError e w = Ok tt w.
Proof.
  intros (st & Hst & Hab)%flagged_stats. unfold loadError. comp_go. reflexivity.
Qed.

Ltac flagged_prim :=
  idtac;
  match goal with
  | |- keeps flagged _ =>
      let w := fresh "w" in
      let Hw := fresh "Hw" in
      intros w Hw; unfold flagged in *; comp_unfold; simpl;
      repeat case_match; simpl;
      repeat match goal with
             | H : stats (this _) = _ |- _ => rewrite H in *
             end;
      simpl in *; try assumption; try reflexivity
  end.

Lemma flagged_reset b : keeps flagged (reset b).
Proof. intros w Hw. rewrite reset_eq. destruct b; exact Hw. Qed.

Lemma flagged_loadProgress ev : keeps flagged (loadProgress ev).
Proof. unfold loadProgress. keeps_walk flagged_prim. Qed.

Lemma flagged_loadTimeout : keeps flagged loadTimeout.
Proof. unfold loadTimeout. keeps_walk flagged_prim. Qed.

Lemma flagged_loadInternal : keeps flagged loadInternal.
Proof. unfold loadInternal. keeps_walk flagged_prim. Qed.

Lemma flagged_abort : keeps flagged abort.
Proof.
  unfold abort. keeps_walk ltac:(idtac; first [apply flagged_reset|flagged_prim]).
Qed.

Lemma flagged_step e : not_load e → keeps flagged (step e).
Proof.
  intros Hn w Hw. destruct e; simpl in *; try contradiction.
  - apply flagged_abort. exact Hw.
  - apply flagged_abort. exact Hw.
  - unfold mbind, comp_bind, settle. rewrite loadSuccess_flagged; exact Hw.
  - unfold mbind, comp_bind, settle. rewrite loadError_flagged; exact Hw.
  - apply flagged_loadProgress. exact Hw.
  - unfold fire. destruct (find_timer t (timers w)) as [tm|]; [|exact Hw].
    destruct (tm_task tm); simpl.
    + apply flagged_loadTimeout. exact Hw.
    + apply flagged_loadInternal. exact Hw.
Qed.

Lemma terminals_step_flagged e w :
  not_load e → flagged w → terminals (world_of (step e w)) = terminals w.
Proof.
  intros Hn Hw. destruct e; simpl in *; try contradiction.
  - apply (terminals_abort _ w). reflexivity.
  - apply (terminals_abort _ w). reflexivity.
  - unfold mbind, comp_bind, settle. rewrite loadSuccess_flagged; [reflexivity|exact Hw].
  - unfold mbind, comp_bind, settle. rewrite loadError_flagged; [reflexivity|exact Hw].
  - apply (terminals_loadProgress _ ev w). reflexivity.
  - apply (terminals_fire _ t w). reflexivity.
Qed.

Lemma flagged_run evs w :
  Forall not_load evs → flagged w →
  flagged (run evs w) ∧ terminals (run evs w) = terminals w.
Proof.
  revert w. induction evs as [|e evs IH]; intros w Hall Hw; [split; auto|].
  apply Forall_cons in Hall as [He Hall]. rewrite run_cons.
  destruct (IH (world_of (step e w)) Hall (flagged_step e He w Hw)) as [H1 H2].
  split; [exact H1|]. rewrite H2. apply terminals_step_flagged; assumption.
Qed.

Lemma abort_live_eq w h st :
  peerAgentLoader (this w) = Some h → stats (this w) = Some st →
  abort w
  = Ok tt
      (reset_world true
         (with_log (log w ++ [HandleAbort h])
            (with_transfers (inflight w) (cancelled w ++ [h]) (next_handle w)
               (with_this (set_stats (Some (set_aborted true st))) w)))).
Proof.
  intros Hh Hst. unfold abort. comp_go. rewrite reset_eq. reflexivity.
Qed.

Lemma abort_idle_eq w :
  peerAgentLoader (this w) = None → abort w = Ok tt (reset_world true w).
Proof. intros Hh. unfold abort. comp_go. rewrite reset_eq. reflexivity. Qed.

(** ** The discipline under which timers and transfers stay in step *)

Lemma reset_true_consistent w :
  timers_shape w →
  (∀ h, h ∈ cancelled w → (h < next_handle w)%nat) →
  (∀ h, ¬ live h w) →
  consistent (reset_world true w).
Proof.
  intros Hs Hc Hl. apply consistent_at_rest.
  - split; [apply reset_clears_timers; exact Hs|]. split; [reflexivity|exact Hl].
  - simpl. discriminate.
  - exact Hc.
Qed.

Lemma started_consistent w st fr lvl :
  consistent w → timers w = [] → peerAgentLoader (this w) = None →
  peerAgentModule (hlsjsWrapper w) = true →
  consistent (started w st fr lvl).
Proof.
  intros [H1 H2 H3 H4 H5 H6] Ht Hh Hm. split; simpl.
  - unfold timers_shape. simpl. right. left. exists (deadline_timer w).
    rewrite Ht. simpl. eauto.
  - intros t [= <-]. lia.
  - intros h [Hin Hnc]. simpl in *. apply elem_of_app in Hin as [Hin|Hin].
    + specialize (H3 h (conj Hin Hnc)). congruence.
    + apply list_elem_of_singleton in Hin. congruence.
  - intros h Hin. specialize (H4 h Hin). lia.
  - intros h [= <-]. lia.
  - intros _. exact Hm.
Qed.

Lemma loadInternal_cases w :
  (∃ e, loadInternal w = Throw e w)
  ∨ (∃ st fr lvl, peerAgentLoader (this w) = None
                  ∧ peerAgentModule (hlsjsWrapper w) = true
                  ∧ frag (this w) = Some fr
                  ∧ levels (hlsjsWrapper w) !! level fr = Some lvl
                  ∧ stats (this w) = Some st
                  ∧ loadInternal w = Ok tt (started w st fr lvl))
  ∨ (peerAgentLoader (this w) = None
     ∧ peerAgentModule (hlsjsWrapper w) = false
     ∧ returned (loadInternal w) = false
     ∧ peerAgentLoader (this (world_of (loadInternal w))) = None).
Proof.
  destruct (peerAgentLoader (this w)) as [h|] eqn:Hh.
  { left. rewrite (loadInternal_live w h Hh). eauto. }
  destruct (frag (this w)) as [fr|] eqn:Hfr.
  2:{ left. unfold loadInternal. destruct (truthy_string (byteRange (this w))) eqn:Hb;
        comp_go; eauto. }
  destruct (levels (hlsjsWrapper w) !! level fr) as [lvl|] eqn:Hl.
  2:{ left. unfold loadInternal. destruct (truthy_string (byteRange (this w))) eqn:Hb;
        comp_go; eauto. }
  destruct (stats (this w)) as [st|] eqn:Hst.
  2:{ left. unfold loadInternal. destruct (truthy_string (byteRange (this w))) eqn:Hb;
        comp_go; eauto. }
  destruct (peerAgentModule (hlsjsWrapper w)) eqn:Hm.
  - right. left. exists st, fr, lvl. repeat split; auto.
    apply loadInternal_ok; assumption.
  - right. right. split; [reflexivity|]. split; [reflexivity|].
    unfold loadInternal. destruct (truthy_string (byteRange (this w))) eqn:Hb;
      comp_go; auto.
Qed.

Lemma loadInternal_consistent w :
  consistent w →
  (peerAgentLoader (this w) = None →
   timers w = [] ∧ peerAgentModule (hlsjsWrapper w) = true) →
  consistent (world_of (loadInternal w)).
Proof.
  intros Hc Hidle.
  destruct (loadInternal_cases w)
    as [[e Heq]|[(st & fr & lvl & Hh & Hm & _ & _ & _ & Heq)|(Hh & Hm & _ & _)]].
  - rewrite Heq. exact Hc.
  - rewrite Heq. simpl. destruct (Hidle Hh) as [Ht _].
    apply started_consistent; assumption.
  - destruct (Hidle Hh) as [_ Hm']. congruence.
Qed.

Lemma loadSuccess_control d bs w :
  (control (world_of (loadSuccess d bs w)) = control w
   ∧ terminals (world_of (loadSuccess d bs w)) = terminals w)
  ∨ (∃ st g st', stats (this w) = Some st ∧ aborted st = false
        ∧ onSuccess (this w) = Some g
        ∧ control (world_of (loadSuccess d bs w)) = control (reset_world true w)
        ∧ log (world_of (loadSuccess d bs w)) = log w ++ [HostSuccess g d st']).
Proof.
  unfold loadSuccess.
  destruct (stats (this w)) as [st|] eqn:Hst; [|left; comp_go; auto].
  destruct (aborted st) eqn:Hab; [left; comp_go; auto|].
  destruct (onSuccess (this w)) as [g|] eqn:Hg.
  - right. exists st, g.
    destruct (Qpositive _ && _);
      comp_go; rewrite ?reset_eq; eexists; repeat split; reflexivity.
  - left.
    destruct (Qpositive _ && _);
      comp_go; split; reflexivity.
Qed.

Lemma loadError_control e w :
  (control (world_of (loadError e w)) = control w
   ∧ terminals (world_of (loadError e w)) = terminals w)
  ∨ (∃ st f, stats (this w) = Some st ∧ aborted st = false
        ∧ ¬ retry st < maxRetry (this w)
        ∧ onError (this w) = Some f
        ∧ control (world_of (loadError e w)) = control (reset_world true w)
        ∧ log (world_of (loadError e w))
          = log w ++ [ConsoleError (status e) (url (this w)); HostError f (status e)])
  ∨ (∃ st, stats (this w) = Some st ∧ aborted st = false
        ∧ retry st < maxRetry (this w)).
Proof.
  destruct (stats (this w)) as [st|] eqn:Hst;
    [|left; unfold loadError; comp_go; auto].
  destruct (aborted st) eqn:Hab; [left; unfold loadError; comp_go; auto|].
  destruct (Z.ltb_spec (retry st) (maxRetry (this w))) as [Hlt|Hge].
  { right. right. exists st. auto. }
  assert (Hb : (retry st <? maxRetry (this w)) = false) by (apply Z.ltb_ge; lia).
  destruct (onError (this w)) as [f|] eqn:Hf.
  - right. left. exists st, f. unfold loadError. comp_go. rewrite ?reset_eq.
    repeat split; auto; try lia. simpl. rewrite <- app_assoc. reflexivity.
  - left. unfold loadError. comp_go. split; [reflexivity|].
    unfold terminals. simpl. rewrite host_terminals_app. simpl. apply app_nil_r.
Qed.

Lemma live_settled h h' w : live h' (settled h w) ↔ live h' w ∧ h' ≠ h.
Proof.
  unfold live, settled. simpl. rewrite list_elem_of_filter. tauto.
Qed.

Lemma settled_consistent h w : consistent w → consistent (settled h w).
Proof.
  intros [H1 H2 H3 H4 H5 H6]. split; try assumption.
  intros h' Hl. apply live_settled in Hl as [Hl _]. apply (H3 h' Hl).
Qed.

Lemma settled_no_live h w :
  consistent w → live h w → ∀ h', ¬ live h' (settled h w).
Proof.
  intros Hc Hl h' Hl'. apply live_settled in Hl' as [Hl' Hne].
  pose proof (c_live w Hc h Hl). pose proof (c_live w Hc h' Hl'). congruence.
Qed.

Lemma retry_world_consistent w st e h :
  consistent w → peerAgentLoader (this w) = Some h → (∀ h', ¬ live h' w) →
  stats (this w) = Some st → aborted st = false →
  retry st < maxRetry (this w) →
  consistent (world_of (loadError e w)).
Proof.
  intros [H1 H2 H3 H4 H5 H6] Hh Hl Hst Hab Hlt.
  rewrite (loadError_retry_eq w st e Hst Hab Hlt).
  assert (Hkeep : clear_timer (requestTimeout (this w)) [retry_timer w]
                  = [retry_timer w]).
  { destruct (requestTimeout (this w)) as [i|] eqn:Ei; [|reflexivity].
    simpl. unfold drop_timer. rewrite filter_cons_True; [reflexivity|].
    simpl. specialize (H2 i eq_refl). lia. }
  assert (Hold : clear_timer (requestTimeout (this w)) (timers w) = []).
  { destruct H1 as [Ht|[(tm & Ht & _ & Hid & _)|(tm & _ & _ & _ & Hn)]].
    - rewrite Ht. destruct (requestTimeout (this w)); reflexivity.
    - rewrite Ht, Hid. simpl. unfold drop_timer.
      rewrite filter_cons_False by (simpl; auto). reflexivity.
    - congruence. }
  split; simpl.
  - unfold timers_shape. simpl. rewrite clear_timer_app, Hkeep, Hold.
    right. right. exists (retry_timer w). simpl. auto.
  - discriminate.
  - intros h' Hl'. destruct (Hl h' Hl').
  - exact H4.
  - discriminate.
  - intros _. apply H6. right. rewrite Hh. eauto.
Qed.

Lemma abort_nostats w h :
  peerAgentLoader (this w) = Some h → stats (this w) = None →
  world_of (abort w) = w.
Proof. intros Hh Hst. unfold abort. comp_go. reflexivity. Qed.

Lemma find_timer_singleton t tm :
  find_timer t [tm] = if decide (tm_id tm = t) then Some tm else None.
Proof.
  unfold find_timer. rewrite filter_cons, filter_nil.
  destruct (decide (tm_id tm = t)); reflexivity.
Qed.

Lemma fired_consistent w :
  consistent w → consistent (with_timers [] (next_timer w) w).
Proof.
  intros [H1 H2 H3 H4 H5 H6]. split; try assumption.
  - left. reflexivity.
  - simpl. intros [Hx|Hx]; [congruence|]. apply H6. right. exact Hx.
Qed.

Lemma abort_consistent w : consistent w → consistent (world_of (abort w)).
Proof.
  intros Hc. destruct (peerAgentLoader (this w)) as [h|] eqn:Hh.
  - destruct (stats (this w)) as [st|] eqn:Hst.
    + rewrite (abort_live_eq w h st Hh Hst). simpl.
      apply reset_true_consistent.
      * exact (c_timers w Hc).
      * simpl. intros h' Hin. apply elem_of_app in Hin as [Hin|Hin].
        -- exact (c_fresh_cancelled w Hc h' Hin).
        -- apply list_elem_of_singleton in Hin. subst h'.
           exact (c_fresh_handle w Hc h Hh).
      * intros h' [Hin Hnc]. simpl in *.
        assert (Hl : live h' w).
        { split; [exact Hin|]. intros Hx. apply Hnc, elem_of_app. left. exact Hx. }
        pose proof (c_live w Hc h' Hl) as Heq. rewrite Hh in Heq.
        injection Heq as <-. apply Hnc, elem_of_app. right. left.
    + rewrite (abort_nostats w h Hh Hst). exact Hc.
  - rewrite (abort_idle_eq w Hh). simpl. apply reset_true_consistent.
    + exact (c_timers w Hc).
    + exact (c_fresh_cancelled w Hc).
    + intros h' Hl. pose proof (c_live w Hc h' Hl). congruence.
Qed.

Lemma consistent_step e w :
  consistent w → allowed w e → consistent (world_of (step e w)).
Proof.
  intros Hc Ha. destruct e as [a| | |h d bs|h err|h ev|t]; simpl in Ha.
  - (* load *)
    destruct (a_onProgress a) as [p|] eqn:Hp.
    2:{ destruct (load_violated a w) as (msg & Heq);
          [left; exact Hp|]. simpl. rewrite Heq. exact Hc. }
    destruct (a_frag a) as [fr|] eqn:Hf.
    2:{ destruct (load_violated a w) as (msg & Heq);
          [right; left; exact Hf|]. simpl. rewrite Heq. exact Hc. }
    destruct (peerAgentModule (hlsjsWrapper w)) eqn:Hm.
    2:{ destruct (load_violated a w) as (msg & Heq);
          [right; right; exact Hm|]. simpl. rewrite Heq. exact Hc. }
    simpl. rewrite (load_eq a w fr) by (repeat split; eauto).
    apply loadInternal_consistent.
    + apply (consistent_control w); [reflexivity|exact Hc].
    + simpl. intros Hh. split; [|exact Hm].
      destruct (c_timers w Hc) as [Ht|[(tm & _ & _ & _ & [x Hx])|(tm & Ht & Hk & _)]].
      * exact Ht.
      * congruence.
      * exfalso. apply Ha. unfold armed. rewrite Ht. simpl. rewrite Hk. left.
  - (* abort *)
    apply abort_consistent. exact Hc.
  - (* destroy *)
    apply abort_consistent. exact Hc.
  - (* success *)
    change (world_of (step (BackendSuccess h d bs) w))
      with (world_of (loadSuccess d bs (settled h w))).
    pose proof (settled_consistent h w Hc) as Hs.
    destruct (loadSuccess_control d bs (settled h w))
      as [[Hk _]|(st & g & st' & _ & _ & _ & Hk & _)].
    + exact (consistent_control _ _ Hk Hs).
    + refine (consistent_control _ _ Hk _). apply reset_true_consistent.
      * exact (c_timers _ Hs).
      * exact (c_fresh_cancelled _ Hs).
      * exact (settled_no_live h w Hc Ha).
  - (* error *)
    change (world_of (step (BackendError h err) w))
      with (world_of (loadError err (settled h w))).
    pose proof (settled_consistent h w Hc) as Hs.
    destruct (loadError_control err (settled h w))
      as [[Hk _]|[(st & f & _ & _ & _ & _ & Hk & _)|(st & Hst & Hab & Hlt)]].
    + exact (consistent_control _ _ Hk Hs).
    + refine (consistent_control _ _ Hk _). apply reset_true_consistent.
      * exact (c_timers _ Hs).
      * exact (c_fresh_cancelled _ Hs).
      * exact (settled_no_live h w Hc Ha).
    + apply (retry_world_consistent _ st err h); auto.
      * exact (c_live w Hc h Ha).
      * exact (settled_no_live h w Hc Ha).
  - (* progress *)
    simpl. refine (consistent_control w _ _ Hc).
    apply (control_loadProgress _ ev w). reflexivity.
  - (* timer *)
    simpl. unfold fire.
    destruct (c_timers w Hc)
      as [Ht|[(tm & Ht & Hk & Hid & Hh)|(tm & Ht & Hk & Hid & Hh)]];
      rewrite Ht; [exact Hc| |]; rewrite find_timer_singleton;
      destruct (decide (tm_id tm = t)) as [<-|Hne]; try exact Hc;
      rewrite Hk; simpl; unfold drop_timer;
      rewrite filter_cons_False by (simpl; auto); rewrite filter_nil.
    + pose proof (fired_consistent w Hc) as Hf.
      refine (consistent_control _ _ _ Hf).
      apply (control_loadTimeout _ (with_timers [] (next_timer w) w)). reflexivity.
    + pose proof (fired_consistent w Hc) as Hf.
      apply loadInternal_consistent; [exact Hf|].
      simpl. intros _. split; [reflexivity|].
      apply (c_module w Hc). left. rewrite Ht. discriminate.
Qed.

Lemma consistent_new wr clk cfg : consistent (new_P2PLoader wr clk cfg).
Proof.
  unfold new_P2PLoader, constructor.
  destruct cfg as [setup|]; comp_go; rewrite ?reset_eq; simpl;
    (apply consistent_at_rest;
     [split; [reflexivity|]; split; [reflexivity|];
      intros h [Hin _]; simpl in Hin; apply elem_of_nil in Hin; exact Hin
     |discriminate
     |intros h Hin; simpl in Hin; apply elem_of_nil in Hin; destruct Hin]).
Qed.

Lemma consistent_run evs w :
  consistent w → allowed_run w evs → consistent (run evs w).
Proof.
  revert w. induction evs as [|e evs IH]; intros w Hc Ha; [exact Hc|].
  destruct Ha as [He Ha]. rewrite run_cons.
  apply IH; [apply consistent_step; assumption|exact Ha].
Qed.

Lemma armed_shape w k :
  timers_shape w → armed k w →
  match k with
  | RunLoadTimeout => is_Some (peerAgentLoader (this w))
  | RunLoadInternal => peerAgentLoader (this w) = None
  end.
Proof.
  unfold armed. intros Hs Hin.
  destruct Hs as [Ht|[(tm' & Ht & Hk' & _ & Hh)|(tm' & Ht & Hk' & _ & Hh)]];
    rewrite Ht in Hin; simpl in Hin.
  - apply elem_of_nil in Hin. destruct Hin.
  - apply list_elem_of_singleton in Hin. rewrite Hk' in Hin. subst k. exact Hh.
  - apply list_elem_of_singleton in Hin. rewrite Hk' in Hin. subst k. exact Hh.
Qed.

(** C2 (as amended). In every state reached from a new instance by
    [load], [abort], [destroy], peer-agent callbacks and timer firings in
    which [load] is never called while a retry timer is pending and a
    success or error callback is delivered only for a live transfer: at most
    one timer is pending, so the deadline timer and the retry timer are
    never armed together; the deadline timer is armed only while a handle
    is stored and the retry timer only while none is; every live transfer
    is the one whose handle is stored, so there is at most one; and
    [loadInternal] with a handle stored throws and changes nothing. *)
Theorem timers_and_handle_exclusive (wr : HlsjsWrapper) (clk : nat → Q)
    (cfg : option (option (string → XhrInfo))) (evs : list Event) :
  allowed_run (new_P2PLoader wr clk cfg) evs →
  let w := run evs (new_P2PLoader wr clk cfg) in
  (length (timers w) ≤ 1)%nat
  ∧ ¬ (armed RunLoadTimeout w ∧ armed RunLoadInternal w)
  ∧ (armed RunLoadTimeout w → is_Some (peerAgentLoader (this w)))
  ∧ (armed RunLoadInternal w → peerAgentLoader (this w) = None)
  ∧ (∀ h, live h w → peerAgentLoader (this w) = Some h)
  ∧ (∀ h1 h2, live h1 w → live h2 w → h1 = h2)
  ∧ (∀ h, peerAgentLoader (this w) = Some h →
          loadInternal w = Throw unfinalized w).
Proof.
  intros Ha w.
  assert (Hc : consistent w)
    by (apply consistent_run; [apply consistent_new|exact Ha]).
  pose proof (c_timers w Hc) as Hs.
  split.
  { destruct Hs as [Ht|[(tm & Ht & _)|(tm & Ht & _)]]; rewrite Ht; simpl; lia. }
  split.
  { intros [H1 H2]. apply (armed_shape w _ Hs) in H1 as [x Hx].
    apply (armed_shape w _ Hs) in H2. congruence. }
  split; [exact (armed_shape w RunLoadTimeout Hs)|].
  split; [exact (armed_shape w RunLoadInternal Hs)|].
  split; [exact (c_live w Hc)|].
  split.
  - intros h1 h2 H1 H2. pose proof (c_live w Hc h1 H1).
    pose proof (c_live w Hc h2 H2). congruence.
  - intros h Hh. apply (loadInternal_live w h Hh).
Qed.

Lemma serviced_allowed : allowed_run fresh1 serviced.
Proof. apply (bool_decide_unpack _). vm_compute. reflexivity. Defined.

Lemma timers_and_handle_exclusive_witness :
  (length (timers (run serviced fresh1)) ≤ 1)%nat
  ∧ ¬ (armed RunLoadTimeout (run serviced fresh1)
       ∧ armed RunLoadInternal (run serviced fresh1)).
Proof.
  destruct (timers_and_handle_exclusive wrapper1 clock1 None serviced
              serviced_allowed) as (H1 & H2 & _).
  split; [exact H1|exact H2].
Defined.

(** C2 as stated does not hold.  A [load] during the pause before a retry
    leaves the retry timer pending and arms the deadline timer beside it;
    and a late error callback of a cancelled transfer, arriving after a new
    [load], drops the handle of the transfer in flight, so that the retry it
    schedules issues a second transfer while the first is still live. *)
Lemma both_timers_armed :
  (armed RunLoadTimeout
     (run [CallLoad (args1 frag_plain 1 1000); BackendError 1%nat e500;
           CallLoad (args1 frag_plain 1 1000)] fresh1)
   ∧ armed RunLoadInternal
       (run [CallLoad (args1 frag_plain 1 1000); BackendError 1%nat e500;
             CallLoad (args1 frag_plain 1 1000)] fresh1))
  ∧ (live 2%nat
       (run [CallLoad (args1 frag_plain 1 1000); CallAbort;
             CallLoad (args1 frag_plain 1 1000); BackendError 1%nat e500;
             TimerFire 3%nat] fresh1)
     ∧ live 3%nat
         (run [CallLoad (args1 frag_plain 1 1000); CallAbort;
               CallLoad (args1 frag_plain 1 1000); BackendError 1%nat e500;
               TimerFire 3%nat] fresh1)).
Proof.
  split; split; apply (bool_decide_unpack _); vm_compute; reflexivity.
Qed.

(** ** One terminal callback per request *)

Lemma in_progress_control w w' :
  control w' = control w → in_progress w → in_progress w'.
Proof.
  intros Hc. apply control_eq in Hc as (E1 & E2 & E3 & E4 & E5 & E6 & E7 & E8 & E9).
  unfold in_progress, live, armed. rewrite E3, E4, E6, E7. auto.
Qed.

Lemma at_rest_control w w' : control w' = control w → at_rest w → at_rest w'.
Proof.
  intros Hc. apply control_eq in Hc as (E1 & E2 & E3 & E4 & E5 & E6 & E7 & E8 & E9).
  unfold at_rest, live. rewrite E3, E4, E6, E7. auto.
Qed.

Lemma at_rest_reset w :
  timers_shape w → (∀ h, ¬ live h w) → at_rest (reset_world true w).
Proof.
  intros Hs Hl. split; [apply reset_clears_timers; exact Hs|].
  split; [reflexivity|exact Hl].
Qed.

Lemma at_rest_not_in_progress w : at_rest w → ¬ in_progress w.
Proof.
  intros (Ht & Hh & Hl) [(h & Hh' & _)|Ha]; [congruence|].
  unfold armed in Ha. rewrite Ht in Ha. simpl in Ha.
  apply elem_of_nil in Ha. exact Ha.
Qed.

Lemma loadSuccess_deliver d bs w st g :
  stats (this w) = Some st → aborted st = false → onSuccess (this w) = Some g →
  ∃ st', control (world_of (loadSuccess d bs w)) = control (reset_world true w)
         ∧ log (world_of (loadSuccess d bs w)) = log w ++ [HostSuccess g d st'].
Proof.
  intros Hst Hab Hg. unfold loadSuccess.
  destruct (Qpositive _ && _);
    comp_go; rewrite ?reset_eq; eexists; split; reflexivity.
Qed.

Lemma loadError_deliver e w st f :
  stats (this w) = Some st → aborted st = false →
  ¬ retry st < maxRetry (this w) → onError (this w) = Some f →
  control (world_of (loadError e w)) = control (reset_world true w)
  ∧ log (world_of (loadError e w))
    = log w ++ [ConsoleError (status e) (url (this w)); HostError f (status e)].
Proof.
  intros Hst Hab Hge Hf.
  assert (Hb : (retry st <? maxRetry (this w)) = false) by (apply Z.ltb_ge; lia).
  unfold loadError. comp_go. rewrite ?reset_eq. split; [reflexivity|].
  simpl. rewrite <- app_assoc. reflexivity.
Qed.

(** The firing of a timer in a consistent world. *)
Lemma fire_cases t w :
  consistent w →
  world_of (fire t w) = w
  ∨ (∃ tm, timers w = [tm] ∧ tm_task tm = RunLoadTimeout
           ∧ is_Some (peerAgentLoader (this w))
           ∧ fire t w = loadTimeout (with_timers [] (next_timer w) w))
  ∨ (∃ tm, timers w = [tm] ∧ tm_task tm = RunLoadInternal
           ∧ peerAgentLoader (this w) = None
           ∧ peerAgentModule (hlsjsWrapper w) = true
           ∧ fire t w = loadInternal (with_timers [] (next_timer w) w)).
Proof.
  intros Hc. unfold fire.
  destruct (c_timers w Hc)
    as [Ht|[(tm & Ht & Hk & Hid & Hh)|(tm & Ht & Hk & Hid & Hh)]];
    rewrite Ht; [left; reflexivity| |]; rewrite find_timer_singleton;
    destruct (decide (tm_id tm = t)) as [<-|Hne]; try (left; reflexivity);
    rewrite Hk; simpl; unfold drop_timer;
    rewrite filter_cons_False by (simpl; auto); rewrite filter_nil.
  - right. left. exists tm. rewrite <- Ht. auto.
  - right. right. exists tm. rewrite <- Ht. repeat split; auto.
    apply (c_module w Hc). left. rewrite Ht. discriminate.
Qed.

Lemma going_facts base fr lvl g f m r w :
  going base fr lvl g f m r w →
  ∃ st, stats (this w) = Some st ∧ aborted st = false ∧ retry st = r
        ∧ frag (this w) = Some fr ∧ onSuccess (this w) = Some g
        ∧ onError (this w) = Some f ∧ maxRetry (this w) = m
        ∧ levels (hlsjsWrapper w) !! level fr = Some lvl.
Proof.
  intros [_ _ (wr & Hs & Hl) (d & ds & Hr) _].
  unfold session in Hs. unfold retry_view in Hr.
  destruct (stats (this w)) as [st|]; simpl in *; [|congruence].
  exists st. split; [reflexivity|].
  injection Hs as E1 E2 E3 E4 E5 E6. injection Hr as F1 F2 F3 F4 F5.
  repeat split; try congruence.
Qed.

Lemma going_same base fr lvl g f m r w w' :
  going base fr lvl g f m r w →
  consistent w' → terminals w' = terminals w → session w' = session w →
  retry_view w' = retry_view w → in_progress w' →
  going base fr lvl g f m r w'.
Proof.
  intros [H1 H2 H3 H4 H5] Hc Ht Hs Hr Hp.
  split; [exact Hc|congruence| | |exact Hp].
  - rewrite Hs. exact H3.
  - rewrite Hr. exact H4.
Qed.

Lemma going_step base fr lvl g f m r w e :
  going base fr lvl g f m r w → from_backend_or_timer e → allowed w e →
  (failures [e] = 0%nat ∧ going base fr lvl g f m r (world_of (step e w)))
  ∨ (failures [e] = 1%nat ∧ r < m
     ∧ going base fr lvl g f m (r + 1) (world_of (step e w)))
  ∨ finished base g f (world_of (step e w)).
Proof.
  intros Hg Hb Ha.
  pose proof (consistent_step e w (g_consistent _ _ _ _ _ _ _ _ Hg) Ha) as Hc'.
  destruct (going_facts _ _ _ _ _ _ _ _ Hg)
    as (st & Hst & Hab & Hr & Hfr & Hgs & Hfe & Hm & Hl).
  pose proof (g_consistent _ _ _ _ _ _ _ _ Hg) as Hc.
  destruct e as [a| | |h d bs|h err|h ev|t]; simpl in Hb; try contradiction.
  - (* success *)
    right. right.
    change (world_of (step (BackendSuccess h d bs) w))
      with (world_of (loadSuccess d bs (settled h w))) in *.
    destruct (loadSuccess_deliver d bs (settled h w) st g Hst Hab Hgs)
      as (st' & Hk & Hlog).
    split; [exact Hc'|]. split.
    + refine (at_rest_control _ _ Hk _). apply at_rest_reset.
      * exact (c_timers _ (settled_consistent h w Hc)).
      * exact (settled_no_live h w Hc Ha).
    + exists (HostSuccess g d st'). split; [|reflexivity].
      unfold terminals. rewrite Hlog.
      rewrite host_terminals_app. simpl.
      rewrite <- (g_terminals _ _ _ _ _ _ _ _ Hg). reflexivity.
  - (* error *)
    change (world_of (step (BackendError h err) w))
      with (world_of (loadError err (settled h w))) in *.
    destruct (Z.lt_ge_cases (retry st) (maxRetry (this w))) as [Hlt|Hge].
    + right. left. split; [reflexivity|]. split; [lia|].
      pose proof (retry_view_loadError_retry (settled h w) st err Hst Hab Hlt) as Hv.
      destruct (g_retry _ _ _ _ _ _ _ _ Hg) as (d0 & ds & Hv0).
      split.
      * exact Hc'.
      * rewrite (loadError_retry_eq (settled h w) st err Hst Hab Hlt).
        unfold terminals. simpl. rewrite host_terminals_app. simpl.
        rewrite app_nil_r. exact (g_terminals _ _ _ _ _ _ _ _ Hg).
      * destruct (g_session _ _ _ _ _ _ _ _ Hg) as (wr & Hs & Hlv).
        exists wr. split; [|exact Hlv]. rewrite <- Hs.
        apply (session_loadError _ err (settled h w)). reflexivity.
      * do 2 eexists. rewrite Hv. simpl. rewrite Hm, Hr. reflexivity.
      * right. rewrite (loadError_retry_eq (settled h w) st err Hst Hab Hlt).
        unfold armed. simpl. rewrite clear_timer_app, fmap_app.
        apply elem_of_app. right.
        destruct (requestTimeout (this w)) as [i|] eqn:Ei; simpl; [|left].
        unfold drop_timer. rewrite filter_cons_True; [left|].
        simpl. pose proof (c_fresh_timer w Hc i Ei). lia.
    + right. right.
      destruct (loadError_deliver err (settled h w) st f Hst Hab ltac:(simpl; lia) Hfe)
        as (Hk & Hlog).
      split; [exact Hc'|]. split.
      * refine (at_rest_control _ _ Hk _). apply at_rest_reset.
        -- exact (c_timers _ (settled_consistent h w Hc)).
        -- exact (settled_no_live h w Hc Ha).
      * exists (HostError f (status err)). split; [|reflexivity].
        unfold terminals. rewrite Hlog.
        rewrite host_terminals_app. simpl.
        rewrite <- (g_terminals _ _ _ _ _ _ _ _ Hg). reflexivity.
  - (* progress *)
    left. split; [reflexivity|]. simpl in *.
    apply (going_same _ _ _ _ _ _ _ w); auto.
    + apply (terminals_loadProgress _ ev w). reflexivity.
    + apply (session_loadProgress _ ev w). reflexivity.
    + apply (retry_view_loadProgress _ ev w). reflexivity.
    + refine (in_progress_control w _ _ (g_progress _ _ _ _ _ _ _ _ Hg)).
      apply (control_loadProgress _ ev w). reflexivity.
  - (* timer *)
    left. split; [reflexivity|]. simpl in *.
    apply (going_same _ _ _ _ _ _ _ w); auto.
    + apply (terminals_fire _ t w). reflexivity.
    + apply (session_fire _ t w). reflexivity.
    + apply (retry_view_fire _ t w). reflexivity.
    + destruct (fire_cases t w Hc)
        as [Heq|[(tm & Ht & Hk & Hh & Heq)|(tm & Ht & Hk & Hh & Hmod & Heq)]].
      * rewrite Heq. exact (g_progress _ _ _ _ _ _ _ _ Hg).
      * rewrite Heq.
        assert (Hin : in_progress (with_timers [] (next_timer w) w)).
        { destruct (g_progress _ _ _ _ _ _ _ _ Hg) as [Hp|Hp]; [left; exact Hp|].
          apply (armed_shape w _ (c_timers w Hc)) in Hp.
          destruct Hh as [x Hx]. congruence. }
        refine (in_progress_control _ _ _ Hin).
        apply (control_loadTimeout _ (with_timers [] (next_timer w) w)). reflexivity.
      * rewrite Heq.
        rewrite (loadInternal_ok _ st fr lvl) by (simpl; assumption).
        left. exists (next_handle w). split; [reflexivity|].
        split; simpl.
        -- apply elem_of_app. right. left.
        -- intros Hin. pose proof (c_fresh_cancelled w Hc _ Hin). lia.
Qed.

Lemma finished_step base g f w e :
  finished base g f w → from_backend_or_timer e → allowed w e →
  finished base g f (world_of (step e w)).
Proof.
  intros (Hc & Hr & y & Ht & Hy) Hb Ha.
  pose proof (consistent_step e w Hc Ha) as Hc'.
  destruct e as [a| | |h d bs|h err|h ev|t]; simpl in Hb, Ha; try contradiction.
  - destruct Hr as (_ & _ & Hl). destruct (Hl h Ha).
  - destruct Hr as (_ & _ & Hl). destruct (Hl h Ha).
  - split; [exact Hc'|]. simpl in *. split.
    + refine (at_rest_control w _ _ Hr).
      apply (control_loadProgress _ ev w). reflexivity.
    + exists y. split; [|exact Hy]. rewrite <- Ht.
      apply (terminals_loadProgress _ ev w). reflexivity.
  - assert (Heq : world_of (step (TimerFire t) w) = w).
    { simpl. unfold fire. destruct Hr as (Hts & _). rewrite Hts. reflexivity. }
    rewrite Heq. split; [exact Hc|]. split; [exact Hr|]. exists y. auto.
Qed.

Lemma finished_run base g f evs : ∀ w,
  finished base g f w → Forall from_backend_or_timer evs → allowed_run w evs →
  finished base g f (run evs w).
Proof.
  induction evs as [|e evs IH]; intros w Hf Hall Ha; [exact Hf|].
  apply Forall_cons in Hall as [He Hall]. destruct Ha as [Hae Ha].
  rewrite run_cons. apply IH; [|exact Hall|exact Ha].
  apply finished_step; assumption.
Qed.

Lemma failures_cons e evs :
  failures (e :: evs) = (failures [e] + failures evs)%nat.
Proof. destruct e; reflexivity. Qed.

Lemma going_run base fr lvl g f m evs : ∀ r w,
  going base fr lvl g f m r w →
  Forall from_backend_or_timer evs → allowed_run w evs →
  (going base fr lvl g f m (r + Z.of_nat (failures evs)) (run evs w)
   ∧ (failures evs = 0%nat ∨ r + Z.of_nat (failures evs) ≤ m))
  ∨ finished base g f (run evs w).
Proof.
  induction evs as [|e evs IH]; intros r w Hg Hall Ha.
  - left. simpl. rewrite Z.add_0_r. auto.
  - apply Forall_cons in Hall as [He Hall]. destruct Ha as [Hae Ha].
    rewrite run_cons, failures_cons.
    destruct (going_step _ _ _ _ _ _ _ _ e Hg He Hae)
      as [[Hz Hg']|[(Hone & Hlt & Hg')|Hfin]].
    + rewrite Hz. simpl.
      destruct (IH r _ Hg' Hall Ha) as [[H1 H2]|H]; [left|right; exact H].
      split; [exact H1|exact H2].
    + rewrite Hone.
      destruct (IH (r + 1) _ Hg' Hall Ha) as [[H1 H2]|H]; [left|right; exact H].
      replace (r + Z.of_nat (1 + failures evs))
        with (r + 1 + Z.of_nat (failures evs)) by lia.
      split; [exact H1|]. right. destruct H2 as [H2|H2]; lia.
    + right. apply finished_run; assumption.
Qed.

Lemma going_load a w g f :
  consistent w → at_rest w →
  a_onSuccess a = Some g → a_onError a = Some f →
  returned (load a w) = true →
  ∃ fr lvl, going (terminals w) fr lvl g f (a_maxRetry a) 0 (world_of (load a w)).
Proof.
  intros Hc Hr Hg Hf Hret.
  assert (Hal : allowed w (CallLoad a)).
  { simpl. unfold armed. destruct Hr as (Ht & _). rewrite Ht. simpl.
    apply not_elem_of_nil. }
  pose proof (consistent_step _ w Hc Hal) as Hc'. simpl in Hc'.
  destruct (a_onProgress a) as [p|] eqn:Hp.
  2:{ destruct (load_violated a w) as (msg & Heq);
        [left; exact Hp|]. rewrite Heq in Hret. discriminate. }
  destruct (a_frag a) as [fr|] eqn:Hfr.
  2:{ destruct (load_violated a w) as (msg & Heq);
        [right; left; exact Hfr|]. rewrite Heq in Hret. discriminate. }
  destruct (peerAgentModule (hlsjsWrapper w)) eqn:Hm.
  2:{ destruct (load_violated a w) as (msg & Heq);
        [right; right; exact Hm|]. rewrite Heq in Hret. discriminate. }
  assert (Hpre : preconditions_met a w) by (repeat split; eauto).
  rewrite (load_eq a w fr Hpre Hfr) in *.
  destruct (loadInternal_cases (stored a fr w))
    as [[e Heq]|[(st & fr' & lvl & Hh & _ & Hfr' & Hl & Hst & Heq)|(_ & _ & Hx & _)]];
    [rewrite Heq in Hret; discriminate| |congruence].
  simpl in Hfr', Hst. rewrite Hfr in Hfr'. injection Hfr' as <-.
  injection Hst as <-.
  exists fr, lvl. rewrite Heq in *. simpl in Hc'. split.
  - exact Hc'.
  - unfold terminals. simpl. rewrite host_terminals_app. simpl. apply app_nil_r.
  - exists (hlsjsWrapper w). split; [|exact Hl].
    unfold session. simpl. rewrite Hg, Hf, Hfr. reflexivity.
  - do 2 eexists. unfold retry_view. simpl. reflexivity.
  - left. exists (next_handle w). split; [reflexivity|]. split; simpl.
    + apply elem_of_app. right. left.
    + intros Hin. pose proof (c_fresh_cancelled w Hc _ Hin). lia.
Qed.

Lemma going_success base fr lvl g f m r w h d bs :
  going base fr lvl g f m r w → live h w →
  ∃ st', terminals (world_of (step (BackendSuccess h d bs) w))
         = base ++ [HostSuccess g d st']
         ∧ at_rest (world_of (step (BackendSuccess h d bs) w)).
Proof.
  intros Hg Ha.
  destruct (going_facts _ _ _ _ _ _ _ _ Hg)
    as (st & Hst & Hab & Hr & Hfr & Hgs & Hfe & Hm & Hl).
  pose proof (g_consistent _ _ _ _ _ _ _ _ Hg) as Hc.
  change (world_of (step (BackendSuccess h d bs) w))
    with (world_of (loadSuccess d bs (settled h w))).
  destruct (loadSuccess_deliver d bs (settled h w) st g Hst Hab Hgs)
    as (st' & Hk & Hlog).
  exists st'. split.
  - unfold terminals. rewrite Hlog, host_terminals_app. simpl.
    rewrite <- (g_terminals _ _ _ _ _ _ _ _ Hg). reflexivity.
  - refine (at_rest_control _ _ Hk _). apply at_rest_reset.
    + exact (c_timers _ (settled_consistent h w Hc)).
    + exact (settled_no_live h w Hc Ha).
Qed.

Lemma going_last_failure base fr lvl g f m r w h err :
  going base fr lvl g f m r w → live h w → m ≤ r →
  terminals (world_of (step (BackendError h err) w))
  = base ++ [HostError f (status err)]
  ∧ at_rest (world_of (step (BackendError h err) w)).
Proof.
  intros Hg Ha Hle.
  destruct (going_facts _ _ _ _ _ _ _ _ Hg)
    as (st & Hst & Hab & Hr & Hfr & Hgs & Hfe & Hm & Hl).
  pose proof (g_consistent _ _ _ _ _ _ _ _ Hg) as Hc.
  change (world_of (step (BackendError h err) w))
    with (world_of (loadError err (settled h w))).
  destruct (loadError_deliver err (settled h w) st f Hst Hab ltac:(simpl; lia) Hfe)
    as (Hk & Hlog).
  split.
  - unfold terminals. rewrite Hlog, host_terminals_app. simpl.
    rewrite <- (g_terminals _ _ _ _ _ _ _ _ Hg). reflexivity.
  - refine (at_rest_control _ _ Hk _). apply at_rest_reset.
    + exact (c_timers _ (settled_consistent h w Hc)).
    + exact (settled_no_live h w Hc Ha).
Qed.

Lemma going_retried_failure base fr lvl g f m r w h err :
  going base fr lvl g f m r w → live h w → r < m →
  terminals (world_of (step (BackendError h err) w)) = base
  ∧ in_progress (world_of (step (BackendError h err) w)).
Proof.
  intros Hg Ha Hlt.
  destruct (going_step _ _ _ _ _ _ _ _ (BackendError h err) Hg I Ha)
    as [[Hz _]|[(_ & _ & Hg')|(_ & Hrest & _)]].
  - discriminate Hz.
  - split; [exact (g_terminals _ _ _ _ _ _ _ _ Hg')
           |exact (g_progress _ _ _ _ _ _ _ _ Hg')].
  - exfalso.
    destruct (going_facts _ _ _ _ _ _ _ _ Hg)
      as (st & Hst & Hab & Hr & Hfr & Hgs & Hfe & Hm & Hl).
    pose proof (g_consistent _ _ _ _ _ _ _ _ Hg) as Hc.
    change (world_of (step (BackendError h err) w))
      with (world_of (loadError err (settled h w))) in Hrest.
    rewrite (loadError_retry_eq (settled h w) st err Hst Hab ltac:(simpl; lia))
      in Hrest.
    destruct Hrest as (Ht & _). cbn [world_of] in Ht. simpl in Ht.
    rewrite clear_timer_app in Ht. apply app_eq_nil in Ht as [_ Ht].
    destruct (requestTimeout (this w)) as [i|] eqn:Ei; simpl in Ht;
      [|discriminate Ht].
    unfold drop_timer in Ht. rewrite filter_cons_True in Ht; [discriminate Ht|].
    simpl. pose proof (c_fresh_timer w Hc i Ei). lia.
Qed.

(** C6 (as amended). A [load] that returns normally on a consistent
    instance at rest, with success and error callbacks supplied, is followed
    by any run of peer-agent callbacks and timer firings in which terminal
    callbacks come only from live transfers.  At every point of such a run
    either the request is still under way or it has ended, never both.
    While it is under way a live transfer or a retry timer is outstanding,
    no host success or error callback has been added, and the failures so
    far are within [maxRetry]; then the success of a live transfer calls the
    success callback that was supplied, once, and leaves the instance at
    rest; a failure of a live transfer calls the error callback that was
    supplied, once, with the status of that failure, and leaves the instance
    at rest, when [maxRetry] failures have been retried; and an earlier
    failure calls neither and leaves the request under way.  When it has
    ended the instance is at rest and exactly one call, of the success or of
    the error callback, has been added. *)
Theorem one_terminal_callback (a : LoadArgs) (w : World) (g f : callback)
    (evs : list Event) :
  consistent w → at_rest w →
  a_onSuccess a = Some g → a_onError a = Some f →
  returned (load a w) = true →
  Forall from_backend_or_timer evs →
  allowed_run (world_of (load a w)) evs →
  let w2 := run evs (world_of (load a w)) in
  ((terminals w2 = terminals w ∧ in_progress w2
    ∧ (failures evs = 0%nat ∨ Z.of_nat (failures evs) ≤ a_maxRetry a)
    ∧ (∀ h d bs, live h w2 →
         ∃ st', terminals (world_of (step (BackendSuccess h d bs) w2))
                = terminals w ++ [HostSuccess g d st']
                ∧ at_rest (world_of (step (BackendSuccess h d bs) w2)))
    ∧ (∀ h e, live h w2 → a_maxRetry a ≤ Z.of_nat (failures evs) →
         terminals (world_of (step (BackendError h e) w2))
         = terminals w ++ [HostError f (status e)]
         ∧ at_rest (world_of (step (BackendError h e) w2)))
    ∧ (∀ h e, live h w2 → Z.of_nat (failures evs) < a_maxRetry a →
         terminals (world_of (step (BackendError h e) w2)) = terminals w
         ∧ in_progress (world_of (step (BackendError h e) w2))))
   ∨ (at_rest w2
      ∧ ∃ y, terminals w2 = terminals w ++ [y] ∧ delivered_to g f y))
  ∧ ¬ (in_progress w2 ∧ at_rest w2)
  ∧ (∀ w' st e, stats (this w') = Some st → aborted st = false →
       retry st < maxRetry (this w') →
       terminals (world_of (loadError e w')) = terminals w').
Proof.
  intros Hc Hr Hg Hf Hret Hall Ha w2.
  destruct (going_load a w g f Hc Hr Hg Hf Hret) as (fr & lvl & Hgo).
  split; [|split].
  - destruct (going_run _ _ _ _ _ _ evs 0 _ Hgo Hall Ha) as [[H1 H2]|(_ & H1 & H2)].
    + left. fold w2 in H1.
      split; [exact (g_terminals _ _ _ _ _ _ _ _ H1)|].
      split; [exact (g_progress _ _ _ _ _ _ _ _ H1)|].
      split; [destruct H2 as [H2|H2]; [left; exact H2|right; lia]|].
      split; [|split].
      * intros h d bs Hl. exact (going_success _ _ _ _ _ _ _ _ h d bs H1 Hl).
      * intros h e Hl Hle.
        exact (going_last_failure _ _ _ _ _ _ _ _ h e H1 Hl ltac:(lia)).
      * intros h e Hl Hlt.
        exact (going_retried_failure _ _ _ _ _ _ _ _ h e H1 Hl ltac:(lia)).
    + right. split; [exact H1|exact H2].
  - intros [Hp Hrest]. exact (at_rest_not_in_progress w2 Hrest Hp).
  - intros w' st e Hst Hab Hlt.
    rewrite (loadError_retry_eq w' st e Hst Hab Hlt).
    unfold terminals. simpl. rewrite host_terminals_app. simpl. apply app_nil_r.
Qed.

Lemma fresh1_at_rest : at_rest fresh1.
Proof.
  split; [reflexivity|]. split; [reflexivity|].
  intros h [Hin _]. apply elem_of_nil in Hin. exact Hin.
Defined.

Lemma retried_then_served_allowed :
  allowed_run (world_of (load (args1 frag_plain 1 1000) fresh1))
    retried_then_served.
Proof. apply (bool_decide_unpack _). vm_compute. reflexivity. Defined.

Lemma one_terminal_callback_witness :
  ∃ y, terminals (run retried_then_served
                    (world_of (load (args1 frag_plain 1 1000) fresh1)))
       = terminals fresh1 ++ [y]
       ∧ delivered_to 1%nat 2%nat y.
Proof.
  assert (Hret : returned (load (args1 frag_plain 1 1000) fresh1) = true)
    by (vm_compute; reflexivity).
  assert (Hall : Forall from_backend_or_timer retried_then_served)
    by (repeat constructor).
  destruct (one_terminal_callback (args1 frag_plain 1 1000) fresh1 1%nat 2%nat
              retried_then_served (consistent_new wrapper1 clock1 None)
              fresh1_at_rest eq_refl eq_refl Hret Hall
              retried_then_served_allowed) as ([(Hsame & _)|(_ & Hone)] & _).
  - vm_compute in Hsame. discriminate Hsame.
  - exact Hone.
Defined.

(** C6 as stated does not hold.  A [load] that is not aborted gets two
    success callbacks when it follows an aborted one whose transfer is
    answered late: the late success of transfer 1 finds the fresh [stats]
    of the second [load], is handed to the host and resets the instance,
    and the success of transfer 2 is handed to the host as well; each of
    the two transfers was answered once.  And a [load] made without a
    success callback gets no terminal callback at all when its transfer
    succeeds. *)
Lemma one_load_two_successes :
  (∃ st1 st2,
     terminals (run [CallLoad (args1 frag_plain 1 1000); CallAbort;
                     CallLoad (args1 frag_range 1 1000);
                     BackendSuccess 1%nat "late" bs0;
                     BackendSuccess 2%nat "seg" bs0] fresh1)
     = [HostSuccess 1%nat "late" st1; HostSuccess 1%nat "seg" st2]
     ∧ aborted st1 = false ∧ aborted st2 = false)
  ∧ terminals (run [CallLoad (args_bare frag_plain);
                    BackendSuccess 1%nat "seg" bs0] fresh1)
    = [].
Proof.
  split.
  - do 2 eexists. split; [vm_compute; reflexivity|]. split; reflexivity.
  - vm_compute. reflexivity.
Qed.

(** ** Callbacks after [abort], in every execution *)

Ltac has_stats_prim :=
  idtac;
  match goal with
  | |- keeps has_stats _ =>
      let w := fresh "w" in
      let Hw := fresh "Hw" in
      intros w Hw; unfold has_stats in *; comp_unfold; simpl;
      repeat case_match; simpl;
      repeat match goal with
             | H : stats (this _) = _ |- _ => rewrite H in *
             end;
      try assumption; try (eexists; reflexivity);
      try (destruct Hw as [? Hw]; discriminate Hw)
  end.

Lemma has_stats_reset b : keeps has_stats (reset b).
Proof. intros w Hw. rewrite reset_eq. destruct b; exact Hw. Qed.

Lemma has_stats_loadProgress ev : keeps has_stats (loadProgress ev).
Proof. unfold loadProgress. keeps_walk has_stats_prim. Qed.

Lemma has_stats_loadSuccess d bs : keeps has_stats (loadSuccess d bs).
Proof.
  unfold loadSuccess.
  keeps_walk ltac:(idtac; first [apply has_stats_reset|has_stats_prim]).
Qed.

Lemma has_stats_loadError e : keeps has_stats (loadError e).
Proof.
  unfold loadError.
  keeps_walk ltac:(idtac; first [apply has_stats_reset|has_stats_prim]).
Qed.

Lemma has_stats_loadTimeout : keeps has_stats loadTimeout.
Proof. unfold loadTimeout. keeps_walk has_stats_prim. Qed.

Lemma has_stats_loadInternal : keeps has_stats loadInternal.
Proof. unfold loadInternal. keeps_walk has_stats_prim. Qed.

Lemma has_stats_abort : keeps has_stats abort.
Proof.
  unfold abort.
  keeps_walk ltac:(idtac; first [apply has_stats_reset|has_stats_prim]).
Qed.

Lemma has_stats_load a : keeps has_stats (load a).
Proof.
  unfold load.
  keeps_walk ltac:(idtac; first [apply has_stats_loadInternal|has_stats_prim]).
Qed.

Lemma has_stats_step e : keeps has_stats (step e).
Proof.
  destruct e; simpl.
  - apply has_stats_load.
  - apply has_stats_abort.
  - apply has_stats_abort.
  - apply keeps_bind; [intros w Hw; exact Hw|intros _]. apply has_stats_loadSuccess.
  - apply keeps_bind; [intros w Hw; exact Hw|intros _]. apply has_stats_loadError.
  - apply has_stats_loadProgress.
  - intros w Hw. unfold fire.
    destruct (find_timer t (timers w)) as [tm|]; [|exact Hw].
    destruct (tm_task tm); simpl.
    + apply has_stats_loadTimeout. exact Hw.
    + apply has_stats_loadInternal. exact Hw.
Qed.

Lemma handle_has_stats_step e w :
  handle_has_stats w → handle_has_stats (world_of (step e w)).
Proof.
  intros Hi.
  destruct (stats (this w)) as [st|] eqn:Hst.
  { intros _. apply has_stats_step. unfold has_stats. rewrite Hst. eauto. }
  assert (Hh : peerAgentLoader (this w) = None).
  { destruct (peerAgentLoader (this w)) as [h|] eqn:Hh; [|reflexivity].
    destruct (Hi ltac:(eauto)) as [x Hx]. congruence. }
  assert (Hnone : ∀ w', peerAgentLoader (this w') = None → handle_has_stats w').
  { intros w' Hw' [x Hx]. congruence. }
  destruct e as [a| | |h d bs|h err|h ev|t]; simpl.
  - destruct (a_onProgress a) as [p|] eqn:Hp.
    2:{ destruct (load_violated a w) as (msg & Heq);
          [left; exact Hp|]. rewrite Heq. exact Hi. }
    destruct (a_frag a) as [fr|] eqn:Hf.
    2:{ destruct (load_violated a w) as (msg & Heq);
          [right; left; exact Hf|]. rewrite Heq. exact Hi. }
    destruct (peerAgentModule (hlsjsWrapper w)) eqn:Hm.
    2:{ destruct (load_violated a w) as (msg & Heq);
          [right; right; exact Hm|]. rewrite Heq. exact Hi. }
    rewrite (load_eq a w fr) by (repeat split; eauto).
    intros _. apply has_stats_loadInternal. unfold has_stats. simpl. eauto.
  - rewrite (abort_idle_eq w Hh). apply Hnone. reflexivity.
  - unfold destroy. rewrite (abort_idle_eq w Hh). apply Hnone. reflexivity.
  - apply Hnone. unfold loadSuccess. comp_go. exact Hh.
  - apply Hnone. unfold loadError. comp_go. exact Hh.
  - apply Hnone. unfold loadProgress. comp_go. exact Hh.
  - unfold fire. destruct (find_timer t (timers w)) as [tm|]; [|exact Hi].
    destruct (tm_task tm); simpl.
    + apply Hnone.
      pose proof (control_loadTimeout _
                    (with_timers (drop_timer t (timers w)) (next_timer w) w)
                    eq_refl) as Hk.
      apply control_eq in Hk as (_ & _ & Hk & _). rewrite Hk. exact Hh.
    + destruct (loadInternal_cases
                  (with_timers (drop_timer t (timers w)) (next_timer w) w))
        as [[e Heq]|[(st & fr & lvl & _ & _ & _ & _ & Hst' & _)|(_ & _ & _ & Hx)]].
      * rewrite Heq. exact Hi.
      * simpl in Hst'. congruence.
      * apply Hnone. exact Hx.
Qed.

Lemma handle_has_stats_run evs : ∀ w,
  handle_has_stats w → handle_has_stats (run evs w).
Proof.
  induction evs as [|e evs IH]; intros w Hi; [exact Hi|].
  rewrite run_cons. apply IH. apply handle_has_stats_step. exact Hi.
Qed.

Lemma handle_has_stats_new wr clk cfg :
  handle_has_stats (new_P2PLoader wr clk cfg).
Proof.
  intros [x Hx]. unfold new_P2PLoader, constructor in Hx.
  destruct cfg as [setup|]; revert Hx; comp_go; rewrite ?reset_eq; simpl;
    discriminate.
Qed.

(** C1 (as amended). In every execution from a new instance, when
    [abort()] is called while a transfer handle is stored, it returns
    normally having set [stats.aborted] and told the handle to abort; and
    in every continuation without a new [load] (peer-agent callbacks of any
    transfer, timer firings, further [abort]/[destroy] calls) the flag
    stays set and no host success or error callback is added to the log.
    Whenever the flag is set, [loadSuccess] and [loadError] return at once
    and change nothing. *)
Theorem abort_silences_callbacks (wr : HlsjsWrapper) (clk : nat → Q)
    (cfg : option (option (string → XhrInfo))) (history : list Event)
    (h : handle) (evs : list Event) :
  let w := run history (new_P2PLoader wr clk cfg) in
  peerAgentLoader (this w) = Some h →
  Forall not_load evs →
  returned (abort w) = true
  ∧ flagged (world_of (abort w))
  ∧ log (world_of (abort w)) = log w ++ [HandleAbort h]
  ∧ flagged (run evs (world_of (abort w)))
  ∧ terminals (run evs (world_of (abort w))) = terminals w
  ∧ (∀ w' d bs e, flagged w' →
       loadSuccess d bs w' = Ok tt w' ∧ loadError e w' = Ok tt w').
Proof.
  intros w Hh Hall.
  destruct (handle_has_stats_run history _ (handle_has_stats_new wr clk cfg)
              ltac:(fold w; rewrite Hh; eauto)) as [st Hst].
  fold w in Hst. rewrite (abort_live_eq w h st Hh Hst).
  assert (Hfl : flagged (world_of (Ok (A:=unit) tt
                  (reset_world true
                     (with_log (log w ++ [HandleAbort h])
                        (with_transfers (inflight w) (cancelled w ++ [h])
                           (next_handle w)
                           (with_this (set_stats (Some (set_aborted true st))) w)))))))
    by reflexivity.
  split; [reflexivity|]. split; [exact Hfl|]. split; [reflexivity|].
  destruct (flagged_run evs _ Hall Hfl) as [H1 H2].
  split; [exact H1|]. split.
  - rewrite H2. unfold terminals. simpl.
    rewrite host_terminals_app. simpl. apply app_nil_r.
  - intros w' d bs e Hw'. split;
      [apply loadSuccess_flagged|apply loadError_flagged]; exact Hw'.
Qed.

Lemma abort_silences_callbacks_witness :
  terminals
    (run [BackendSuccess 1%nat "late" bs_p2p; BackendError 1%nat e500;
          TimerFire 1%nat; CallDestroy]
       (world_of (abort attempt_world)))
  = terminals attempt_world.
Proof.
  assert (Hh : peerAgentLoader
                 (this (run [CallLoad (args1 frag_plain 1 1000)]
                          (new_P2PLoader wrapper1 clock1 None)))
               = Some 1%nat)
    by (vm_compute; reflexivity).
  assert (Hall : Forall not_load
                   [BackendSuccess 1%nat "late" bs_p2p; BackendError 1%nat e500;
                    TimerFire 1%nat; CallDestroy]) by (repeat constructor).
  destruct (abort_silences_callbacks wrapper1 clock1 None
              [CallLoad (args1 frag_plain 1 1000)] 1%nat _ Hh Hall)
    as (_ & _ & _ & _ & H & _).
  exact H.
Defined.

(** C1 as stated does not hold.  An [abort()] during the pause before a
    retry finds no handle and sets no flag, and a callback of an earlier,
    cancelled transfer that arrives after it is handed to the host; and a
    [load] after an [abort()] replaces the flagged [stats], so that a late
    callback of the aborted transfer is handed to the host as well. *)
Lemma abort_not_always_silencing :
  (∃ st, terminals
           (run [CallLoad (args1 frag_plain 1 1000); CallAbort;
                 CallLoad (args1 frag_plain 1 1000); BackendError 2%nat e500;
                 CallAbort; BackendSuccess 1%nat "late" bs0] fresh1)
         = [HostSuccess 1%nat "late" st])
  ∧ (∃ st, terminals
             (run [CallLoad (args1 frag_plain 1 1000); CallAbort;
                   CallLoad (args1 frag_plain 1 1000);
                   BackendSuccess 1%nat "late" bs0] fresh1)
           = [HostSuccess 1%nat "late" st]).
Proof. vm_compute. split; eexists; reflexivity. Qed.

(** ** Scenarios *)

(** With [maxRetry = 2] and [retryDelay = 1000], two failures and then a
    success arm exactly two retry timers, with delays 1000 and 2000, and the
    success callback is given [retry = 2]. *)
Example two_failures_then_success :
  ∃ st,
    retry_delays
      (log (run [CallLoad (args1 frag_plain 2 1000); BackendError 1%nat e500;
                 TimerFire 2%nat; BackendError 2%nat e500; TimerFire 4%nat;
                 BackendSuccess 3%nat "seg" bs0] fresh1))
    = [1000; 2000]
    ∧ terminals
        (run [CallLoad (args1 frag_plain 2 1000); BackendError 1%nat e500;
              TimerFire 2%nat; BackendError 2%nat e500; TimerFire 4%nat;
              BackendSuccess 3%nat "seg" bs0] fresh1)
      = [HostSuccess 1%nat "seg" st]
    ∧ retry st = 2.
Proof. vm_compute. eexists. repeat split; reflexivity. Qed.

(** When the deadline timer fires before any peer-agent callback, the
    timeout callback is given [loaded = 0]; the transfer stays as it is and
    no retry is scheduled. *)
Example deadline_fires_first :
  ∃ st,
    last (log (run [CallLoad (args1 frag_plain 2 1000); TimerFire 1%nat] fresh1))
    = Some (HostTimeout 3%nat (Some st))
    ∧ loaded st = Some 0
    ∧ peerAgentLoader
        (this (run [CallLoad (args1 frag_plain 2 1000); TimerFire 1%nat] fresh1))
      = Some 1%nat
    ∧ timers (run [CallLoad (args1 frag_plain 2 1000); TimerFire 1%nat] fresh1)
      = [].
Proof. vm_compute. eexists. repeat split; reflexivity. Qed.

(** * Further properties of the code *)

(** ** When [load] returns *)

Lemma load_returns a w fr lvl :
  preconditions_met a w → a_frag a = Some fr →
  peerAgentLoader (this w) = None →
  levels (hlsjsWrapper w) !! level fr = Some lvl →
  load a w = Ok tt (started (stored a fr w) (fresh_stats w) fr lvl).
Proof.
  intros Hpre Hf Hh Hl. rewrite (load_eq a w fr Hpre Hf).
  destruct Hpre as (_ & _ & Hm).
  apply loadInternal_ok; simpl; auto.
Qed.

Lemma load_returned_inv a w :
  returned (load a w) = true →
  preconditions_met a w ∧ peerAgentLoader (this w) = None
  ∧ ∃ fr lvl, a_frag a = Some fr
              ∧ levels (hlsjsWrapper w) !! level fr = Some lvl.
Proof.
  intros Hret.
  destruct (a_onProgress a) as [p|] eqn:Hp.
  2:{ destruct (load_violated a w) as (msg & Heq);
        [left; exact Hp|]. rewrite Heq in Hret. discriminate. }
  destruct (a_frag a) as [fr|] eqn:Hfr.
  2:{ destruct (load_violated a w) as (msg & Heq);
        [right; left; exact Hfr|]. rewrite Heq in Hret. discriminate. }
  destruct (peerAgentModule (hlsjsWrapper w)) eqn:Hm.
  2:{ destruct (load_violated a w) as (msg & Heq);
        [right; right; exact Hm|]. rewrite Heq in Hret. discriminate. }
  assert (Hpre : preconditions_met a w) by (repeat split; eauto).
  rewrite (load_eq a w fr Hpre Hfr) in Hret.
  destruct (loadInternal_cases (stored a fr w))
    as [[e Heq]|[(st & fr' & lvl & Hh & _ & Hfr' & Hl & _ & _)|(_ & _ & Hx & _)]];
    [rewrite Heq in Hret; discriminate| |congruence].
  simpl in Hfr', Hh, Hl. rewrite Hfr in Hfr'. injection Hfr' as <-.
  split; [exact Hpre|]. split; [exact Hh|]. eauto.
Qed.

(** X1. [load] returns normally exactly when a progress callback and a
    fragment are given, the peer agent module exists, no handle is stored
    and the fragment's level is one of [hls.levels]; in every other case it
    throws. *)
Theorem load_returns_iff (a : LoadArgs) (w : World) :
  returned (load a w) = true
  ↔ preconditions_met a w ∧ peerAgentLoader (this w) = None
    ∧ ∃ fr lvl, a_frag a = Some fr
                ∧ levels (hlsjsWrapper w) !! level fr = Some lvl.
Proof.
  split; [apply load_returned_inv|].
  intros (Hpre & Hh & fr & lvl & Hf & Hl).
  rewrite (load_returns a w fr lvl Hpre Hf Hh Hl). reflexivity.
Qed.

(** X2. A [load] whose fragment names a level that [hls.levels] does not
    have throws a [TypeError] from [loadInternal]: no timer is armed and no
    transfer is issued, but the request and a fresh [stats] are already
    stored.  No handle is stored either, so that, unlike after the
    consistency error, a following [load] with a known level returns
    normally. *)
Theorem load_unknown_level (a : LoadArgs) (w : World) (fr : Frag) :
  preconditions_met a w → a_frag a = Some fr →
  peerAgentLoader (this w) = None →
  levels (hlsjsWrapper w) !! level fr = None →
  ∃ msg w', load a w = Throw (TypeError msg) w'
    ∧ timers w' = timers w ∧ inflight w' = inflight w ∧ log w' = log w
    ∧ peerAgentLoader (this w') = None
    ∧ url (this w') = a_url a ∧ frag (this w') = Some fr
    ∧ stats (this w') = Some (fresh_stats w)
    ∧ (∀ a2 fr2 lvl2, is_Some (a_onProgress a2) → a_frag a2 = Some fr2 →
         levels (hlsjsWrapper w) !! level fr2 = Some lvl2 →
         returned (load a2 w') = true).
Proof.
  intros Hpre Hf Hh Hl. rewrite (load_eq a w fr Hpre Hf).
  destruct Hpre as (Hp & _ & Hm).
  assert (Heq : ∃ msg, loadInternal (stored a fr w)
                       = Throw (TypeError msg) (stored a fr w)).
  { unfold loadInternal.
    destruct (truthy_string (byteRange (this (stored a fr w)))) eqn:Hb;
      simpl in Hb; comp_go; rewrite ?Hb; comp_go; eauto. }
  destruct Heq as [msg Heq]. exists msg, (stored a fr w).
  split; [exact Heq|]. repeat split; try reflexivity; try exact Hh; try exact Hf.
  intros a2 fr2 lvl2 Hp2 Hf2 Hl2.
  rewrite (load_returns a2 (stored a fr w) fr2 lvl2); try reflexivity; auto.
  repeat split; eauto.
Qed.

Lemma load_unknown_level_witness :
  ∃ msg w', load (args1 frag_lost 1 1000) fresh1 = Throw (TypeError msg) w'
            ∧ log w' = log fresh1
            ∧ returned (load (args1 frag_plain 1 1000) w') = true.
Proof.
  assert (Hpre : preconditions_met (args1 frag_lost 1 1000) fresh1)
    by (repeat split; simpl; eauto).
  assert (Hl : levels (hlsjsWrapper fresh1) !! level frag_lost = None)
    by reflexivity.
  destruct (load_unknown_level (args1 frag_lost 1 1000) fresh1 frag_lost Hpre
              eq_refl eq_refl Hl)
    as (msg & w' & Heq & _ & _ & Hlog & _ & _ & _ & _ & Hnext).
  exists msg, w'. split; [exact Heq|]. split; [exact Hlog|].
  apply (Hnext (args1 frag_plain 1 1000) frag_plain {| urlId := 7 |});
    [simpl; eauto|reflexivity|reflexivity].
Defined.

(** ** The transfer [load] issues *)

(** X3. A [load] that returns normally has armed one timer, the deadline
    timer with the delay [timeout], and issued one transfer.  Its
    descriptor carries the url given to [load], the credential mode the
    hook asks for and every header of the hook other than [Range]; its
    segment view carries the fragment's [sn], [level] and [start] and the
    [urlId] of that level. *)
Theorem issued_descriptor (a : LoadArgs) (w : World) :
  returned (load a w) = true →
  ∃ fr lvl req,
    a_frag a = Some fr
    ∧ levels (hlsjsWrapper w) !! level fr = Some lvl
    ∧ log (world_of (load a w))
      = log w ++ [SetTimeout (load_deadline a w);
                  GetSegment (next_handle w) req (attempt_segment fr lvl)]
    ∧ timers (world_of (load a w)) = timers w ++ [load_deadline a w]
    ∧ peerAgentLoader (this (world_of (load a w))) = Some (next_handle w)
    ∧ req_url req = a_url a
    ∧ req_withCredentials req
      = withCredentials (extractInfoFromXhrSetup (xhrSetup (this w)) (a_url a))
    ∧ (∀ k, k ≠ "Range" →
         req_headers req !! k
         = headers (extractInfoFromXhrSetup (xhrSetup (this w)) (a_url a)) !! k).
Proof.
  intros Hret.
  destruct (load_returned_inv a w Hret) as (Hpre & Hh & fr & lvl & Hf & Hl).
  rewrite (load_returns a w fr lvl Hpre Hf Hh Hl).
  exists fr, lvl. eexists. split; [exact Hf|]. split; [exact Hl|].
  split; [reflexivity|]. split; [reflexivity|]. split; [reflexivity|].
  split; [reflexivity|]. split; [reflexivity|].
  intros k Hk. simpl. unfold attempt_headers. simpl.
  destruct (truthy_string _); [|reflexivity].
  apply lookup_insert_ne. congruence.
Qed.

Lemma issued_descriptor_witness :
  ∃ req sv,
    last (log (world_of (load (args1 frag_range 1 1000)
                           (new_P2PLoader wrapper1 clock1 (Some (Some hook1))))))
    = Some (GetSegment 1%nat req sv)
    ∧ req_headers req !! "X-Token" = Some "t"
    ∧ req_withCredentials req = true.
Proof.
  assert (Hret : returned (load (args1 frag_range 1 1000)
                             (new_P2PLoader wrapper1 clock1 (Some (Some hook1))))
                 = true) by (vm_compute; reflexivity).
  destruct (issued_descriptor _ _ Hret)
    as (fr & lvl & req & _ & _ & Hlog & _ & _ & _ & Hc & Hh).
  exists req, (attempt_segment fr lvl). split.
  - rewrite Hlog.
    change [SetTimeout (load_deadline (args1 frag_range 1 1000)
                          (new_P2PLoader wrapper1 clock1 (Some (Some hook1))));
            GetSegment (next_handle
                          (new_P2PLoader wrapper1 clock1 (Some (Some hook1))))
              req (attempt_segment fr lvl)]
      with ([SetTimeout (load_deadline (args1 frag_range 1 1000)
                           (new_P2PLoader wrapper1 clock1 (Some (Some hook1))))]
            ++ [GetSegment 1%nat req (attempt_segment fr lvl)]).
    rewrite app_assoc. apply last_snoc.
  - split; [|exact Hc]. rewrite Hh by discriminate. reflexivity.
Defined.

(** ** The provisional [tfirst] of [loadProgress] *)

Lemma loadProgress_timing w st f ev :
  stats (this w) = Some st → onProgress (this w) = Some f →
  ∃ w' st', loadProgress ev w = Ok tt w'
    ∧ stats (this w') = Some st'
    ∧ trequest st' = trequest st
    ∧ tfirst st' = first_byte (clock w (reads w)) st
    ∧ aborted st' = aborted st
    ∧ loaded st' = Some (sample_total ev)
    ∧ onProgress (this w') = Some f
    ∧ log w' = log w ++ [HostProgress f ev st'].
Proof.
  intros Hst Hf. unfold loadProgress, first_byte.
  rewrite progress_bytes_total.
  destruct (tfirst st) eqn:Et; comp_go;
    do 2 eexists; (split; [reflexivity|]); simpl;
    (split; [reflexivity|]); simpl; rewrite ?Et; repeat split; auto.
Qed.

Lemma progress_run_tfirst f h t samples : ∀ w st,
  stats (this w) = Some st → tfirst st = TfNum t →
  onProgress (this w) = Some f →
  omap progress_tfirst (log (run (BackendProgress h <$> samples) w))
  = omap progress_tfirst (log w) ++ replicate (length samples) (TfNum t)
  ∧ ∃ st1, stats (this (run (BackendProgress h <$> samples) w)) = Some st1
           ∧ tfirst st1 = TfNum t ∧ trequest st1 = trequest st.
Proof.
  induction samples as [|ev samples IH]; intros w st Hst Ht Hf.
  - simpl. rewrite app_nil_r. eauto.
  - destruct (loadProgress_timing w st f ev Hst Hf)
      as (w' & st' & Heq & Hst' & Hrq & Htf & _ & _ & Hf' & Hlog).
    unfold first_byte in Htf. rewrite Ht in Htf.
    rewrite fmap_cons, run_cons.
    change (step (BackendProgress h ev) w) with (loadProgress ev w).
    rewrite Heq. change (world_of (Ok () w')) with w'.
    destruct (IH w' st' Hst' Htf Hf') as (Hl & st1 & H1 & H2 & H3).
    split.
    + rewrite Hl, Hlog, omap_app. simpl. rewrite Htf, <- app_assoc. reflexivity.
    + exists st1. split; [exact H1|]. split; [exact H2|congruence].
Qed.

(** X4. From the start of an attempt, where [tfirst] is [null], the first
    progress sample sets [tfirst] to the later of the clock reading it takes
    and [trequest], so never before [trequest]; the samples that follow read
    no clock for it and leave it alone.  Every progress callback of the
    attempt is handed that same [tfirst], and [trequest] is not changed. *)
Theorem tfirst_set_by_first_sample (w : World) (st : Stats) (f : callback)
    (h : handle) (ev : ProgressEvent) (rest : list ProgressEvent) :
  stats (this w) = Some st → tfirst st = TfNull →
  onProgress (this w) = Some f →
  let t0 := Qmax (clock w (reads w)) (trequest st) in
  let w1 := run (BackendProgress h <$> ev :: rest) w in
  (trequest st <= t0)%Q
  ∧ omap progress_tfirst (log w1)
    = omap progress_tfirst (log w) ++ replicate (S (length rest)) (TfNum t0)
  ∧ ∃ st1, stats (this w1) = Some st1 ∧ tfirst st1 = TfNum t0
           ∧ trequest st1 = trequest st.
Proof.
  intros Hst Ht Hf t0 w1. split; [apply Q.le_max_r|].
  destruct (loadProgress_timing w st f ev Hst Hf)
    as (w' & st' & Heq & Hst' & Hrq & Htf & _ & _ & Hf' & Hlog).
  unfold first_byte in Htf. rewrite Ht in Htf. fold t0 in Htf.
  unfold w1. rewrite fmap_cons, run_cons.
  change (step (BackendProgress h ev) w) with (loadProgress ev w).
  rewrite Heq. change (world_of (Ok () w')) with w'.
  destruct (progress_run_tfirst f h t0 rest w' st' Hst' Htf Hf')
    as (Hl & st1 & H1 & H2 & H3).
  split.
  - rewrite Hl, Hlog, omap_app. simpl. rewrite Htf, <- app_assoc. reflexivity.
  - exists st1. split; [exact H1|]. split; [exact H2|congruence].
Qed.

Lemma tfirst_set_by_first_sample_witness :
  ∃ st1, stats (this (run (BackendProgress 1%nat <$> [sample100; sample350])
                        attempt_world)) = Some st1
         ∧ tfirst st1 = TfNum (Qmax (clock1 1) (clock1 0)).
Proof.
  assert (Hst : stats (this attempt_world) = Some attempt_stats)
    by (vm_compute; reflexivity).
  assert (Hf : onProgress (this attempt_world) = Some 4%nat)
    by (vm_compute; reflexivity).
  destruct (tfirst_set_by_first_sample attempt_world attempt_stats 4%nat 1%nat
              sample100 [sample350] Hst eq_refl Hf) as (_ & _ & st1 & H1 & H2 & _).
  exists st1. split; [exact H1|exact H2].
Defined.

(** ** Progress after [abort] *)

(** X5. [loadProgress] does not look at the [aborted] flag.  After an
    [abort()] that found a handle, a progress sample the peer agent still
    sends is handed to the host's progress callback, with a [stats] record
    whose [aborted] flag is set and whose [loaded] is the sample's total. *)
Theorem progress_after_abort (w : World) (h : handle) (st : Stats)
    (f : callback) (ev : ProgressEvent) :
  peerAgentLoader (this w) = Some h → stats (this w) = Some st →
  onProgress (this w) = Some f →
  let w1 := world_of (abort w) in
  ∃ st', returned (loadProgress ev w1) = true
         ∧ log (world_of (loadProgress ev w1))
           = log w ++ [HandleAbort h; HostProgress f ev st']
         ∧ aborted st' = true
         ∧ loaded st' = Some (sample_total ev)
         ∧ stats (this (world_of (loadProgress ev w1))) = Some st'.
Proof.
  intros Hh Hst Hf w1. unfold w1. rewrite (abort_live_eq w h st Hh Hst).
  cbn [world_of].
  edestruct (loadProgress_timing
               (reset_world true
                  (with_log (log w ++ [HandleAbort h])
                     (with_transfers (inflight w) (cancelled w ++ [h]) (next_handle w)
                        (with_this (set_stats (Some (set_aborted true st))) w))))
               (set_aborted true st) f ev)
    as (w' & st' & Heq & Hst' & _ & _ & Hab & Hl & _ & Hlog);
    [reflexivity|exact Hf|].
  exists st'. rewrite Heq. simpl.
  split; [reflexivity|]. split; [rewrite Hlog; simpl; rewrite <- app_assoc; reflexivity|].
  split; [exact Hab|]. split; [exact Hl|exact Hst'].
Qed.

Lemma progress_after_abort_witness :
  ∃ st', log (world_of (loadProgress sample350 (world_of (abort attempt_world))))
         = log attempt_world ++ [HandleAbort 1%nat; HostProgress 4%nat sample350 st']
         ∧ aborted st' = true.
Proof.
  assert (Hh : peerAgentLoader (this attempt_world) = Some 1%nat)
    by (vm_compute; reflexivity).
  assert (Hst : stats (this attempt_world) = Some attempt_stats)
    by (vm_compute; reflexivity).
  assert (Hf : onProgress (this attempt_world) = Some 4%nat)
    by (vm_compute; reflexivity).
  destruct (progress_after_abort attempt_world 1%nat attempt_stats 4%nat sample350
              Hh Hst Hf) as (st' & _ & Hl & Hab & _).
  exists st'. split; [exact Hl|exact Hab].
Defined.

(** ** The deadline *)

Lemma drop_timer_singleton tm : drop_timer (tm_id tm) [tm] = [].
Proof. unfold drop_timer. rewrite filter_cons_False by (simpl; auto). reflexivity. Qed.

(** X6. When the deadline timer fires, [loadTimeout] only tells the host:
    the timeout callback is called with the current [stats], the instance
    is not changed (the handle stays stored, no retry is counted), the peer
    agent is not told to cancel the transfer, and no timer is left.  The
    transfer goes on, and its success is handed to the host afterwards. *)
Theorem deadline_leaves_transfer (w : World) (tm : Timer) (h : handle)
    (st : Stats) (ft g : callback) (d : string) (bs : BackendStats) :
  timers w = [tm] → tm_task tm = RunLoadTimeout →
  peerAgentLoader (this w) = Some h →
  stats (this w) = Some st → aborted st = false →
  onTimeout (this w) = Some ft → onSuccess (this w) = Some g →
  let w1 := world_of (fire (tm_id tm) w) in
  returned (fire (tm_id tm) w) = true
  ∧ log w1 = log w ++ [HostTimeout ft (Some st)]
  ∧ this w1 = this w
  ∧ inflight w1 = inflight w ∧ cancelled w1 = cancelled w
  ∧ timers w1 = []
  ∧ ∃ st', log (run [BackendSuccess h d bs] w1)
           = log w1 ++ [HostSuccess g d st'].
Proof.
  intros Ht Hk Hh Hst Hab Hft Hg w1.
  assert (Hfire : fire (tm_id tm) w
                  = Ok tt (with_log (log w ++ [HostTimeout ft (Some st)])
                             (with_timers [] (next_timer w) w))).
  { unfold fire. rewrite Ht, find_timer_singleton.
    destruct (decide (tm_id tm = tm_id tm)) as [_|Hne]; [|congruence].
    rewrite Hk, drop_timer_singleton. simpl. unfold loadTimeout. comp_go.
    rewrite ?Hft; simpl; rewrite ?Hst; reflexivity. }
  unfold w1. rewrite Hfire. cbn [world_of].
  split; [reflexivity|]. split; [reflexivity|]. split; [reflexivity|].
  split; [reflexivity|]. split; [reflexivity|]. split; [reflexivity|].
  unfold run, step. unfold mbind at 1, comp_bind, settle. cbn [world_of].
  edestruct (loadSuccess_ok
               (with_transfers
                  (filter (λ x, x ≠ h) (inflight w)) (cancelled w) (next_handle w)
                  (with_log (log w ++ [HostTimeout ft (Some st)])
                     (with_timers [] (next_timer w) w)))
               st g d bs) as (st' & Hl & _); [exact Hst|exact Hab|exact Hg|].
  exists st'. exact Hl.
Qed.

Lemma deadline_leaves_transfer_witness :
  ∃ st', log (run [BackendSuccess 1%nat "seg" bs_p2p]
                (world_of (fire 1%nat attempt_world)))
         = log (world_of (fire 1%nat attempt_world)) ++ [HostSuccess 1%nat "seg" st'].
Proof.
  assert (Ht : timers attempt_world
               = [{| tm_id := 1%nat; tm_task := RunLoadTimeout; tm_delay := 20000 |}])
    by (vm_compute; reflexivity).
  assert (Hh : peerAgentLoader (this attempt_world) = Some 1%nat)
    by (vm_compute; reflexivity).
  assert (Hst : stats (this attempt_world) = Some attempt_stats)
    by (vm_compute; reflexivity).
  assert (Hft : onTimeout (this attempt_world) = Some 3%nat)
    by (vm_compute; reflexivity).
  assert (Hg : onSuccess (this attempt_world) = Some 1%nat)
    by (vm_compute; reflexivity).
  destruct (deadline_leaves_transfer attempt_world _ 1%nat attempt_stats 3%nat 1%nat
              "seg" bs_p2p Ht eq_refl Hh Hst eq_refl Hft Hg)
    as (_ & _ & _ & _ & _ & _ & st' & Hl).
  exists st'. exact Hl.
Defined.

(** ** [abort] and [destroy] *)

Lemma reset_world_idem w :
  reset_world true (reset_world true w) = reset_world true w.
Proof. destruct w as [o ? ? ? ? ? ? ? ? ?]. destruct o. reflexivity. Qed.

Lemma abort_twice w : world_of (abort (world_of (abort w))) = world_of (abort w).
Proof.
  destruct (peerAgentLoader (this w)) as [h|] eqn:Hh.
  - destruct (stats (this w)) as [st|] eqn:Hst.
    + rewrite (abort_live_eq w h st Hh Hst). cbn [world_of].
      rewrite abort_idle_eq by reflexivity. cbn [world_of].
      apply reset_world_idem.
    + rewrite !(abort_nostats w h Hh Hst). reflexivity.
  - rewrite (abort_idle_eq w Hh). cbn [world_of].
    rewrite abort_idle_eq by reflexivity. cbn [world_of].
    apply reset_world_idem.
Qed.

(** X7. [abort] and [destroy] are idempotent, in every world and in every
    combination: a second call, of either, changes nothing and adds nothing
    to the log, so the peer agent is told to cancel a transfer at most
    once. *)
Theorem abort_destroy_idempotent (w : World) :
  run [CallAbort; CallAbort] w = run [CallAbort] w
  ∧ run [CallAbort; CallDestroy] w = run [CallAbort] w
  ∧ run [CallDestroy; CallAbort] w = run [CallDestroy] w
  ∧ run [CallDestroy; CallDestroy] w = run [CallDestroy] w.
Proof. repeat split; apply abort_twice. Qed.

(** X8. In a consistent world where a stored handle comes with a [stats]
    record, [abort] returns normally and leaves the instance at rest: no
    timer pending (a scheduled retry is cancelled with the deadline), no
    handle stored, no transfer live.  No timer fires afterwards, and a
    [load] whose fragment and level are known is accepted. *)
Theorem abort_reaches_rest (w : World) :
  consistent w → handle_has_stats w →
  let w1 := world_of (abort w) in
  returned (abort w) = true
  ∧ at_rest w1
  ∧ (∀ t, fire t w1 = Ok tt w1)
  ∧ (∀ a fr lvl, is_Some (a_onProgress a) → a_frag a = Some fr →
       levels (hlsjsWrapper w) !! level fr = Some lvl →
       peerAgentModule (hlsjsWrapper w) = true →
       returned (load a w1) = true).
Proof.
  intros Hc Hs w1.
  assert (Hrest : returned (abort w) = true ∧ at_rest w1
                  ∧ hlsjsWrapper w1 = hlsjsWrapper w).
  { unfold w1. destruct (peerAgentLoader (this w)) as [h|] eqn:Hh.
    - destruct (Hs ltac:(rewrite Hh; eauto)) as [st Hst].
      rewrite (abort_live_eq w h st Hh Hst). cbn [world_of].
      split; [reflexivity|]. split; [|reflexivity].
      split; [|split; [reflexivity|]].
      + apply reset_clears_timers.
        destruct (c_timers w Hc) as [Ht|[(tm & Ht & Hk & Hid & Hp)|(tm & Ht & Hk & Hid & Hp)]].
        * left. exact Ht.
        * right. left. exists tm. repeat split; assumption.
        * congruence.
      + intros h' [Hin Hnc]. simpl in Hin, Hnc.
        assert (Hl : live h' w).
        { split; [exact Hin|]. intros Hx. apply Hnc. apply elem_of_app. left. exact Hx. }
        apply (c_live w Hc) in Hl. rewrite Hh in Hl. injection Hl as <-.
        apply Hnc. apply elem_of_app. right. left.
    - rewrite (abort_idle_eq w Hh). cbn [world_of].
      split; [reflexivity|]. split; [|reflexivity].
      split; [apply reset_clears_timers, (c_timers w Hc)|]. split; [reflexivity|].
      intros h' Hl.
      assert (Hl' : live h' w) by exact Hl.
      apply (c_live w Hc) in Hl'. congruence. }
  destruct Hrest as (Hret & Hrest & Hwr).
  split; [exact Hret|]. split; [exact Hrest|]. split.
  - intros t. unfold fire. destruct Hrest as (Ht & _). rewrite Ht. reflexivity.
  - intros a fr lvl Hp Hf Hlvl Hm.
    destruct Hrest as (_ & Hh1 & _).
    erewrite load_returns; [reflexivity| |exact Hf|exact Hh1|rewrite Hwr; exact Hlvl].
    repeat split; [exact Hp|rewrite Hf; eauto|rewrite Hwr; exact Hm].
Qed.

Lemma abort_reaches_rest_witness :
  armed RunLoadInternal pausing_world
  ∧ at_rest (world_of (abort pausing_world)).
Proof.
  assert (Hc : consistent pausing_world).
  { apply consistent_run; [apply consistent_new|].
    apply (bool_decide_unpack _). vm_compute. reflexivity. }
  assert (Hs : handle_has_stats pausing_world).
  { intros [h Hh]. vm_compute in Hh. discriminate Hh. }
  split.
  - apply (bool_decide_unpack _). vm_compute. reflexivity.
  - destruct (abort_reaches_rest pausing_world Hc Hs) as (_ & H & _). exact H.
Defined.

(** ** Terminal callbacks the host did not supply *)

Lemma loadSuccess_no_callback w st d bs :
  stats (this w) = Some st → aborted st = false → onSuccess (this w) = None →
  returned (loadSuccess d bs w) = false
  ∧ log (world_of (loadSuccess d bs w)) = log w
  ∧ control (world_of (loadSuccess d bs w)) = control w.
Proof.
  intros Hst Hab Hg. unfold loadSuccess. comp_go.
  destruct (Qpositive _ && _);
    comp_go; rewrite ?Hg; simpl; repeat split.
Qed.

Lemma loadError_no_callback w st e :
  stats (this w) = Some st → aborted st = false →
  ¬ retry st < maxRetry (this w) → onError (this w) = None →
  returned (loadError e w) = false
  ∧ log (world_of (loadError e w)) = log w ++ [ConsoleError (status e) (url (this w))]
  ∧ control (world_of (loadError e w)) = control w.
Proof.
  intros Hst Hab Hge Hf. unfold loadError. comp_go.
  destruct (retry st <? maxRetry (this w)) eqn:E; [apply Z.ltb_lt in E; lia|].
  comp_go. rewrite ?Hf; simpl. repeat split.
Qed.

(** X9. [load] checks the progress callback only.  When it returned for
    arguments without a success callback, the success of the transfer
    throws into the peer agent, nothing is handed to the host, and [reset]
    is not reached: handle and deadline timer stay as they were, so that
    every later [load] throws the "unfinalized request" error.  The same
    holds for a missing error callback when a failure is out of retries,
    after the console error has been written. *)
Theorem terminal_callback_missing (a : LoadArgs) (w : World) (d : string)
    (bs : BackendStats) (e : HttpError) :
  returned (load a w) = true →
  let w1 := world_of (load a w) in
  (a_onSuccess a = None →
     returned (loadSuccess d bs w1) = false
     ∧ log (world_of (loadSuccess d bs w1)) = log w1
     ∧ control (world_of (loadSuccess d bs w1)) = control w1
     ∧ ∀ a', preconditions_met a' (world_of (loadSuccess d bs w1)) →
         ∃ w3, load a' (world_of (loadSuccess d bs w1)) = Throw unfinalized w3)
  ∧ (a_onError a = None → a_maxRetry a ≤ 0 →
     returned (loadError e w1) = false
     ∧ log (world_of (loadError e w1)) = log w1 ++ [ConsoleError (status e) (a_url a)]
     ∧ control (world_of (loadError e w1)) = control w1
     ∧ ∀ a', preconditions_met a' (world_of (loadError e w1)) →
         ∃ w3, load a' (world_of (loadError e w1)) = Throw unfinalized w3).
Proof.
  intros Hret w1.
  destruct (load_returned_inv a w Hret) as (Hpre & Hh & fr & lvl & Hf & Hl).
  assert (Hw1 : w1 = started (stored a fr w) (fresh_stats w) fr lvl).
  { unfold w1. rewrite (load_returns a w fr lvl Hpre Hf Hh Hl). reflexivity. }
  assert (Hstuck : ∀ w2, control w2 = control w1 →
            ∀ a', preconditions_met a' w2 → ∃ w3, load a' w2 = Throw unfinalized w3).
  { intros w2 Hc a' Hpre'. destruct (Hpre') as (_ & [fr' Hf'] & _).
    apply control_eq in Hc as (_ & _ & Hp & _).
    rewrite Hw1 in Hp. simpl in Hp.
    exists (stored a' fr' w2). rewrite (load_eq a' w2 fr' Hpre' Hf').
    apply (loadInternal_live _ (next_handle w)). simpl. exact Hp. }
  split.
  - intros Hg.
    destruct (loadSuccess_no_callback w1 (set_loaded (Some 0) (set_tfirst TfNull (fresh_stats w)))
                d bs) as (H1 & H2 & H3);
      [rewrite Hw1; reflexivity|reflexivity|rewrite Hw1; exact Hg|].
    split; [exact H1|]. split; [exact H2|]. split; [exact H3|].
    apply Hstuck. exact H3.
  - intros Hg Hm.
    destruct (loadError_no_callback w1 (set_loaded (Some 0) (set_tfirst TfNull (fresh_stats w)))
                e) as (H1 & H2 & H3);
      [rewrite Hw1; reflexivity|reflexivity|rewrite Hw1; simpl; lia
      |rewrite Hw1; exact Hg|].
    split; [exact H1|]. split; [rewrite H2, Hw1; reflexivity|]. split; [exact H3|].
    apply Hstuck. exact H3.
Qed.

Lemma terminal_callback_missing_witness :
  returned (loadSuccess "seg" bs0 (world_of (load (args_bare frag_plain) fresh1)))
  = false
  ∧ ∃ w3, load (args1 frag_plain 1 1000)
            (world_of (loadSuccess "seg" bs0
                         (world_of (load (args_bare frag_plain) fresh1))))
          = Throw unfinalized w3.
Proof.
  assert (Hret : returned (load (args_bare frag_plain) fresh1) = true)
    by (vm_compute; reflexivity).
  destruct (terminal_callback_missing (args_bare frag_plain) fresh1 "seg" bs0 e500 Hret)
    as [Hs _].
  destruct (Hs eq_refl) as (H1 & _ & _ & H4).
  split; [exact H1|]. apply H4.
  repeat split; simpl; eauto.
Defined.

(** ** The failure that is out of retries *)

Lemma loadError_exhausted_eq w st f e :
  stats (this w) = Some st → aborted st = false →
  ¬ retry st < maxRetry (this w) → onError (this w) = Some f →
  loadError e w
  = Ok tt (reset_world true
             (with_log (log w ++ [ConsoleError (status e) (url (this w));
                                  HostError f (status e)]) w)).
Proof.
  intros Hst Hab Hge Hf. unfold loadError. comp_go.
  destruct (retry st <? maxRetry (this w)) eqn:E; [apply Z.ltb_lt in E; lia|].
  comp_go. rewrite ?Hf; simpl. rewrite ?reset_eq, <- ?app_assoc. reflexivity.
Qed.

Lemma session_load a w :
  preconditions_met a w →
  session (world_of (load a w))
  = (a_frag a, a_onSuccess a, a_onError a, a_maxRetry a, Some false, hlsjsWrapper w).
Proof.
  intros Hpre. destruct (Hpre) as (_ & [fr Hf] & _).
  rewrite (load_eq a w fr Hpre Hf).
  apply (session_loadInternal _ (stored a fr w)).
  unfold session. simpl. rewrite Hf. reflexivity.
Qed.

Lemma session_run x evs : ∀ w,
  Forall from_backend_or_timer evs → session w = x → session (run evs w) = x.
Proof.
  induction evs as [|e evs IH]; intros w Hall Hw; [exact Hw|].
  apply Forall_cons in Hall as [He Hall]. rewrite run_cons.
  apply IH; [exact Hall|]. apply (session_step x e He). exact Hw.
Qed.

(** X10. After a [load] with retry budget [maxRetry], once a run of
    peer-agent callbacks and timer firings has seen as many failures as
    [maxRetry], the next failure is not retried: a console error is written,
    the error callback the host supplied is called with the status of that
    last failure, no retry timer is armed, the retry count and the stored
    delay stay, and the handle is dropped. *)
Theorem last_failure_reported (a : LoadArgs) (w : World) (evs : list Event)
    (e : HttpError) (f : callback) :
  preconditions_met a w → a_onError a = Some f →
  Forall from_backend_or_timer evs →
  Z.of_nat (failures evs) = a_maxRetry a →
  let w2 := run evs (world_of (load a w)) in
  let w3 := world_of (loadError e w2) in
  returned (loadError e w2) = true
  ∧ log w3 = log w2 ++ [ConsoleError (status e) (url (this w2));
                        HostError f (status e)]
  ∧ retry_view w3 = retry_view w2
  ∧ retry <$> stats (this w3) = Some (a_maxRetry a)
  ∧ peerAgentLoader (this w3) = None.
Proof.
  intros Hpre Hf Hall Hn w2 w3.
  pose proof (retry_run evs _ _ _ _ _ Hall (retry_view_load a w Hpre)
                ltac:(lia)) as Hv.
  pose proof (session_run _ evs _ Hall (session_load a w Hpre)) as Hs.
  fold w2 in Hv, Hs. unfold retry_view in Hv. unfold session in Hs.
  destruct (stats (this w2)) as [st|] eqn:Hst; simpl in Hv; [|congruence].
  assert (maxRetry (this w2) = a_maxRetry a ∧ retry st = 0 + Z.of_nat (failures evs)
          ∧ aborted st = false)
    as (Hm & Hr & Hab) by (repeat split; congruence).
  assert (Hf2 : onError (this w2) = Some f) by congruence.
  unfold w3.
  rewrite (loadError_exhausted_eq w2 st f e Hst Hab ltac:(lia) Hf2).
  cbn [world_of returned].
  split; [reflexivity|]. split; [reflexivity|]. split.
  - unfold retry_view. simpl. rewrite retry_delays_app. simpl.
    rewrite app_nil_r, Hst. reflexivity.
  - split; [|reflexivity]. simpl. rewrite Hst. simpl. f_equal. lia.
Qed.

Lemma last_failure_reported_witness :
  log (world_of (loadError {| status := 404 |}
                   (run [BackendError 1%nat e500; TimerFire 2%nat]
                      (world_of (load (args1 frag_plain 1 1000) fresh1)))))
  = log (run [BackendError 1%nat e500; TimerFire 2%nat]
           (world_of (load (args1 frag_plain 1 1000) fresh1)))
    ++ [ConsoleError 404
          (url (this (run [BackendError 1%nat e500; TimerFire 2%nat]
                        (world_of (load (args1 frag_plain 1 1000) fresh1)))));
        HostError 2%nat 404].
Proof.
  assert (Hpre : preconditions_met (args1 frag_plain 1 1000) fresh1)
    by (repeat split; simpl; eauto).
  assert (Hall : Forall from_backend_or_timer
                   [BackendError 1%nat e500; TimerFire 2%nat])
    by (repeat constructor).
  destruct (last_failure_reported (args1 frag_plain 1 1000) fresh1
              [BackendError 1%nat e500; TimerFire 2%nat] {| status := 404 |} 2%nat
              Hpre eq_refl Hall eq_refl) as (_ & H & _).
  exact H.
Defined.

(** ** The request time across retries *)

Ltac request_time_prim := frame_prim ltac:(idtac; unfold request_time).

Lemma request_time_reset x b : keeps (λ w, request_time w = x) (reset b).
Proof. intros w Hw. rewrite reset_eq. destruct b; exact Hw. Qed.

Lemma request_time_loadProgress x ev :
  keeps (λ w, request_time w = x) (loadProgress ev).
Proof. unfold loadProgress. keeps_walk request_time_prim. Qed.

Lemma request_time_loadError x e : keeps (λ w, request_time w = x) (loadError e).
Proof.
  unfold loadError.
  keeps_walk ltac:(idtac; first [apply request_time_reset|request_time_prim]).
Qed.

Lemma request_time_loadTimeout x : keeps (λ w, request_time w = x) loadTimeout.
Proof. unfold loadTimeout. keeps_walk request_time_prim. Qed.

Lemma request_time_loadInternal x : keeps (λ w, request_time w = x) loadInternal.
Proof. unfold loadInternal. keeps_walk request_time_prim. Qed.

Lemma request_time_step x e :
  no_success e → keeps (λ w, request_time w = x) (step e).
Proof.
  intros Hn. destruct e; simpl in *; try contradiction.
  - apply keeps_bind; [intros w Hw; exact Hw|intros _].
    apply request_time_loadError.
  - apply request_time_loadProgress.
  - intros w Hw. unfold fire.
    destruct (find_timer t (timers w)) as [tm|]; [|exact Hw].
    destruct (tm_task tm); simpl.
    + apply request_time_loadTimeout. exact Hw.
    + apply request_time_loadInternal. exact Hw.
Qed.

(** X11. [stats.trequest] is the clock reading [load] took, and nothing but
    a success changes it: through failures, retries, progress samples and
    the deadline it stays the time of the [load] call, so that a retried
    attempt is not timed from its own start. *)
Theorem trequest_survives_retries (a : LoadArgs) (w : World) (evs : list Event) :
  preconditions_met a w → Forall no_success evs →
  request_time (run evs (world_of (load a w))) = Some (clock w (reads w)).
Proof.
  intros Hpre Hall.
  assert (H1 : request_time (world_of (load a w)) = Some (clock w (reads w))).
  { destruct (Hpre) as (_ & [fr Hf] & _). rewrite (load_eq a w fr Hpre Hf).
    apply (request_time_loadInternal _ (stored a fr w)). reflexivity. }
  revert H1. generalize (world_of (load a w)). 
  induction evs as [|e evs IH]; intros w1 H1; [exact H1|].
  apply Forall_cons in Hall as [He Hall]. rewrite run_cons.
  apply (IH Hall). apply (request_time_step _ e He). exact H1.
Qed.

Lemma trequest_survives_retries_witness :
  request_time (run [BackendError 1%nat e500; TimerFire 2%nat;
                     BackendProgress 2%nat sample100]
                  (world_of (load (args1 frag_plain 1 1000) fresh1)))
  = Some (clock fresh1 (reads fresh1)).
Proof.
  apply trequest_survives_retries.
  - repeat split; simpl; eauto.
  - repeat constructor.
Defined.

(** ** Growth of the retry delay *)

Lemma backoff_bounds (d : Z) (k : nat) :
  0 ≤ d ≤ 64000 →
  d ≤ Nat.iter k backoff d ≤ 64000
  ∧ Nat.iter k backoff d ≤ Nat.iter (S k) backoff d ≤ 2 * Nat.iter k backoff d.
Proof.
  intros Hd. induction k as [|k [IH1 IH2]].
  - simpl. unfold backoff. lia.
  - rewrite !Nat.iter_succ in *. unfold backoff in *. lia.
Qed.

(** X12. For an initial delay between 0 and 64000, the delays of the retry
    timers armed after a [load] never shrink, at most double from one retry
    to the next, and stay between the initial delay and 64000; there is one
    per failure. *)
Theorem retry_delays_grow (a : LoadArgs) (w : World) (evs : list Event) :
  preconditions_met a w →
  Forall from_backend_or_timer evs →
  Z.of_nat (failures evs) ≤ a_maxRetry a →
  0 ≤ a_retryDelay a ≤ 64000 →
  ∃ new, retry_delays (log (run evs (world_of (load a w))))
         = retry_delays (log w) ++ new
    ∧ length new = failures evs
    ∧ Forall (λ x, a_retryDelay a ≤ x ≤ 64000) new
    ∧ ∀ i x y, new !! i = Some x → new !! S i = Some y → x ≤ y ≤ 2 * x.
Proof.
  intros Hpre Hall Hle Hd.
  pose proof (retry_run evs _ _ _ _ _ Hall (retry_view_load a w Hpre)
                ltac:(lia)) as Hv.
  unfold retry_view in Hv.
  exists ((λ k, Nat.iter k backoff (a_retryDelay a)) <$> seq 0 (failures evs)).
  split; [congruence|]. split; [rewrite length_fmap, length_seq; reflexivity|].
  split.
  - apply Forall_fmap, Forall_forall. intros k _. simpl.
    apply (backoff_bounds _ k Hd).
  - intros i x y Hx Hy.
    rewrite list_lookup_fmap in Hx, Hy.
    destruct (seq 0 (failures evs) !! i) as [k|] eqn:Ek; [|discriminate].
    destruct (seq 0 (failures evs) !! S i) as [k'|] eqn:Ek'; [|discriminate].
    apply lookup_seq in Ek as [-> _]. apply lookup_seq in Ek' as [-> _].
    simpl in Hx, Hy. injection Hx as <-. injection Hy as <-.
    apply (backoff_bounds _ i Hd).
Qed.

Lemma retry_delays_grow_witness :
  ∃ new, retry_delays
           (log (run [BackendError 1%nat e500; TimerFire 2%nat; BackendError 2%nat e500]
                   (world_of (load (args1 frag_plain 3 40000) fresh1))))
         = retry_delays (log fresh1) ++ new
         ∧ Forall (λ x, 40000 ≤ x ≤ 64000) new.
Proof.
  assert (Hpre : preconditions_met (args1 frag_plain 3 40000) fresh1)
    by (repeat split; simpl; eauto).
  assert (Hall : Forall from_backend_or_timer
                   [BackendError 1%nat e500; TimerFire 2%nat; BackendError 2%nat e500])
    by (repeat constructor).
  destruct (retry_delays_grow (args1 frag_plain 3 40000) fresh1 _ Hpre Hall
              ltac:(simpl; lia) ltac:(simpl; lia)) as (new & H1 & _ & H3 & _).
  exists new. split; [exact H1|exact H3].
Defined.

(** ** A new instance *)

(** X13. [new P2PLoader(config)] leaves an instance at rest with an empty
    log, whose [xhrSetup] is the one of [config] if there is a [config].
    On it [abort] and [destroy] return without any effect, and the three
    callbacks of the peer agent throw a [TypeError], there being no [stats]
    yet, and change nothing. *)
Theorem new_instance_idle (wr : HlsjsWrapper) (clk : nat → Q)
    (cfg : option (option (string → XhrInfo))) :
  let w := new_P2PLoader wr clk cfg in
  xhrSetup (this w) = default None cfg
  ∧ log w = [] ∧ at_rest w
  ∧ abort w = Ok tt w ∧ destroy w = Ok tt w
  ∧ (∀ d bs, ∃ msg, loadSuccess d bs w = Throw (TypeError msg) w)
  ∧ (∀ e, ∃ msg, loadError e w = Throw (TypeError msg) w)
  ∧ (∀ ev, ∃ msg, loadProgress ev w = Throw (TypeError msg) w).
Proof.
  intros w. unfold w, new_P2PLoader, constructor, destroy.
  destruct cfg as [setup|]; comp_go; rewrite ?reset_eq; cbn [world_of];
    (split; [reflexivity|]); (split; [reflexivity|]);
    (split; [split; [reflexivity|split; [reflexivity|]];
             intros h [Hin _]; apply elem_of_nil in Hin; exact Hin|]);
    (split; [reflexivity|]); (split; [reflexivity|]);
    (split; [intros d bs|split; [intros e|intros ev]]);
    eexists; reflexivity.
Qed.

(** ** The transfers of the retries *)

Lemma issued_app l1 l2 : issued (l1 ++ l2) = issued l1 ++ issued l2.
Proof. apply omap_app. Qed.

Ltac issued_prim :=
  frame_prim ltac:(idtac; rewrite ?issued_app; simpl; rewrite ?app_nil_r).
Ltac request_view_prim := frame_prim ltac:(idtac; unfold request_view).

Lemma issued_reset l b : keeps (λ w, issued (log w) = l) (reset b).
Proof. intros w Hw. rewrite reset_eq. destruct b; exact Hw. Qed.

Lemma issued_loadProgress l ev : keeps (λ w, issued (log w) = l) (loadProgress ev).
Proof. unfold loadProgress. keeps_walk issued_prim. Qed.

Lemma issued_loadSuccess l d bs : keeps (λ w, issued (log w) = l) (loadSuccess d bs).
Proof.
  unfold loadSuccess. keeps_walk ltac:(idtac; first [apply issued_reset|issued_prim]).
Qed.

Lemma issued_loadError l e : keeps (λ w, issued (log w) = l) (loadError e).
Proof.
  unfold loadError. keeps_walk ltac:(idtac; first [apply issued_reset|issued_prim]).
Qed.

Lemma issued_loadTimeout l : keeps (λ w, issued (log w) = l) loadTimeout.
Proof. unfold loadTimeout. keeps_walk issued_prim. Qed.

Lemma request_view_reset x b : keeps (λ w, request_view w = x) (reset b).
Proof. intros w Hw. rewrite reset_eq. destruct b; exact Hw. Qed.

Lemma request_view_loadProgress x ev :
  keeps (λ w, request_view w = x) (loadProgress ev).
Proof. unfold loadProgress. keeps_walk request_view_prim. Qed.

Lemma request_view_loadSuccess x d bs :
  keeps (λ w, request_view w = x) (loadSuccess d bs).
Proof.
  unfold loadSuccess.
  keeps_walk ltac:(idtac; first [apply request_view_reset|request_view_prim]).
Qed.

Lemma request_view_loadError x e : keeps (λ w, request_view w = x) (loadError e).
Proof.
  unfold loadError.
  keeps_walk ltac:(idtac; first [apply request_view_reset|request_view_prim]).
Qed.

Lemma request_view_loadTimeout x : keeps (λ w, request_view w = x) loadTimeout.
Proof. unfold loadTimeout. keeps_walk request_view_prim. Qed.

Lemma request_view_loadInternal x : keeps (λ w, request_view w = x) loadInternal.
Proof. unfold loadInternal. keeps_walk request_view_prim. Qed.

Lemma request_view_step x e :
  from_backend_or_timer e → keeps (λ w, request_view w = x) (step e).
Proof.
  intros Hb. destruct e; simpl in *; try contradiction.
  - apply keeps_bind; [intros w Hw; exact Hw|intros _].
    apply request_view_loadSuccess.
  - apply keeps_bind; [intros w Hw; exact Hw|intros _].
    apply request_view_loadError.
  - apply request_view_loadProgress.
  - intros w Hw. unfold fire.
    destruct (find_timer t (timers w)) as [tm|]; [|exact Hw].
    destruct (tm_task tm); simpl.
    + apply request_view_loadTimeout. exact Hw.
    + apply request_view_loadInternal. exact Hw.
Qed.

Ltac nomodule_prim :=
  idtac;
  match goal with
  | |- keeps _ _ =>
      let w := fresh "w" in
      let Hm := fresh "Hm" in
      let Hw := fresh "Hw" in
      intros w [Hm Hw]; rewrite <- Hw; clear Hw;
      comp_unfold; simpl; rewrite ?Hm; repeat case_match; simpl;
      (split; [first [assumption|reflexivity]|]);
      rewrite ?issued_app; simpl; rewrite ?app_nil_r; try reflexivity
  end.

Lemma issued_loadInternal_nomodule l :
  keeps (λ w, peerAgentModule (hlsjsWrapper w) = false ∧ issued (log w) = l)
    loadInternal.
Proof. unfold loadInternal. keeps_walk nomodule_prim. Qed.

Lemma loadInternal_issued w fr lvl :
  frag (this w) = Some fr → levels (hlsjsWrapper w) !! level fr = Some lvl →
  issued (log (world_of (loadInternal w))) = issued (log w)
  ∨ issued (log (world_of (loadInternal w)))
    = issued (log w) ++ [(attempt_request (this w) fr, attempt_segment fr lvl)].
Proof.
  intros Hf Hl.
  destruct (peerAgentModule (hlsjsWrapper w)) eqn:Hm.
  - destruct (loadInternal_cases w)
      as [[e He]|[(st & fr' & lvl' & _ & _ & Hf' & Hl' & _ & Heq)|(_ & Hm' & _)]].
    + rewrite He. left. reflexivity.
    + rewrite Heq. right. cbn [world_of]. simpl log.
      rewrite issued_app. simpl.
      assert (fr' = fr) as -> by congruence.
      assert (lvl' = lvl) as -> by congruence.
      reflexivity.
    + congruence.
  - left. apply (issued_loadInternal_nomodule (issued (log w)) w). split; [exact Hm|reflexivity].
Qed.

Lemma issued_step e w fr lvl :
  from_backend_or_timer e →
  frag (this w) = Some fr → levels (hlsjsWrapper w) !! level fr = Some lvl →
  issued (log (world_of (step e w))) = issued (log w)
  ∨ (fires [e] = 1%nat
     ∧ issued (log (world_of (step e w)))
       = issued (log w) ++ [(attempt_request (this w) fr, attempt_segment fr lvl)]).
Proof.
  intros Hb Hf Hl. destruct e; simpl in Hb; try contradiction.
  - left. simpl. unfold mbind, comp_bind, settle.
    apply (issued_loadSuccess _ segmentData bs). reflexivity.
  - left. simpl. unfold mbind, comp_bind, settle.
    apply (issued_loadError _ e). reflexivity.
  - left. apply (issued_loadProgress _ ev w). reflexivity.
  - simpl. unfold fire. destruct (find_timer t (timers w)) as [tm|]; [|left; reflexivity].
    destruct (tm_task tm); simpl.
    + left. apply (issued_loadTimeout _ (with_timers _ _ w)). reflexivity.
    + destruct (loadInternal_issued (with_timers (drop_timer t (timers w))
                                       (next_timer w) w) fr lvl Hf Hl) as [H|H];
        [left; exact H|right; split; [reflexivity|exact H]].
Qed.

Lemma fires_cons e evs : fires (e :: evs) = (fires [e] + fires evs)%nat.
Proof. destruct e; reflexivity. Qed.

Lemma attempt_request_view w w' fr :
  request_view w' = request_view w →
  attempt_request (this w') fr = attempt_request (this w) fr.
Proof.
  unfold request_view. intros H.
  assert (xhrSetup (this w') = xhrSetup (this w) ∧ byteRange (this w') = byteRange (this w)
          ∧ url (this w') = url (this w)) as (H1 & H2 & H3)
    by (repeat split; congruence).
  unfold attempt_request, attempt_headers. rewrite H1, H2, H3. reflexivity.
Qed.

(** X14. Every retry asks for the same thing.  In a run of peer-agent
    callbacks and timer firings the descriptor (url, headers with the
    [Range] entry, credential mode) and the segment view of every transfer
    issued are those computed from the request fields as they are at the
    start of the run: the retries of a request repeat its first transfer.
    Transfers are issued by timer firings only, at most one each. *)
Theorem retries_repeat_request (evs : list Event) (w : World) (fr : Frag)
    (lvl : Level) :
  Forall from_backend_or_timer evs →
  frag (this w) = Some fr → levels (hlsjsWrapper w) !! level fr = Some lvl →
  ∃ n, (n ≤ fires evs)%nat
       ∧ issued (log (run evs w))
         = issued (log w)
           ++ replicate n (attempt_request (this w) fr, attempt_segment fr lvl).
Proof.
  revert w. induction evs as [|e evs IH]; intros w Hall Hf Hl.
  - exists 0%nat. simpl. rewrite app_nil_r. split; [lia|reflexivity].
  - apply Forall_cons in Hall as [He Hall]. rewrite run_cons, fires_cons.
    pose proof (request_view_step _ e He w eq_refl) as Hv. cbv beta in Hv.
    assert (frag (this (world_of (step e w))) = Some fr
            ∧ hlsjsWrapper (world_of (step e w)) = hlsjsWrapper w) as [Hf' Hw'].
    { unfold request_view in Hv. split; congruence. }
    destruct (IH (world_of (step e w)) Hall Hf' ltac:(rewrite Hw'; exact Hl))
      as (n & Hle & Hn).
    rewrite (attempt_request_view _ _ fr Hv) in Hn.
    destruct (issued_step e w fr lvl He Hf Hl) as [Hs|[Hfire Hs]]; rewrite Hs in Hn.
    + exists n. split; [lia|exact Hn].
    + exists (S n). split; [lia|]. rewrite Hn, <- app_assoc. reflexivity.
Qed.

Lemma retries_repeat_request_witness :
  ∃ n, (n ≤ 2)%nat
       ∧ issued (log (run [TimerFire 2%nat; BackendError 2%nat e500; TimerFire 3%nat]
                        pausing_world))
         = issued (log pausing_world)
           ++ replicate n (attempt_request (this pausing_world) frag_plain,
                           attempt_segment frag_plain {| urlId := 7 |}).
Proof.
  apply (retries_repeat_request
           [TimerFire 2%nat; BackendError 2%nat e500; TimerFire 3%nat]).
  - repeat constructor.
  - vm_compute. reflexivity.
  - vm_compute. reflexivity.
Defined.
